(** * Israel Law MCP: the document-structure parser (scripts/lib/parser.ts)

    A shallow embedding of the multi-format parser for Israeli legislation:
    the text normalizer, the HTML structural parser (the privacy-law strategy
    and the generic fallback), the two plain-text state machines and the two
    definition extractors, together with the part of ECMAScript the parser
    relies on (strings as sequences of UTF-16 code units, the String methods
    it calls, and a backtracking matcher for the regular expressions it
    writes); and of the pure part of the ingestion pipeline
    (scripts/ingest.ts): the command line, the selection of the acts to
    process and the metadata-only records. *)

From Stdlib Require Import String Ascii.
From Stdlib Require Import List NArith ZArith Arith Bool Lia Sorted.
From Stdlib Require DecimalString DecimalNat.
Import ListNotations.

(* ===================================================================== *)
(** ** ECMAScript strings *)
(* ===================================================================== *)

Module JS.

(** A JavaScript string is a sequence of UTF-16 code units; [length] is
    the [.length] of the source. *)
Definition cu := N.
Definition jstring := list cu.

(** ASCII literals of the source, written as Rocq strings. *)
Definition str (s : string) : jstring :=
  map N_of_ascii (list_ascii_of_string s).

Definition cu_eqb (a b : cu) : bool := N.eqb a b.

Fixpoint eqb (a b : jstring) : bool :=
  match a, b with
  | [], [] => true
  | x :: a', y :: b' => cu_eqb x y && eqb a' b'
  | _, _ => false
  end.

(** WhiteSpace and LineTerminator code points: the set matched by [\s]
    and stripped by [String.prototype.trim]. *)
Definition isWhiteSpace (c : cu) : bool :=
  ((9 <=? c) && (c <=? 13) || (c =? 32) || (c =? 160) || (c =? 5760)
   || (8192 <=? c) && (c <=? 8202) || (c =? 8232) || (c =? 8233)
   || (c =? 8239) || (c =? 8287) || (c =? 12288) || (c =? 65279))%N.

(** LineTerminator: what [.] does not match. *)
Definition isLineTerminator (c : cu) : bool :=
  ((c =? 10) || (c =? 13) || (c =? 8232) || (c =? 8233))%N.

Definition isDigit (c : cu) : bool := ((48 <=? c) && (c <=? 57))%N.
Definition isUpper (c : cu) : bool := ((65 <=? c) && (c <=? 90))%N.
Definition isLower (c : cu) : bool := ((97 <=? c) && (c <=? 122))%N.
Definition isWordChar (c : cu) : bool :=
  isDigit c || isUpper c || isLower c || (c =? 95)%N.

Fixpoint trimStart (s : jstring) : jstring :=
  match s with
  | c :: t => if isWhiteSpace c then trimStart t else s
  | [] => []
  end.

Fixpoint trimEnd (s : jstring) : jstring :=
  match s with
  | [] => []
  | c :: t =>
      match trimEnd t with
      | [] => if isWhiteSpace c then [] else [c]
      | t' => c :: t'
      end
  end.

Definition trim (s : jstring) : jstring := trimEnd (trimStart s).

(** [s.substring(a, b)]: both ends clamped to the length, swapped when
    [a > b]. *)
Definition substring (a b : nat) (s : jstring) : jstring :=
  let a' := Nat.min a (length s) in
  let b' := Nat.min b (length s) in
  let lo := Nat.min a' b' in
  let hi := Nat.max a' b' in
  firstn (hi - lo) (skipn lo s).

Arguments substring : simpl never.

(** [s.substring(a)] *)
Definition substringFrom (a : nat) (s : jstring) : jstring :=
  substring a (length s) s.

Fixpoint startsWith (p s : jstring) : bool :=
  match p, s with
  | [], _ => true
  | x :: p', y :: s' => cu_eqb x y && startsWith p' s'
  | _ :: _, [] => false
  end.

(** [s.indexOf(needle)], [-1] when absent. *)
Fixpoint indexOfFrom (needle s : jstring) (i : nat) : Z :=
  if startsWith needle s then Z.of_nat i
  else match s with
       | [] => (-1)%Z
       | _ :: t => indexOfFrom needle t (S i)
       end.

Definition indexOf (needle s : jstring) : Z := indexOfFrom needle s 0.

(** [s.split('\n')] *)
Fixpoint splitLines (s : jstring) : list jstring :=
  match s with
  | [] => [[]]
  | c :: t =>
      if (c =? 10)%N then [] :: splitLines t
      else match splitLines t with
           | l :: ls => (c :: l) :: ls
           | [] => [[c]]
           end
  end.

(** [a.join(sep)] *)
Fixpoint join (sep : jstring) (l : list jstring) : jstring :=
  match l with
  | [] => []
  | [x] => x
  | x :: tl => x ++ sep ++ join sep tl
  end.

(** [x || undefined] on a string: the empty string is falsy. *)
Definition orUndefined (s : jstring) : option jstring :=
  match s with
  | [] => None
  | _ => Some s
  end.

End JS.

Import JS.

(* ===================================================================== *)
(** ** Regular expressions *)
(* ===================================================================== *)

Module Regex.

(** Members of a character class. *)
Inductive citem : Type :=
| CChar (c : cu)            (* a literal code unit *)
| CRange (lo hi : cu)       (* lo-hi *)
| CSpace                    (* \s *)
| CDigit                    (* \d *)
| CWord.                    (* \w *)

Inductive cset : Type :=
| Any                       (* [\s\S] *)
| Dot                       (* . (no s flag) *)
| OneOf (l : list citem)    (* [...] or a single atom *)
| NoneOf (l : list citem).  (* [^...] *)

(** The regular expressions of parser.ts.  Every quantifier [*] and [+]
    of the source applies to a single-character atom, so [Star] carries a
    class; [+] is [Plus], and [?] is [Opt]. *)
Inductive re : Type :=
| Eps
| Chr (c : cset)
| Seq (a b : re)
| Alt (a b : re)
| Star (greedy : bool) (c : cset)
| Group (i : nat) (r : re)  (* capturing group number i *)
| Bol                       (* ^ *)
| Eol                       (* $ *)
| Look (r : re).            (* (?=r) *)

Definition Plus (c : cset) : re := Seq (Chr c) (Star true c).
Definition Opt (r : re) : re := Alt r Eps.

Fixpoint cat (l : list re) : re :=
  match l with
  | [] => Eps
  | [r] => r
  | r :: tl => Seq r (cat tl)
  end.

Definition range (lo hi : ascii) : citem :=
  CRange (N_of_ascii lo) (N_of_ascii hi).

Fixpoint lit (s : string) : re :=
  match s with
  | EmptyString => Eps
  | String a EmptyString => Chr (OneOf [CChar (N_of_ascii a)])
  | String a t => Seq (Chr (OneOf [CChar (N_of_ascii a)])) (lit t)
  end.

(** Canonicalize of the i flag (no u flag): the upper-case mapping, which
    never takes a code unit of 128 or more to one below 128.  All classes
    and literals of the patterns compiled with the i flag are ASCII or
    [\s], for which folding the ASCII letters is exact. *)
Definition canon (ic : bool) (c : cu) : cu :=
  if ic && isLower c then (c - 32)%N else c.

Definition toggled (c : cu) : cu :=
  if isLower c then (c - 32)%N else if isUpper c then (c + 32)%N else c.

Definition inRange (lo hi c : cu) : bool := ((lo <=? c) && (c <=? hi))%N.

Definition imatch (ic : bool) (it : citem) (c : cu) : bool :=
  match it with
  | CChar a => cu_eqb (canon ic a) (canon ic c)
  | CRange lo hi => inRange lo hi c || (ic && inRange lo hi (toggled c))
  | CSpace => isWhiteSpace c
  | CDigit => isDigit c
  | CWord => isWordChar c
  end.

Definition cmatch (ic : bool) (cs : cset) (c : cu) : bool :=
  match cs with
  | Any => true
  | Dot => negb (isLineTerminator c)
  | OneOf l => existsb (fun it => imatch ic it c) l
  | NoneOf l => negb (existsb (fun it => imatch ic it c) l)
  end.

(** Captures: group number to captured text. *)
Definition caps := list (nat * jstring).

Fixpoint getcap (i : nat) (cp : caps) : option jstring :=
  match cp with
  | [] => None
  | (j, s) :: tl => if Nat.eqb i j then Some s else getcap i tl
  end.

Definition setcap (i : nat) (s : jstring) (cp : caps) : caps := (i, s) :: cp.

(** A matcher state is the current index, the input from that index on
    and the captures; a continuation decides whether the rest of the
    pattern matches from a state. *)
Definition mstate : Type := nat * jstring * caps.
Definition kont : Type := nat -> jstring -> caps -> option mstate.

Definition kdone : kont := fun pos rest cp => Some (pos, rest, cp).

Section Matcher.

Variable ic : bool.   (* the i flag *)

(** The backtracking matcher of ECMAScript: alternatives left to right,
    greedy quantifiers longest first, lazy ones shortest first. *)
Fixpoint rmatch (r : re) (k : kont) (pos : nat) (rest : jstring)
         (cp : caps) {struct r} : option mstate :=
  match r with
  | Eps => k pos rest cp
  | Chr c =>
      match rest with
      | x :: xs => if cmatch ic c x then k (S pos) xs cp else None
      | [] => None
      end
  | Seq a b => rmatch a (fun pos' rest' cp' => rmatch b k pos' rest' cp') pos rest cp
  | Alt a b =>
      match rmatch a k pos rest cp with
      | Some m => Some m
      | None => rmatch b k pos rest cp
      end
  | Star greedy c =>
      (fix star (pos : nat) (rest : jstring) {struct rest} : option mstate :=
         match rest with
         | x :: xs =>
             if cmatch ic c x then
               if greedy then
                 match star (S pos) xs with
                 | Some m => Some m
                 | None => k pos rest cp
                 end
               else
                 match k pos rest cp with
                 | Some m => Some m
                 | None => star (S pos) xs
                 end
             else k pos rest cp
         | [] => k pos rest cp
         end) pos rest
  | Group i a =>
      rmatch a (fun pos' rest' cp' =>
                  k pos' rest' (setcap i (firstn (pos' - pos) rest) cp'))
             pos rest cp
  | Bol => if Nat.eqb pos 0 then k pos rest cp else None
  | Eol => match rest with [] => k pos rest cp | _ :: _ => None end
  | Look a =>
      match rmatch a kdone pos rest cp with
      | Some (_, _, cp') => k pos rest cp'
      | None => None
      end
  end.

(** The result of a successful [exec]. *)
Record mresult : Type := MResult {
  m_index : nat;          (* match.index *)
  m_end : nat;            (* the index after the match (lastIndex) *)
  m_text : jstring;       (* match[0] *)
  m_caps : caps;          (* match[1], match[2], ... *)
  m_after : jstring       (* the input from m_end on *)
}.

(** [group i m] is [m[i]]; a group that did not take part is
    [undefined]. *)
Definition group (i : nat) (m : mresult) : option jstring :=
  getcap i (m_caps m).

(** [re.exec(s)] from [lastIndex = pos] ([rest] is [s] from [pos] on):
    the first index at which the pattern matches. *)
Fixpoint search (r : re) (pos : nat) (rest : jstring) : option mresult :=
  match rmatch r kdone pos rest [] with
  | Some (e, after, cp) =>
      Some (MResult pos e (firstn (e - pos) rest) cp after)
  | None =>
      match rest with
      | [] => None
      | _ :: xs => search r (S pos) xs
      end
  end.

(** [s.match(re)] for a pattern without the g flag. *)
Definition matchOnce (r : re) (s : jstring) : option mresult :=
  search r 0 s.

Definition test (r : re) (s : jstring) : bool :=
  match matchOnce r s with Some _ => true | None => false end.

(** [while ((m = re.exec(s)) !== null) { ... }] with the g flag,
    collecting the matches.  [lastIndex] becomes [m_end]; a pattern that
    matches the empty string leaves [lastIndex] where it was, and the
    loop of the source never ends: that is [None].  At most
    [length s] non-empty matches fit the input, which bounds [fuel]. *)
Fixpoint execLoop (fuel : nat) (r : re) (pos : nat) (rest : jstring)
  : option (list mresult) :=
  match fuel with
  | 0 => None
  | S fuel' =>
      match search r pos rest with
      | None => Some []
      | Some m =>
          if Nat.eqb (m_end m) (m_index m) then None
          else match execLoop fuel' r (m_end m) (m_after m) with
               | Some ms => Some (m :: ms)
               | None => None
               end
      end
  end.

Definition execAll (r : re) (s : jstring) : option (list mresult) :=
  execLoop (S (length s)) r 0 s.

(** [s.replace(re, rep)] with the g flag and a replacement without [$]:
    every match is replaced; after an empty match the scan advances by
    one code unit. *)
Fixpoint replaceLoop (fuel : nat) (r : re) (rep : jstring) (pos : nat)
         (rest : jstring) : jstring :=
  match fuel with
  | 0 => rest
  | S fuel' =>
      match search r pos rest with
      | None => rest
      | Some m =>
          firstn (m_index m - pos) rest ++ rep ++
          (if Nat.eqb (m_end m) (m_index m) then
             match m_after m with
             | [] => []
             | x :: xs => x :: replaceLoop fuel' r rep (S (m_end m)) xs
             end
           else replaceLoop fuel' r rep (m_end m) (m_after m))
      end
  end.

Definition replaceAll (r : re) (rep : jstring) (s : jstring) : jstring :=
  replaceLoop (S (length s)) r rep 0 s.

End Matcher.

End Regex.

Import Regex.

(* ===================================================================== *)
(** ** The parser *)
(* ===================================================================== *)

Module Parser.

(** A step that throws, or a loop that never ends, is [None]. *)
Definition bind {A B : Type} (x : option A) (f : A -> option B) : option B :=
  match x with
  | Some a => f a
  | None => None
  end.

Notation "x <- e ;; k" := (bind e (fun x => k))
  (at level 61, e at next level, right associativity).

(** *** Interfaces

    The fields keep the names of the source; where two interfaces share a
    field name the projections of the later ones carry a prefix ([pa_] for
    ParsedAct, [p_] for ParsedProvision). *)

Inductive Status : Type := in_force | amended | repealed | not_yet_in_force.

Record ActIndexEntry : Type := {
  id : jstring;
  lawName : jstring;
  year : Z;
  title : jstring;
  titleEn : jstring;
  abbreviation : jstring;
  status : Status;
  issuedDate : jstring;
  inForceDate : jstring;
  url : jstring
}.

Record ParsedProvision : Type := {
  provision_ref : jstring;
  chapter : option jstring;
  section : jstring;
  p_title : jstring;
  content : jstring
}.

Record ParsedDefinition : Type := {
  term : jstring;
  definition : jstring;
  source_provision : option jstring
}.

Record ParsedAct : Type := {
  pa_id : jstring;
  pa_type : jstring;
  pa_title : jstring;
  title_en : jstring;
  short_name : jstring;
  pa_status : Status;
  issued_date : jstring;
  in_force_date : jstring;
  pa_url : jstring;
  description : option jstring;
  provisions : list ParsedProvision;
  definitions : list ParsedDefinition
}.

(** The object every strategy returns. *)
Definition mkParsedAct (act : ActIndexEntry) (ps : list ParsedProvision)
           (ds : list ParsedDefinition) : ParsedAct :=
  {| pa_id := id act;
     pa_type := str "statute";
     pa_title := title act;
     title_en := titleEn act;
     short_name := abbreviation act;
     pa_status := status act;
     issued_date := issuedDate act;
     in_force_date := inForceDate act;
     pa_url := url act;
     description := None;
     provisions := ps;
     definitions := ds |}.

(** The cap on the content of a provision. *)
Definition maxContentLength : nat := N.to_nat 8000.
Arguments maxContentLength : simpl never.

(** *** Character classes and code units used by the patterns *)

Definition ws : cset := OneOf [CSpace].
Definition digit : cset := OneOf [CDigit].
Definition word : cset := OneOf [CWord].
Definition dquote : cu := 34%N.
Definition ldquo : cu := 8220%N.     (* \u201c *)
Definition rdquo : cu := 8221%N.     (* \u201d *)
Definition ndash : cu := 8211%N.     (* \u2013 *)
Definition mdash : cu := 8212%N.     (* \u2014 *)
Definition not1 (a : string) : cset :=
  NoneOf (map (fun c => CChar (N_of_ascii c)) (list_ascii_of_string a)).

(** *** HTML utilities *)

Definition tagPattern : re := cat [lit "<"; Plus (not1 ">"); lit ">"].
Definition wsRun : re := Plus ws.

Definition stripHtml (html : jstring) : jstring :=
  trim
    (replaceAll false wsRun (str " ")
    (replaceAll false (lit "&#39;") (str "'")
    (replaceAll false (lit "&quot;") [dquote]
    (replaceAll false (lit "&gt;") (str ">")
    (replaceAll false (lit "&lt;") (str "<")
    (replaceAll false (lit "&amp;") (str "&")
    (replaceAll false (lit "&nbsp;") (str " ")
    (replaceAll false tagPattern (str " ") html)))))))).

Definition normalizeText (text : jstring) : jstring :=
  trim (replaceAll false wsRun (str " ") text).

Arguments stripHtml : simpl never.
Arguments normalizeText : simpl never.

(** *** Definition extractors *)

(* /[Q\u201c]([^Q\u201d]+)[Q\u201d]\s*[-\u2013\u2014]\s*([^;]+(?:;|$))/g,
   writing Q for the double quote *)
Definition defPattern : re :=
  cat [Chr (OneOf [CChar dquote; CChar ldquo]);
       Group 1 (Plus (NoneOf [CChar dquote; CChar rdquo]));
       Chr (OneOf [CChar dquote; CChar rdquo]);
       Star true ws;
       Chr (OneOf [CChar 45%N; CChar ndash; CChar mdash]);
       Star true ws;
       Group 2 (cat [Plus (not1 ";"); Alt (lit ";") Eol])].

(* /[Q\u201c]([^Q\u201d]+)[Q\u201d]\s*[-\u2013\u2014]+\s*([^;]+;)/g *)
Definition plainDefPattern1 : re :=
  cat [Chr (OneOf [CChar dquote; CChar ldquo]);
       Group 1 (Plus (NoneOf [CChar dquote; CChar rdquo]));
       Chr (OneOf [CChar dquote; CChar rdquo]);
       Star true ws;
       Plus (OneOf [CChar 45%N; CChar ndash; CChar mdash]);
       Star true ws;
       Group 2 (cat [Plus (not1 ";"); lit ";"])].

(* /Q([^Q]+)Q\s*[-\u2013\u2014]+\s*([^;]+;)/g *)
Definition plainDefPattern2 : re :=
  cat [Chr (OneOf [CChar dquote]);
       Group 1 (Plus (NoneOf [CChar dquote]));
       Chr (OneOf [CChar dquote]);
       Star true ws;
       Plus (OneOf [CChar 45%N; CChar ndash; CChar mdash]);
       Star true ws;
       Group 2 (cat [Plus (not1 ";"); lit ";"])].

(** [s.replace(/;$/, '')]: no g flag, the first match only. *)
Definition dropFinalSemicolon (s : jstring) : jstring :=
  match matchOnce false (cat [lit ";"; Eol]) s with
  | Some m => firstn (m_index m) s ++ m_after m
  | None => s
  end.

(** [definitions.some((d) => d.term === term)] *)
Definition hasTerm (t : jstring) (definitions : list ParsedDefinition) : bool :=
  existsb (fun d => JS.eqb (term d) t) definitions.

(** The body of the [while] loop of extractDefinitionsFromContent, for
    one match. *)
Definition contentDefStep (sourceProvision : jstring)
           (definitions : list ParsedDefinition) (m : mresult)
  : option (list ParsedDefinition) :=
  m1 <- group 1 m ;;
  m2 <- group 2 m ;;
  let term := normalizeText m1 in
  let definition := trim (dropFinalSemicolon (normalizeText m2)) in
  if (1 <? length term) && (length term <? 80) && (5 <? length definition) then
    if negb (hasTerm term definitions) then
      Some (definitions ++
            [{| term := term; definition := definition;
                source_provision := Some sourceProvision |}])
    else Some definitions
  else Some definitions.

Fixpoint foldM {A B : Type} (f : A -> B -> option A) (l : list B) (a : A)
  : option A :=
  match l with
  | [] => Some a
  | x :: tl => a' <- f a x ;; foldM f tl a'
  end.

Definition extractDefinitionsFromContent (content sourceProvision : jstring)
           (definitions : list ParsedDefinition)
  : option (list ParsedDefinition) :=
  ms <- execAll false defPattern content ;;
  foldM (contentDefStep sourceProvision) ms definitions.

(** The body of the [while] loop of extractDefinitionsFromPlainText, for
    one match; [seen] is the Set of the terms already accepted. *)
Definition plainDefStep (sourceProvision : jstring)
           (st : list jstring * list ParsedDefinition) (m : mresult)
  : option (list jstring * list ParsedDefinition) :=
  let (seen, definitions) := st in
  m1 <- group 1 m ;;
  m2 <- group 2 m ;;
  let term := normalizeText m1 in
  let definition := trim (dropFinalSemicolon (normalizeText m2)) in
  if (1 <? length term) && (length term <? 80) && (5 <? length definition)
     && negb (existsb (JS.eqb term) seen) then
    let seen := term :: seen in
    if negb (hasTerm term definitions) then
      Some (seen, definitions ++
                  [{| term := term; definition := definition;
                      source_provision := Some sourceProvision |}])
    else Some (seen, definitions)
  else Some (seen, definitions).

Definition plainDefPatterns : list re := [plainDefPattern1; plainDefPattern2].

Definition extractDefinitionsFromPlainText (content sourceProvision : jstring)
           (definitions : list ParsedDefinition)
  : option (list ParsedDefinition) :=
  st <- foldM (fun st defPattern =>
                 ms <- execAll false defPattern content ;;
                 foldM (plainDefStep sourceProvision) ms st)
              plainDefPatterns ([], definitions) ;;
  Some (snd st).

(** *** HTML parser: the UCI mirror format and the generic fallback *)

(* /PROTECTION OF PRIVACY LAW[\s\S]*?(?=<\/TD>\s*<\/TR>\s*<\/TABLE>\s*<BR>)/i *)
Definition bodyPattern : re :=
  cat [lit "PROTECTION OF PRIVACY LAW"; Star false Any;
       Look (cat [lit "</TD>"; Star true ws; lit "</TR>"; Star true ws;
                  lit "</TABLE>"; Star true ws; lit "<BR>"])].

(* /<B>(?:<a[^>]*><\/a>)?\s*(\d+[A-Z]?)\.\s+([^<]+)<\/B>/gi *)
Definition sectionPattern : re :=
  cat [lit "<B>";
       Opt (cat [lit "<a"; Star true (not1 ">"); lit ">"; lit "</a>"]);
       Star true ws;
       Group 1 (cat [Plus digit; Opt (Chr (OneOf [range "A" "Z"]))]);
       lit "."; Plus ws;
       Group 2 (Plus (not1 "<"));
       lit "</B>"].

(* /<B>\s*(CHAPTER\s+[^:]+:\s*[^<]+)<\/B>/gi *)
Definition chapterPattern : re :=
  cat [lit "<B>"; Star true ws;
       Group 1 (cat [lit "CHAPTER"; Plus ws; Plus (not1 ":"); lit ":";
                     Star true ws; Plus (not1 "<")]);
       lit "</B>"].

(* /<B>\s*(Article\s+[^:]+:\s*[^<]+)<\/B>/gi *)
Definition articlePattern : re :=
  cat [lit "<B>"; Star true ws;
       Group 1 (cat [lit "Article"; Plus ws; Plus (not1 ":"); lit ":";
                     Star true ws; Plus (not1 "<")]);
       lit "</B>"].

Record ChapterPos : Type := { pos : nat; name : jstring }.

Record SectionMatch : Type := {
  sm_pos : nat;
  sm_num : jstring;
  sm_title : jstring
}.

Fixpoint mapM {A B : Type} (f : A -> option B) (l : list A) : option (list B) :=
  match l with
  | [] => Some []
  | x :: tl => y <- f x ;; ys <- mapM f tl ;; Some (y :: ys)
  end.

(** The loop collecting the positions of the headings of one pattern. *)
Definition collectChapters (pattern : re) (body : jstring)
  : option (list ChapterPos) :=
  ms <- execAll true pattern body ;;
  mapM (fun chMatch =>
          g <- group 1 chMatch ;;
          Some {| pos := m_index chMatch;
                  name := normalizeText (stripHtml g) |}) ms.

Definition collectSections (pattern : re) (body : jstring)
  : option (list SectionMatch) :=
  ms <- execAll true pattern body ;;
  mapM (fun secMatch =>
          g1 <- group 1 secMatch ;;
          g2 <- group 2 secMatch ;;
          Some {| sm_pos := m_index secMatch;
                  sm_num := trim g1;
                  sm_title := normalizeText (stripHtml g2) |}) ms.

(** [chapters.sort((a, b) => a.pos - b.pos)]: a stable sort by offset (an
    element goes before the first one whose offset is not smaller). *)
Fixpoint insertChapter (c : ChapterPos) (l : list ChapterPos) : list ChapterPos :=
  match l with
  | [] => [c]
  | d :: tl => if pos d <? pos c then d :: insertChapter c tl else c :: l
  end.

Fixpoint sortChapters (l : list ChapterPos) : list ChapterPos :=
  match l with
  | [] => []
  | c :: tl => insertChapter c (sortChapters tl)
  end.

(** [for (const ch of chapters) if (ch.pos < sec.pos) currentChapter = ch.name] *)
Definition chapterAt (chapters : list ChapterPos) (secPos : nat)
           (currentChapter : jstring) : jstring :=
  fold_left (fun cur c => if pos c <? secPos then name c else cur)
            chapters currentChapter.

(** [sec.num === '3' || sec.num === '7' || sec.num === '17C'] *)
Definition isPrivacyDefinitionSection (num : jstring) : bool :=
  JS.eqb num (str "3") || JS.eqb num (str "7") || JS.eqb num (str "17C").

(** The loop over [sectionMatches] of parsePrivacyLawHtml; the head of
    [secs] is [sectionMatches[i]] and the one after it [nextSec]. *)
Fixpoint privacySections (body : jstring) (chapters : list ChapterPos)
         (secs : list SectionMatch) (currentChapter : jstring)
         (provisions : list ParsedProvision)
         (definitions : list ParsedDefinition)
  : option (list ParsedProvision * list ParsedDefinition) :=
  match secs with
  | [] => Some (provisions, definitions)
  | sec :: rest =>
      let currentChapter := chapterAt chapters (sm_pos sec) currentChapter in
      let startPos := sm_pos sec in
      let endPos := match rest with
                    | nextSec :: _ => sm_pos nextSec
                    | [] => length body
                    end in
      let rawContent := substring startPos endPos body in
      let content := normalizeText (stripHtml rawContent) in
      if 10 <? length content then
        let provRef := str "sec" ++ sm_num sec in
        let provisions :=
          provisions ++
          [{| provision_ref := provRef;
              chapter := orUndefined currentChapter;
              section := sm_num sec;
              p_title := sm_title sec;
              content := substring 0 maxContentLength content |}] in
        definitions <-
          (if isPrivacyDefinitionSection (sm_num sec)
           then extractDefinitionsFromContent content provRef definitions
           else Some definitions) ;;
        privacySections body chapters rest currentChapter provisions definitions
      else
        privacySections body chapters rest currentChapter provisions definitions
  end.

(** The law body: [bodyMatch ? bodyMatch[0] : html]. *)
Definition privacyBody (html : jstring) : jstring :=
  match matchOnce true bodyPattern html with
  | Some bodyMatch => m_text bodyMatch
  | None => html
  end.

Definition parsePrivacyLawHtml (html : jstring) (act : ActIndexEntry)
  : option ParsedAct :=
  let body := privacyBody html in
  chapters <- collectChapters chapterPattern body ;;
  articles <- collectChapters articlePattern body ;;
  let chapters := sortChapters (chapters ++ articles) in
  sectionMatches <- collectSections sectionPattern body ;;
  r <- privacySections body chapters sectionMatches [] [] [] ;;
  Some (mkParsedAct act (fst r) (snd r)).

(** The loop over [sectionMatches] of the generic fallback. *)
Fixpoint genericSections (html : jstring) (chapters : list ChapterPos)
         (secs : list SectionMatch) (currentChapter : jstring)
         (provisions : list ParsedProvision) : list ParsedProvision :=
  match secs with
  | [] => provisions
  | sec :: rest =>
      let currentChapter := chapterAt chapters (sm_pos sec) currentChapter in
      let startPos := sm_pos sec in
      let endPos := match rest with
                    | nextSec :: _ => sm_pos nextSec
                    | [] => length html
                    end in
      let content := normalizeText (stripHtml (substring startPos endPos html)) in
      if 10 <? length content then
        genericSections html chapters rest currentChapter
          (provisions ++
           [{| provision_ref := str "sec" ++ sm_num sec;
               chapter := orUndefined currentChapter;
               section := sm_num sec;
               p_title := sm_title sec;
               content := substring 0 maxContentLength content |}])
      else genericSections html chapters rest currentChapter provisions
  end.

Definition privacyLawId : jstring := str "privacy-protection-law-1981".

Definition parseIsraeliLawHtml (html : jstring) (act : ActIndexEntry)
  : option ParsedAct :=
  if JS.eqb (id act) privacyLawId then
    parsePrivacyLawHtml html act
  else
    chapters <- collectChapters chapterPattern html ;;
    sectionMatches <- collectSections sectionPattern html ;;
    Some (mkParsedAct act (genericSections html chapters sectionMatches [] []) []).

(** *** Plain-text parser: the statute convention (Computer Law) *)

(* /^Chapter\s+(One|Two|Three|Four|Five|Six|Seven|Eight|Nine|Ten|\w+):\s*(.+)/i *)
Definition chapterLinePattern : re :=
  cat [Bol; lit "Chapter"; Plus ws;
       Group 1 (Alt (lit "One") (Alt (lit "Two") (Alt (lit "Three")
               (Alt (lit "Four") (Alt (lit "Five") (Alt (lit "Six")
               (Alt (lit "Seven") (Alt (lit "Eight") (Alt (lit "Nine")
               (Alt (lit "Ten") (Plus word)))))))))));
       lit ":"; Star true ws; Group 2 (Plus Dot)].

(* /^(\d+[A-Za-z]?)\.\s*$/ *)
Definition sectionAlonePattern : re :=
  cat [Bol;
       Group 1 (cat [Plus digit; Opt (Chr (OneOf [range "A" "Z"; range "a" "z"]))]);
       lit "."; Star true ws; Eol].

(* /^(\d+[A-Za-z]?)\.\s+(.+)/ *)
Definition sectionInlinePattern : re :=
  cat [Bol;
       Group 1 (cat [Plus digit; Opt (Chr (OneOf [range "A" "Z"; range "a" "z"]))]);
       lit "."; Plus ws; Group 2 (Plus Dot)].

Definition reChapterStart : re := cat [Bol; lit "Chapter"; Plus ws].  (* /^Chapter\s+/i *)
Definition reGo : re := cat [Bol; lit "Go"; Eol].                     (* /^Go$/i *)
Definition reSectionN : re := cat [Bol; lit "Section"; Plus ws; Plus digit]. (* /^Section\s+\d+/ *)
Definition reClause : re := cat [Bol; lit "Clause"; Plus ws].         (* /^Clause\s+/i *)
Definition reStar : re := cat [Bol; lit "*"].                         (* /^\*/ *)
Definition reContents : re := cat [Bol; lit "Contents"; Eol].         (* /^Contents$/ *)
Definition reDigits : re := cat [Bol; Plus digit; Eol].               (* /^\d+$/ *)
Definition reComputersLaw : re := cat [Bol; lit "Computers Law"].     (* /^Computers Law/i *)
Definition rePublishedIn : re := cat [Bol; lit "Published in"].       (* /^Published in/i *)
Definition reComputersLaw1995 : re := cat [Bol; lit "Computers Law, 1995"]. (* /^Computers Law, 1995/i *)
Definition reStarOnly : re := cat [Bol; lit "*"; Eol].                (* /^\*$/ *)

Record SectionAcc : Type := {
  num : jstring;
  s_title : jstring;
  s_content : jstring;
  s_chapter : jstring
}.

(** The variables the loop over the lines updates. *)
Record TextState : Type := {
  currentChapter : jstring;
  sections : list SectionAcc;
  currentSection : option SectionAcc;
  marginalNoteLines : list jstring
}.

Definition initialTextState : TextState :=
  {| currentChapter := []; sections := []; currentSection := None;
     marginalNoteLines := [] |}.

(** [if (currentSection) sections.push(currentSection)] *)
Definition pushCurrent (st : TextState) : list SectionAcc :=
  match currentSection st with
  | Some cur => sections st ++ [cur]
  | None => sections st
  end.

(** The filter on the marginal notes at a section number alone on its
    line. *)
Definition titleCandidateAlone (l : jstring) : bool :=
  (0 <? length l) && (length l <? 100)
  && negb (test true reChapterStart l) && negb (test true reGo l)
  && negb (test false reSectionN l) && negb (test true reClause l)
  && negb (test false reStar l) && negb (test false reContents l)
  && negb (test false reDigits l) && negb (test true reComputersLaw l)
  && negb (test true rePublishedIn l).

(** The filter at an inline section start. *)
Definition titleCandidateInline (l : jstring) : bool :=
  (0 <? length l) && (length l <? 100)
  && negb (test true reChapterStart l) && negb (test true reGo l)
  && negb (test false reSectionN l) && negb (test true reClause l)
  && negb (test false reStar l) && negb (test false reContents l)
  && negb (test false reDigits l) && negb (test true reComputersLaw l).

(** One iteration of the loop over [lines]. *)
Definition computerLine (st : TextState) (rawLine : jstring) : option TextState :=
  let line := trim rawLine in
  (* Detect chapter headings *)
  if test true chapterLinePattern line then
    Some {| currentChapter := normalizeText line;
            sections := sections st;
            currentSection := currentSection st;
            marginalNoteLines := [] |}
  else
  (* Pattern 1: the section number alone on a line *)
  match matchOnce false sectionAlonePattern line with
  | Some sectionAloneMatch =>
      g1 <- group 1 sectionAloneMatch ;;
      let titleCandidates := filter titleCandidateAlone (marginalNoteLines st) in
      let title := normalizeText (join (str " ") titleCandidates) in
      Some {| currentChapter := currentChapter st;
              sections := pushCurrent st;
              currentSection :=
                Some {| num := g1; s_title := title; s_content := [];
                        s_chapter := currentChapter st |};
              marginalNoteLines := [] |}
  | None =>
  (* Pattern 2: the section number and content on the same line *)
  match matchOnce false sectionInlinePattern line with
  | Some sectionInlineMatch =>
      g2 <- group 2 sectionInlineMatch ;;
      if test true rePublishedIn g2 then Some st
      else
        g1 <- group 1 sectionInlineMatch ;;
        let titleCandidates := filter titleCandidateInline (marginalNoteLines st) in
        let title := normalizeText (join (str " ") titleCandidates) in
        Some {| currentChapter := currentChapter st;
                sections := pushCurrent st;
                currentSection :=
                  Some {| num := g1; s_title := title;
                          s_content := normalizeText (m_text sectionInlineMatch);
                          s_chapter := currentChapter st |};
                marginalNoteLines := [] |}
  | None =>
  (* Accumulate content for the current section *)
  match currentSection st with
  | Some cur =>
      if 0 <? length line then
        if test false reDigits line && (length line <=? 3) then Some st
        else if test true reComputersLaw1995 line then Some st
        else
          Some {| currentChapter := currentChapter st;
                  sections := sections st;
                  currentSection :=
                    Some {| num := num cur; s_title := s_title cur;
                            s_content := s_content cur ++ str " " ++ normalizeText line;
                            s_chapter := s_chapter cur |};
                  marginalNoteLines := marginalNoteLines st |}
      else Some st
  | None =>
      if 0 <? length line then
        if negb (test true reGo line) && negb (test false reSectionN line)
           && negb (test true reComputersLaw line) && negb (test false reDigits line)
           && negb (test false reStarOnly line) && negb (test true rePublishedIn line)
        then
          Some {| currentChapter := currentChapter st;
                  sections := sections st;
                  currentSection := None;
                  marginalNoteLines := marginalNoteLines st ++ [line] |}
        else if test true reGo line || test false reSectionN line then
          Some {| currentChapter := currentChapter st;
                  sections := sections st;
                  currentSection := None;
                  marginalNoteLines := [] |}
        else Some st
      else Some st
  end
  end
  end.

(** The emission loop [for (const sec of sections)] of the statute
    convention, for one section. *)
Definition computerEmit (st : list ParsedProvision * list ParsedDefinition)
           (sec : SectionAcc)
  : option (list ParsedProvision * list ParsedDefinition) :=
  let (provisions, definitions) := st in
  let content := normalizeText (s_content sec) in
  if 10 <? length content then
    let provisions :=
      provisions ++
      [{| provision_ref := str "sec" ++ num sec;
          chapter := orUndefined (s_chapter sec);
          section := num sec;
          p_title := s_title sec;
          content := substring 0 maxContentLength content |}] in
    if JS.eqb (num sec) (str "1") then
      definitions <- extractDefinitionsFromPlainText content
                       (str "sec" ++ num sec) definitions ;;
      Some (provisions, definitions)
    else Some (provisions, definitions)
  else Some (provisions, definitions).

Definition lawTextMarker : jstring := str "Computers Law, 5755".

(** The law text proper: the input from the first occurrence of the
    marker on, or the whole input. *)
Definition lawTextOf (text : jstring) : jstring :=
  let lawTextStart := indexOf lawTextMarker text in
  if (0 <=? lawTextStart)%Z then substringFrom (Z.to_nat lawTextStart) text
  else text.

(** The sections the state machine collects from the law text. *)
Definition computerSections (lawText : jstring) : option (list SectionAcc) :=
  st <- foldM computerLine (splitLines lawText) initialTextState ;;
  Some (pushCurrent st).

Definition parseComputerLawText (text : jstring) (act : ActIndexEntry)
  : option ParsedAct :=
  let lawText := lawTextOf text in
  secs <- computerSections lawText ;;
  r <- foldM computerEmit secs ([], []) ;;
  Some (mkParsedAct act (fst r) (snd r)).

(** *** Plain-text parser: the basic-law convention *)

(* /^(\d+[a-z]?)\.\s*G2/ where the second group G2 is the dot under a
   greedy star *)
Definition basicSectionPattern : re :=
  cat [Bol;
       Group 1 (cat [Plus digit; Opt (Chr (OneOf [range "a" "z"]))]);
       lit "."; Star true ws; Group 2 (Star true Dot)].

(* /^\d+[a-z]?\.\s/ *)
Definition reNumbered : re :=
  cat [Bol; Plus digit; Opt (Chr (OneOf [range "a" "z"])); lit "."; Chr ws].
Definition reAmendment : re := cat [Bol; lit "(Amendment"].       (* /^\(Amendment/ *)
Definition reBasicLawHeader : re := cat [Bol; lit "BASIC-LAW:"].  (* /^BASIC-LAW:/i *)
Definition reThisUnofficial : re := cat [Bol; lit "This unofficial"]. (* /^This unofficial/i *)
Definition reForTheFull : re := cat [Bol; lit "For the full"].    (* /^For the full/i *)
Definition reSpecialThanks : re := cat [Bol; lit "Special thanks"]. (* /^Special thanks/i *)

Record BasicSection : Type := {
  b_num : jstring;
  b_title : jstring;
  b_content : jstring
}.

(** The look-back for the marginal label:
    [for (let j = i - 1; j >= Math.max(0, i - 4); j--)];
    [n] counts the iterations left, [Math.min(i, 4)] at the start. *)
Fixpoint lookBack (lines : list jstring) (n j : nat) (title : jstring)
  : option jstring :=
  match n with
  | 0 => Some title
  | S n' =>
      raw <- nth_error lines j ;;
      let prevLine := trim raw in
      if (0 <? length prevLine) && negb (test false reNumbered prevLine)
         && negb (test false reAmendment prevLine) && (length prevLine <? 100)
      then
        lookBack lines n' (j - 1)
                 (prevLine ++ match title with
                              | [] => []
                              | _ => str " " ++ title
                              end)
      else if (length prevLine =? 0) && (0 <? length title) then Some title
      else lookBack lines n' (j - 1) title
  end.

Definition BasicState : Type := (list BasicSection * option BasicSection)%type.

Definition pushBasic (st : BasicState) : list BasicSection :=
  match snd st with
  | Some cur => fst st ++ [cur]
  | None => fst st
  end.

(** One iteration of the loop over the indices of [lines]. *)
Definition basicLine (lines : list jstring) (st : BasicState) (i : nat)
  : option BasicState :=
  raw <- nth_error lines i ;;
  let line := trim raw in
  match matchOnce false basicSectionPattern line with
  | Some sectionMatch =>
      title <- lookBack lines (Nat.min i 4) (i - 1) [] ;;
      g1 <- group 1 sectionMatch ;;
      g2 <- group 2 sectionMatch ;;
      Some (pushBasic st,
            Some {| b_num := g1;
                    b_title := normalizeText title;
                    b_content := match g2 with
                                 | [] => []
                                 | _ => normalizeText (m_text sectionMatch)
                                 end |})
  | None =>
      match snd st with
      | Some cur =>
          if 0 <? length line then
            if test true reBasicLawHeader line then Some st
            else if test true reThisUnofficial line then Some st
            else if test true reForTheFull line then Some st
            else if test true reSpecialThanks line then Some st
            else Some (fst st,
                       Some {| b_num := b_num cur; b_title := b_title cur;
                               b_content := b_content cur ++ str " "
                                            ++ normalizeText line |})
          else Some st
      | None => Some st
      end
  end.

Definition basicSections (text : jstring) : option (list BasicSection) :=
  let lines := splitLines text in
  st <- foldM (basicLine lines) (seq 0 (length lines)) ([], None) ;;
  Some (pushBasic st).

(** The emission loop of the basic-law convention, for one section. *)
Definition basicEmit (provisions : list ParsedProvision) (sec : BasicSection)
  : list ParsedProvision :=
  let content := normalizeText (b_content sec) in
  if 10 <? length content then
    provisions ++
    [{| provision_ref := str "sec" ++ b_num sec;
        chapter := None;
        section := b_num sec;
        p_title := b_title sec;
        content := substring 0 maxContentLength content |}]
  else provisions.

Definition parseBasicLawText (text : jstring) (act : ActIndexEntry)
  : option ParsedAct :=
  secs <- basicSections text ;;
  Some (mkParsedAct act (fold_left basicEmit secs []) []).

End Parser.

Import Parser.

(* ===================================================================== *)
(** ** Static analysis of patterns *)
(* ===================================================================== *)

Module Analysis.

(** Can the pattern match the empty string? *)
Fixpoint nullable (r : re) : bool :=
  match r with
  | Eps => true
  | Chr _ => false
  | Seq a b => nullable a && nullable b
  | Alt a b => nullable a || nullable b
  | Star _ _ => true
  | Group _ a => nullable a
  | Bol => true
  | Eol => true
  | Look _ => true
  end.

(** Does every match of the pattern set group [i]? *)
Fixpoint defines (r : re) (i : nat) : bool :=
  match r with
  | Seq a b => defines a i || defines b i
  | Alt a b => defines a i && defines b i
  | Group j a => Nat.eqb i j || defines a i
  | Look a => defines a i
  | _ => false
  end.

(** The code units a non-empty match of the pattern may start with. *)
Fixpoint firstc (ic : bool) (r : re) (c : cu) : bool :=
  match r with
  | Chr cs => cmatch ic cs c
  | Seq a b => firstc ic a c || (nullable a && firstc ic b c)
  | Alt a b => firstc ic a c || firstc ic b c
  | Star _ cs => cmatch ic cs c
  | Group _ a => firstc ic a c
  | _ => false
  end.

(** Every capture is non-empty and starts with a code unit that [P]
    accepts for its group. *)
Definition capsHead (P : nat -> cu -> bool) (cp : caps) : Prop :=
  forall i s, getcap i cp = Some s ->
              exists c t, s = c :: t /\ P i c = true.

(** Every group of the pattern captures only such texts. *)
Fixpoint groupsHead (ic : bool) (P : nat -> cu -> bool) (r : re) : Prop :=
  match r with
  | Seq a b => groupsHead ic P a /\ groupsHead ic P b
  | Alt a b => groupsHead ic P a /\ groupsHead ic P b
  | Group i a =>
      nullable a = false
      /\ (forall c, firstc ic a c = true -> P i c = true)
      /\ groupsHead ic P a
  | Look a => groupsHead ic P a
  | _ => True
  end.

(** The matcher went from one state to another over the pattern [r],
    consuming [w]. *)
Definition stepped (ic : bool) (P : nat -> cu -> bool) (r : re)
           (pos : nat) (rest : jstring) (cp : caps)
           (pos' : nat) (rest' : jstring) (cp' : caps) : Prop :=
  exists w,
    rest = w ++ rest'
    /\ pos' = pos + length w
    /\ (nullable r = false -> w <> [])
    /\ (forall c t, w = c :: t -> firstc ic r c = true)
    /\ (forall i, defines r i = true -> getcap i cp' <> None)
    /\ (forall i, getcap i cp <> None -> getcap i cp' <> None)
    /\ (groupsHead ic P r -> capsHead P cp -> capsHead P cp').

(** Captures that start with an ASCII letter. *)
Definition isLetter (c : cu) : bool := isUpper c || isLower c.
Definition letterHead : nat -> cu -> bool := fun _ c => isLetter c.

(** The text starts with the code unit [c]. *)
Definition headIs (c : cu) (s : jstring) : Prop := exists t, s = c :: t.

(** The first code unit of [R], if any, is outside the class: a run of
    the class stops there. *)
Definition stopsAt (ic : bool) (c : cset) (R : jstring) : Prop :=
  forall x R', R = x :: R' -> cmatch ic c x = false.

(** The label of the section patterns of the statute convention,
    [\d+[A-Za-z]?], and what follows it in each pattern. *)
Definition letterClass : cset := OneOf [range "A" "Z"; range "a" "z"].
Definition labelRe : re := Seq (Plus digit) (Opt (Chr letterClass)).
Definition period : cu := 46%N.
Definition lessThan : cu := 60%N.
Definition aloneTail : re := Seq (Chr (OneOf [CChar period])) (Seq (Star true ws) Eol).
Definition inlineTail : re :=
  Seq (Chr (OneOf [CChar period])) (Seq (Plus ws) (Group 2 (Plus Dot))).

(** A section label as text: digits, then at most one ASCII letter. *)
Definition sectionLabel (D L : jstring) : Prop :=
  D <> [] /\ Forall (fun d => isDigit d = true) D
  /\ (L = [] \/ exists l, L = [l] /\ isLetter l = true).

(** No constraint on the captures. *)
Definition anyHead : nat -> cu -> bool := fun _ _ => true.

(** What [exec] returns: the match [m] of [r] in [rest], the input from
    [pos] on. *)
Definition found (ic : bool) (P : nat -> cu -> bool) (r : re)
           (pos : nat) (rest : jstring) (m : mresult) : Prop :=
  exists skipped w,
    rest = skipped ++ w ++ m_after m
    /\ m_index m = pos + length skipped
    /\ m_end m = m_index m + length w
    /\ m_text m = w
    /\ (nullable r = false -> w <> [])
    /\ (forall c t, w = c :: t -> firstc ic r c = true)
    /\ (forall i, defines r i = true -> group i m <> None)
    /\ (groupsHead ic P r -> capsHead P (m_caps m)).

End Analysis.

Import Analysis.

(* ===================================================================== *)
(** ** What the strategies recognize and what they emit *)
(* ===================================================================== *)

Module Emission.

(** A recognized section: its label and its normalized content. *)
Definition Recognized : Type := (jstring * jstring)%type.

(** The sections that survive the content threshold, with the content as
    it is emitted. *)
Definition kept (l : list Recognized) : list Recognized :=
  map (fun lc : Recognized => (fst lc, substring 0 maxContentLength (snd lc)))
      (filter (fun lc : Recognized => 10 <? length (snd lc)) l).

(** The label and the content of the provisions of an act, in order. *)
Definition emitted (ps : list ParsedProvision) : list Recognized :=
  map (fun p => (section p, content p)) ps.

(** The statute convention: the accumulators with their content
    normalized. *)
Definition computerRecognized (secs : list SectionAcc) : list Recognized :=
  map (fun sec => (num sec, normalizeText (s_content sec))) secs.

Definition basicRecognized (secs : list BasicSection) : list Recognized :=
  map (fun sec => (b_num sec, normalizeText (b_content sec))) secs.

(** The HTML strategies: every section match with the normalized text
    between its offset and the offset of the next match (or the end of
    the body). *)
Fixpoint htmlRecognized (body : jstring) (secs : list SectionMatch)
  : list Recognized :=
  match secs with
  | [] => []
  | sec :: rest =>
      (sm_num sec,
       normalizeText
         (stripHtml
            (substring (sm_pos sec)
                       (match rest with
                        | nextSec :: _ => sm_pos nextSec
                        | [] => length body
                        end) body)))
      :: htmlRecognized body rest
  end.

(** The text the generic fallback scans: the privacy-law strategy, to
    which it routes the privacy law, trims the body first. *)
Definition htmlBodyFor (act : ActIndexEntry) (html : jstring) : jstring :=
  if JS.eqb (id act) privacyLawId then privacyBody html else html.

(** Appending under the guard of [hasTerm] keeps what was captured
    before in place and the terms distinct. *)
Definition extends (defs defs' : list ParsedDefinition) : Prop :=
  (exists added, defs' = defs ++ added)
  /\ (NoDup (map term defs) -> NoDup (map term defs')).

(** The section matches of the HTML strategies whose content passes the
    threshold: those a provision is emitted for. *)
Fixpoint emittedMatches (body : jstring) (secs : list SectionMatch)
  : list SectionMatch :=
  match secs with
  | [] => []
  | sec :: rest =>
      if 10 <? length
                 (normalizeText
                    (stripHtml
                       (substring (sm_pos sec)
                                  (match rest with
                                   | nextSec :: _ => sm_pos nextSec
                                   | [] => length body
                                   end) body)))
      then sec :: emittedMatches body rest
      else emittedMatches body rest
  end.

(** The provision [p] comes from the section match [sec] and carries the
    chapter of the nearest heading before it: the name of a heading of
    greatest offset below the offset of [sec], or no chapter when no
    heading lies below it. *)
Definition attributed (heads : list ChapterPos) (sec : SectionMatch)
           (p : ParsedProvision) : Prop :=
  section p = sm_num sec
  /\ p_title p = sm_title sec
  /\ match chapter p with
     | Some n =>
         exists h, In h heads /\ pos h < sm_pos sec /\ n = name h
                   /\ (forall h', In h' heads -> pos h' < sm_pos sec ->
                                   pos h' <= pos h)
     | None => forall h, In h heads -> sm_pos sec <= pos h
     end.

(** What the loop knows of [currentChapter] on reaching the sections
    [secs]: it is still empty, or a heading lies before all of them. *)
Definition carried (chapters : list ChapterPos) (cur : jstring)
           (secs : list SectionMatch) : Prop :=
  cur = []
  \/ exists h, In h chapters /\ forall sec, In sec secs -> pos h < sm_pos sec.

(** The four strategies. *)
Inductive Strategy : Type := PrivacyHtml | GenericHtml | ComputerText | BasicText.

Definition run (s : Strategy) (text : jstring) (act : ActIndexEntry)
  : option ParsedAct :=
  match s with
  | PrivacyHtml => parsePrivacyLawHtml text act
  | GenericHtml => parseIsraeliLawHtml text act
  | ComputerText => parseComputerLawText text act
  | BasicText => parseBasicLawText text act
  end.

(** The sections a strategy recognizes in an input. *)
Definition recognizedBy (s : Strategy) (text : jstring) (act : ActIndexEntry)
  : option (list Recognized) :=
  match s with
  | PrivacyHtml =>
      option_map (htmlRecognized (privacyBody text))
                 (collectSections sectionPattern (privacyBody text))
  | GenericHtml =>
      option_map (htmlRecognized (htmlBodyFor act text))
                 (collectSections sectionPattern (htmlBodyFor act text))
  | ComputerText =>
      option_map computerRecognized (computerSections (lawTextOf text))
  | BasicText =>
      option_map basicRecognized (basicSections text)
  end.

End Emission.

Import Emission.

(* ===================================================================== *)
(** ** Concrete inputs *)
(* ===================================================================== *)

Module Scenarios.

Definition nl : jstring := [10%N].
Definition q : jstring := [dquote].

Definition sampleAct : ActIndexEntry :=
  {| id := str "computer-law-1995";
     lawName := str "Computers Law";
     year := 1995;
     title := str "Computers Law";
     titleEn := str "Computers Law, 5755-1995";
     abbreviation := str "CL";
     status := in_force;
     issuedDate := str "1995-07-25";
     inForceDate := str "1995-10-25";
     url := str "https://www.unodc.org/" |}.

Definition prov (ref : string) (ch : option jstring) (sec title body : string)
  : ParsedProvision :=
  {| provision_ref := str ref; chapter := ch; section := str sec;
     p_title := str title; content := str body |}.

(** The scenario of the chapter heading before two sections, and a
    section before the first chapter heading. *)
Definition chapterHtml : jstring :=
  str "<B>CHAPTER A: Intro</B> ... <B>1. First</B> some content exceeding ten chars <B>2. Second</B> more content exceeding ten chars".

Definition lateChapterHtml : jstring :=
  str "<B>1. First</B> some content exceeding <B>CHAPTER A: Intro</B> <B>2. Second</B> more content exceeding ten chars".

Definition articleHtml : jstring :=
  str "<B>CHAPTER A: Intro</B> <B>1. First</B> content of the first <B>Article One: Data Bases</B> <B>2. Second</B> content of the second".

(** The scenario of the marginal title. *)
Definition scenarioText : jstring :=
  str "Marginal Title" ++ nl ++ nl ++ str "1." ++ nl ++ nl
  ++ str "Body text here that is long enough." ++ nl ++ nl
  ++ str "2. Inline body text also long enough.".

(** Content of 4, 10 and 11 characters. *)
Definition text4 : jstring := str "1. a".
Definition text10 : jstring := str "1. abcdefg".
Definition text11 : jstring := str "1. abcdefgh".
Definition html10 : jstring := str "<B>1. abcdefg</B>".
Definition html11 : jstring := str "<B>1. abcdefgh</B>".

(** Content of 9000 characters. *)
Definition text9000 : jstring := str "1. " ++ repeat 97%N (N.to_nat 8997).
Definition html9000 : jstring := str "<B>1. T</B>" ++ repeat 97%N (N.to_nat 8995).

(** A chapter heading in the plain text. *)
Definition chapterText : jstring :=
  str "Chapter One: Intro" ++ nl ++ str "1. abcdefgh".

(** Prose without any section heading. *)
Definition proseText : jstring :=
  str "An unofficial translation." ++ nl ++ str "No numbered section follows.".

(** A table of contents before the law text. *)
Definition tocText : jstring :=
  str "Section 1" ++ nl ++ str "1. Table of contents entry" ++ nl
  ++ str "Computers Law, 5755-1995" ++ nl ++ str "2. Real section text".

(** Quoted-term definitions: the term between double quotes, a dash and
    the definition text. *)
Definition quoted (t : jstring) (d : string) : jstring :=
  q ++ t ++ q ++ str " - " ++ str d ++ str ";".

Definition dupContent (t : string) : jstring :=
  quoted (str t) "def one" ++ str " " ++ quoted (str t) "def two".

Definition term79 : jstring := repeat 97%N 79.
Definition term80 : jstring := repeat 97%N 80.

Definition def (t : jstring) (d ref : string) : ParsedDefinition :=
  {| term := t; definition := str d; source_provision := Some (str ref) |}.

(** A section in progress, and a line whose trailing text starts with the
    footnote marker. *)
Definition bodyInProgress : SectionAcc :=
  {| num := str "1"; s_title := [];
     s_content := str "1. Section body long enough"; s_chapter := [] |}.

Definition inSection : TextState :=
  {| currentChapter := []; sections := [];
     currentSection := Some bodyInProgress;
     marginalNoteLines := [] |}.

Definition footnoteLine : jstring := str "2. Published in Sefer Ha-Chukkim".

Definition footnoteText : jstring :=
  str "1. Section body long enough" ++ nl ++ footnoteLine.

End Scenarios.

(* ===================================================================== *)
(** ** Normal forms of text *)
(* ===================================================================== *)

Module Normal.

Definition space : cu := 32%N.

(** Every maximal run of white space replaced by one space; [inRun] tells
    that the code unit before was white space. *)
Fixpoint collapseRuns (inRun : bool) (s : jstring) : jstring :=
  match s with
  | [] => []
  | c :: t =>
      if isWhiteSpace c then
        if inRun then collapseRuns true t else space :: collapseRuns true t
      else c :: collapseRuns false t
  end.

(** The only white space is the space, and no two follow each other. *)
Fixpoint singleSpaced (s : jstring) : bool :=
  match s with
  | [] => true
  | c :: t =>
      (if isWhiteSpace c then
         cu_eqb c space
         && match t with [] => true | d :: _ => negb (isWhiteSpace d) end
       else true)
      && singleSpaced t
  end.

(** The code units that are no white space, in order. *)
Definition visible (s : jstring) : jstring :=
  filter (fun c => negb (isWhiteSpace c)) s.

Definition nonWs (s : jstring) : Prop := Forall (fun c => isWhiteSpace c = false) s.
Definition allWs (s : jstring) : Prop := Forall (fun c => isWhiteSpace c = true) s.

End Normal.

Import Normal.

(* ===================================================================== *)
(** ** The texts a pattern consumes *)
(* ===================================================================== *)

Module Language.

(** The texts a pattern can consume, whatever the context: assertions
    consume nothing. *)
Fixpoint lang (ic : bool) (r : re) (w : jstring) : Prop :=
  match r with
  | Eps | Bol | Eol | Look _ => w = []
  | Chr c => exists x, w = [x] /\ cmatch ic c x = true
  | Seq a b => exists u v, w = u ++ v /\ lang ic a u /\ lang ic b v
  | Alt a b => lang ic a w \/ lang ic b w
  | Star _ c => Forall (fun x => cmatch ic c x = true) w
  | Group _ a => lang ic a w
  end.

(** Every capture satisfies the property of its group. *)
Definition capsIn (Q : nat -> jstring -> Prop) (cp : caps) : Prop :=
  forall i s, getcap i cp = Some s -> Q i s.

(** Every text a group of the pattern can consume satisfies the property
    of the group. *)
Fixpoint groupsIn (ic : bool) (Q : nat -> jstring -> Prop) (r : re) : Prop :=
  match r with
  | Seq a b => groupsIn ic Q a /\ groupsIn ic Q b
  | Alt a b => groupsIn ic Q a /\ groupsIn ic Q b
  | Group i a => (forall w, lang ic a w -> Q i w) /\ groupsIn ic Q a
  | Look a => groupsIn ic Q a
  | _ => True
  end.

End Language.

Import Language.

(* ===================================================================== *)
(** ** Well-formed provisions *)
(* ===================================================================== *)

Module WellFormed.

(** A section label: digits, then at most one ASCII letter. *)
Definition isLabel (s : jstring) : Prop :=
  exists D L, s = D ++ L /\ sectionLabel D L.

(** A fixed point of the normalizer. *)
Definition normalized (s : jstring) : Prop := normalizeText s = s.

(** Text on one line: single spaces only, none at the start. *)
Definition singleLine (s : jstring) : Prop :=
  singleSpaced s = true
  /\ match s with [] => True | c :: _ => isWhiteSpace c = false end.

Definition keyed (p : ParsedProvision) : Prop :=
  provision_ref p = str "sec" ++ section p /\ isLabel (section p).

Definition tidy (p : ParsedProvision) : Prop :=
  normalized (p_title p)
  /\ (forall n, chapter p = Some n -> n <> [] /\ normalized n)
  /\ singleLine (content p).

(** The capture of the first group is a section label. *)
Definition labelGroup : nat -> jstring -> Prop :=
  fun i w => i = 1 -> isLabel w.

Definition good (p : ParsedProvision) : Prop := keyed p /\ tidy p.

(** What the state machines keep of a section in progress. *)
Definition goodAcc (sec : SectionAcc) : Prop :=
  isLabel (num sec) /\ normalized (s_title sec) /\ normalized (s_chapter sec).

Definition goodState (st : TextState) : Prop :=
  normalized (currentChapter st)
  /\ Forall goodAcc (sections st)
  /\ match currentSection st with Some cur => goodAcc cur | None => True end.

Definition goodBasic (sec : BasicSection) : Prop :=
  isLabel (b_num sec) /\ normalized (b_title sec).

Definition goodBasicState (st : BasicState) : Prop :=
  Forall goodBasic (fst st)
  /\ match snd st with Some cur => goodBasic cur | None => True end.

End WellFormed.

Import WellFormed.

(* ===================================================================== *)
(** ** Well-formed definitions *)
(* ===================================================================== *)

Module Definitions.

Definition semicolon : cu := 59%N.

(** A definition as the extractors build it. *)
Definition wellFormedDefinition (d : ParsedDefinition) : Prop :=
  1 < length (term d) < 80
  /\ 5 < length (definition d)
  /\ normalized (term d)
  /\ normalized (definition d)
  /\ Forall (fun c => c <> dquote) (term d)
  /\ Forall (fun c => c <> semicolon) (definition d).

(** The captures of the definition patterns: a term without a double
    quote, and a text without a semicolon, closed by at most one. *)
Definition closedText (w : jstring) : Prop :=
  exists u v, w = u ++ v /\ Forall (fun c => c <> semicolon) u
              /\ (v = [] \/ v = [semicolon]).

Definition defGroups : nat -> jstring -> Prop :=
  fun i w => (i = 1 -> Forall (fun c => c <> dquote) w)
             /\ (i = 2 -> closedText w).

(** The sections whose content a strategy scans for definitions. *)
Definition definitionSections (s : Strategy) (act : ActIndexEntry)
           (lab : jstring) : bool :=
  match s with
  | PrivacyHtml => isPrivacyDefinitionSection lab
  | GenericHtml => JS.eqb (id act) privacyLawId && isPrivacyDefinitionSection lab
  | ComputerText => JS.eqb lab (str "1")
  | BasicText => false
  end.

(** The definition names a provision of the list, one of a section that
    is scanned. *)
Definition cites (ok : jstring -> bool) (provs : list ParsedProvision)
           (d : ParsedDefinition) : Prop :=
  exists p, In p provs /\ source_provision d = Some (provision_ref p)
            /\ ok (section p) = true.

(** [/;$/] *)
Definition semiRe : re := cat [lit ";"; Eol].

(** What an extractor appends to the definitions: definitions of the
    provision [sp], well formed. *)
Definition added (sp : jstring) (defs defs' : list ParsedDefinition) : Prop :=
  exists l, defs' = defs ++ l
            /\ Forall (fun d => source_provision d = Some sp
                                /\ wellFormedDefinition d) l.

(** A definition taken from the content of a provision just emitted. *)
Definition sound (ok : jstring -> bool) (provs : list ParsedProvision)
           (d : ParsedDefinition) : Prop :=
  cites ok provs d /\ wellFormedDefinition d.

End Definitions.

Import Definitions.

(* ===================================================================== *)
(** ** Lines of the statute convention *)
(* ===================================================================== *)

Module Lines.

(** The text [w] is the literal [a], up to the case of ASCII letters when
    [ic] is set. *)
Definition spells (ic : bool) (a : string) (w : jstring) : Prop :=
  Forall2 (fun ch x => cu_eqb (canon ic (N_of_ascii ch)) (canon ic x) = true)
          (list_ascii_of_string a) w.

Definition colon : cu := 58%N.

(** The state after a chapter heading. *)
Definition enterChapter (st : TextState) (heading : jstring) : TextState :=
  {| currentChapter := heading;
     sections := sections st;
     currentSection := currentSection st;
     marginalNoteLines := [] |}.

(** The state after a line of content of the section in progress. *)
Definition appendContent (st : TextState) (cur : SectionAcc) (line : jstring)
  : TextState :=
  {| currentChapter := currentChapter st;
     sections := sections st;
     currentSection :=
       Some {| num := num cur; s_title := s_title cur;
               s_content := s_content cur ++ str " " ++ line;
               s_chapter := s_chapter cur |};
     marginalNoteLines := marginalNoteLines st |}.

(** Does every text of the pattern contain the code unit [c]?  Only
    literals that are no letter count, so that the answer does not depend
    on the i flag. *)
Fixpoint needs (c : cu) (r : re) : bool :=
  match r with
  | Chr (OneOf [CChar a]) => cu_eqb a c && negb (isLetter a)
  | Seq a b => needs c a || needs c b
  | Alt a b => needs c a && needs c b
  | Group _ a => needs c a
  | _ => false
  end.

(** The parts of the chapter heading pattern: the alternatives of its
    first group, and what follows the group. *)
Definition chapterNames : re :=
  Alt (lit "One") (Alt (lit "Two") (Alt (lit "Three")
  (Alt (lit "Four") (Alt (lit "Five") (Alt (lit "Six")
  (Alt (lit "Seven") (Alt (lit "Eight") (Alt (lit "Nine")
  (Alt (lit "Ten") (Plus word)))))))))).

Definition chapterTail : re :=
  Seq (lit ":") (Seq (Star true ws) (Group 2 (Plus Dot))).

End Lines.

Import Lines.

(* ===================================================================== *)
(** ** Line endings *)
(* ===================================================================== *)

Module LineEndings.

Definition cr : cu := 13%N.
Definition lf : cu := 10%N.

(** The text with a carriage return before every line feed. *)
Definition crlf (s : jstring) : jstring :=
  flat_map (fun c => if (c =? 10)%N then [cr; lf] else [c]) s.

(** The first suffix of [s] that starts with [needle]. *)
Fixpoint fromMarker (needle s : jstring) : option jstring :=
  if startsWith needle s then Some s
  else match s with
       | [] => None
       | _ :: t => fromMarker needle t
       end.

(** The same line, up to a carriage return at its end. *)
Definition sameLine (a b : jstring) : Prop := a = b \/ a = b ++ [cr].

End LineEndings.

Import LineEndings.

(* ===================================================================== *)
(** ** Markup and character references *)
(* ===================================================================== *)

Module Markup.

Definition ampersand : cu := 38%N.
Definition greaterThan : cu := 62%N.

(** Text without markup: no less-than sign and no ampersand. *)
Definition plainText (t : jstring) : Prop :=
  Forall (fun c => c <> lessThan /\ c <> ampersand) t.

(** What stands between the angle brackets of a tag. *)
Definition tagBody (g : jstring) : Prop :=
  g <> [] /\ Forall (fun c => c <> greaterThan) g.

(** A text, then tags each followed by a text. *)
Fixpoint markup (t0 : jstring) (l : list (jstring * jstring)) : jstring :=
  match l with
  | [] => t0
  | (g, t) :: tl => t0 ++ [lessThan] ++ g ++ [greaterThan] ++ markup t tl
  end.

(** The same with a space for every tag. *)
Fixpoint tagsAsSpaces (t0 : jstring) (l : list (jstring * jstring)) : jstring :=
  match l with
  | [] => t0
  | (g, t) :: tl => t0 ++ [space] ++ tagsAsSpaces t tl
  end.

(** The character references the normalizer decodes after [&amp;], by
    what follows the ampersand, with the text each stands for. *)
Definition laterReferences : list (string * jstring) :=
  [("lt;", str "<"); ("gt;", str ">"); ("quot;", [dquote]); ("#39;", str "'")]%string.

(** All of them but [&amp;]. *)
Definition references : list (string * jstring) :=
  (("nbsp;", str " ") :: laterReferences)%string.

(** The code units that, after an ampersand, start one of the later
    character references. *)
Definition startsReference (c : cu) : bool :=
  (cu_eqb 108 c || cu_eqb 103 c || cu_eqb 113 c || cu_eqb 35 c)%N.

(** Text without ampersand. *)
Definition noAmp (s : jstring) : Prop := Forall (fun c => c <> ampersand) s.

End Markup.

Import Markup.

(* ===================================================================== *)
(** ** The ingestion pipeline (scripts/ingest.ts) *)
(* ===================================================================== *)

Module Ingest.

Import Scenarios.

(** *** The index of acts (parser.ts) *)

(** KEY_ISRAELI_ACTS *)
Definition KEY_ISRAELI_ACTS : list ActIndexEntry :=
  [{| id := str "privacy-protection-law-1981";
     lawName := str "Privacy Protection Law";
     year := 1981;
     title := [1495; 1493; 1511]%N ++ str " " ++ [1492; 1490; 1504; 1514]%N ++ str " "
              ++ [1492; 1508; 1512; 1496; 1497; 1493; 1514]%N ++ str ", " ++ [1514; 1513; 1502]%N ++ q ++ [1488]%N
              ++ str "-1981";
     titleEn := str "Protection of Privacy Law, 5741-1981";
     abbreviation := str "PPL";
     status := in_force;
     issuedDate := str "1981-03-11";
     inForceDate := str "1981-09-11";
     url := str "https://ics.uci.edu/~kobsa/privacy/israel.htm" |};
   {| id := str "data-security-regulations-2017";
     lawName := str "Protection of Privacy Regulations (Data Security)";
     year := 2017;
     title := [1514; 1511; 1504; 1493; 1514]%N ++ str " " ++ [1492; 1490; 1504; 1514]%N ++ str " "
              ++ [1492; 1508; 1512; 1496; 1497; 1493; 1514]%N ++ str " (" ++ [1488; 1489; 1496; 1495; 1514]%N
              ++ str " " ++ [1502; 1497; 1491; 1506]%N ++ str "), " ++ [1514; 1513; 1506]%N ++ q ++ [1494]%N
              ++ str "-2017";
     titleEn := str "Protection of Privacy Regulations (Data Security), 5777-2017";
     abbreviation := str "DSR";
     status := in_force;
     issuedDate := str "2017-03-21";
     inForceDate := str "2018-05-08";
     url := str "https://www.gov.il/en/departments/legalinfo/data_security_regulation" |};
   {| id := str "computer-law-1995";
     lawName := str "Computers Law";
     year := 1995;
     title := [1495; 1493; 1511]%N ++ str " " ++ [1492; 1502; 1495; 1513; 1489; 1497; 1501]%N ++ str ", "
              ++ [1514; 1513; 1504]%N ++ q ++ [1492]%N ++ str "-1995";
     titleEn := str "Computers Law, 5755-1995";
     abbreviation := str "CL";
     status := in_force;
     issuedDate := str "1995-07-25";
     inForceDate := str "1995-10-25";
     url := str "https://www.unodc.org/cld/uploads/res/document/computer-law_html/Israel_Computers_Law_5755_1995.pdf" |};
   {| id := str "basic-law-human-dignity-1992";
     lawName := str "Basic Law: Human Dignity and Liberty";
     year := 1992;
     title := [1495; 1493; 1511]%N ++ str " " ++ [1497; 1505; 1493; 1491]%N ++ str ": "
              ++ [1499; 1489; 1493; 1491]%N ++ str " " ++ [1492; 1488; 1491; 1501]%N ++ str " "
              ++ [1493; 1495; 1497; 1512; 1493; 1514; 1493]%N;
     titleEn := str "Basic Law: Human Dignity and Liberty, 5752-1992";
     abbreviation := str "BL-HDL";
     status := in_force;
     issuedDate := str "1992-03-17";
     inForceDate := str "1992-03-17";
     url := str "https://m.knesset.gov.il/EN/activity/documents/BasicLawsPDF/BasicLawLiberty.pdf" |};
   {| id := str "companies-law-1999";
     lawName := str "Companies Law";
     year := 1999;
     title := [1495; 1493; 1511]%N ++ str " " ++ [1492; 1495; 1489; 1512; 1493; 1514]%N ++ str ", "
              ++ [1514; 1513; 1504]%N ++ q ++ [1496]%N ++ str "-1999";
     titleEn := str "Companies Law, 5759-1999";
     abbreviation := str "CoL";
     status := in_force;
     issuedDate := str "1999-02-15";
     inForceDate := str "2000-02-01";
     url := str "https://www.gov.il/en/departments/legalinfo/companies_law" |};
   {| id := str "electronic-signature-law-2001";
     lawName := str "Electronic Signature Law";
     year := 2001;
     title := [1495; 1493; 1511]%N ++ str " " ++ [1495; 1514; 1497; 1502; 1492]%N ++ str " "
              ++ [1488; 1500; 1511; 1496; 1512; 1493; 1504; 1497; 1514]%N ++ str ", " ++ [1514; 1505]%N ++ q
              ++ [1488]%N ++ str "-2001";
     titleEn := str "Electronic Signature Law, 5761-2001";
     abbreviation := str "ESL";
     status := in_force;
     issuedDate := str "2001-08-07";
     inForceDate := str "2001-08-07";
     url := str "https://www.gov.il/en/departments/legalinfo/electronic_signature_law" |};
   {| id := str "credit-data-law-2002";
     lawName := str "Credit Data Law";
     year := 2002;
     title := [1495; 1493; 1511]%N ++ str " " ++ [1504; 1514; 1493; 1504; 1497]%N ++ str " "
              ++ [1488; 1513; 1512; 1488; 1497]%N ++ str ", " ++ [1514; 1505]%N ++ q ++ [1489]%N ++ str "-2002";
     titleEn := str "Credit Data Law, 5762-2002";
     abbreviation := str "CDL";
     status := in_force;
     issuedDate := str "2002-01-01";
     inForceDate := str "2002-01-01";
     url := str "https://www.nevo.co.il/law_html/law01/999_611.htm" |};
   {| id := str "freedom-of-information-law-1998";
     lawName := str "Freedom of Information Law";
     year := 1998;
     title := [1495; 1493; 1511]%N ++ str " " ++ [1495; 1493; 1508; 1513]%N ++ str " "
              ++ [1492; 1502; 1497; 1491; 1506]%N ++ str ", " ++ [1514; 1513; 1504]%N ++ q ++ [1495]%N ++ str "-1998";
     titleEn := str "Freedom of Information Law, 5758-1998";
     abbreviation := str "FoIL";
     status := in_force;
     issuedDate := str "1998-05-19";
     inForceDate := str "1999-05-19";
     url := str "https://www.gov.il/en/departments/legalinfo/freedom_of_information_law" |};
   {| id := str "regulation-of-security-1998";
     lawName := str "Regulation of Security in Public Bodies Law";
     year := 1998;
     title := [1495; 1493; 1511]%N ++ str " " ++ [1492; 1505; 1491; 1512; 1514]%N ++ str " "
              ++ [1492; 1488; 1489; 1496; 1495; 1492]%N ++ str " " ++ [1489; 1490; 1493; 1508; 1497; 1501]%N
              ++ str " " ++ [1510; 1497; 1489; 1493; 1512; 1497; 1497; 1501]%N ++ str ", " ++ [1514; 1513; 1504]%N
              ++ q ++ [1495]%N ++ str "-1998";
     titleEn := str "Regulation of Security in Public Bodies Law, 5758-1998";
     abbreviation := str "RSPBL";
     status := in_force;
     issuedDate := str "1998-01-01";
     inForceDate := str "1998-01-01";
     url := str "https://www.nevo.co.il/law_html/law01/999_574.htm" |};
   {| id := str "communications-law-1982";
     lawName := str "Communications Law (Telecommunications and Broadcasting)";
     year := 1982;
     title := [1495; 1493; 1511]%N ++ str " " ++ [1492; 1514; 1511; 1513; 1493; 1512; 1514]%N ++ str " ("
              ++ [1489; 1494; 1511]%N ++ str " " ++ [1493; 1513; 1497; 1491; 1493; 1512; 1497; 1501]%N ++ str "), "
              ++ [1514; 1513; 1502]%N ++ q ++ [1489]%N ++ str "-1982";
     titleEn := str "Communications Law (Telecommunications and Broadcasting), 5742-1982";
     abbreviation := str "CommL";
     status := in_force;
     issuedDate := str "1982-01-01";
     inForceDate := str "1984-02-01";
     url := str "https://www.nevo.co.il/law_html/law01/044_001.htm" |}].

(** *** Metadata-only acts *)

(** An entry of the table [metadataActs] of createMetadataOnlyAct. *)
Record MetadataEntry : Type := {
  me_description : jstring;
  me_provisions : list ParsedProvision;
  me_definitions : list ParsedDefinition
}.

(** The object literals of the table: a provision without chapter, and a
    definition. *)
Definition provision (ref sec title text : jstring) : ParsedProvision :=
  {| provision_ref := ref; chapter := None; section := sec;
     p_title := title; content := text |}.

Definition defined (t d source : jstring) : ParsedDefinition :=
  {| term := t; definition := d; source_provision := Some source |}.

Definition metaDataSecurityRegulations2017 : MetadataEntry :=
  {| me_description :=
       str "The Protection of Privacy Regulations (Data Security) 2017 impose technical and organisational security requirements on database owners. They establish four security levels (basic, medium, high, critical) and mandate risk assessments, security policies, access controls, encryption, incident response procedures, and annual security audits. The regulations implement Section 17 of the Privacy Protection Law 1981.";
     me_provisions :=
       [provision (str "reg1") (str "1") (str "Definitions")
            (str "Regulation 1. Definitions. In these Regulations: " ++ q ++ str "database security level" ++ q
             ++ str " - the security classification of a database as basic, medium, high, or critical, determined by the type and volume of data and the number of persons authorized to access it; "
             ++ q ++ str "security incident" ++ q
             ++ str " - an event in which there is a reasonable concern that database information has been exposed, used, or changed without authorization, or that the integrity or availability of the database has been compromised; "
             ++ q ++ str "security officer" ++ q
             ++ str " - a person appointed under Section 17B of the Privacy Protection Law to be responsible for information security.");
        provision (str "reg2") (str "2") (str "Database Security Levels")
            (str "Regulation 2. Database Security Levels. (a) A database managed by a person who employs fewer than 10 employees, contains no sensitive information, and is not managed by a public body shall be classified as basic security level. (b) A database that does not meet the criteria for basic level and is not classified as high or critical level shall be classified as medium security level. (c) A database shall be classified as high security level if it contains sensitive information about more than 100,000 data subjects, or is managed by a public body that contains sensitive information. (d) A database shall be classified as critical security level if it contains information about more than 1,000,000 data subjects and if data leakage could endanger the physical safety or health of data subjects.");
        provision (str "reg3") (str "3") (str "Security Procedures Document")
            (str "Regulation 3. Security Procedures Document. (a) The database owner shall prepare a document defining the security procedures for the database (hereinafter: "
             ++ q ++ str "security procedures document" ++ q
             ++ str "). (b) The security procedures document shall include: (1) a description of the database, its purposes, and the types of information it contains; (2) a description of the physical and logical environment of the database; (3) a list of persons authorized to access the database, specifying the type and scope of authorization for each; (4) the risks to the database and the measures taken to address them; (5) the types of security incidents that may occur and the measures for handling them.");
        provision (str "reg4") (str "4") (str "Access Control")
            (str "Regulation 4. Access Control. (a) The database owner shall define for each authorized person the scope of their authorization and the type of actions they are permitted to perform. (b) Authorization to access the database shall be granted only to persons for whom such access is necessary for the performance of their duties. (c) The database owner shall employ means to prevent unauthorized access to the database.");
        provision (str "reg5") (str "5") (str "Physical Security")
            (str "Regulation 5. Physical Security. The database owner shall employ physical means to protect the database infrastructure and the information stored therein from unauthorized access, damage, or destruction.");
        provision (str "reg6") (str "6") (str "Communication Security")
            (str "Regulation 6. Communication Security. (a) The database owner shall employ means to protect information transmitted electronically from the database against unauthorized access. (b) A database at high or critical security level shall employ encryption for electronic transmission of information outside the organization.");
        provision (str "reg7") (str "7") (str "Monitoring and Logging")
            (str "Regulation 7. Monitoring and Logging. (a) The database owner shall maintain a log documenting access to the database, including the identity of the person accessing, the date and time of access, and the actions performed. (b) The log shall be maintained for a period of not less than 24 months for databases at medium security level, and not less than 5 years for databases at high or critical security level.");
        provision (str "reg8") (str "8") (str "Security Incidents")
            (str "Regulation 8. Security Incidents. (a) The database owner shall establish procedures for identifying and handling security incidents. (b) When a severe security incident occurs in a database at high or critical security level, the database owner shall report the incident to the Registrar immediately. (c) The database owner shall document each security incident, the measures taken to address it, and actions taken to prevent recurrence.");
        provision (str "reg9") (str "9") (str "Annual Security Audit")
            (str "Regulation 9. Annual Security Audit. (a) The database owner shall conduct a periodic examination of compliance with these Regulations and with the security procedures document. (b) For databases at high or critical security level, the examination shall be conducted at least once every 18 months by a qualified external auditor.");
        provision (str "reg10") (str "10") (str "Outsourced Processing")
            (str "Regulation 10. Outsourced Processing. (a) Where the database owner engages a third party to process information in the database, the database owner shall enter into a written agreement with that third party specifying: (1) the types of information to be processed; (2) the security measures to be employed; (3) the obligation to return or destroy the information upon termination of the engagement. (b) The database owner shall verify that the third party complies with the security requirements applicable to the database.");
        provision (str "reg11") (str "11") (str "Transition and Implementation")
            (str "Regulation 11. Transition and Implementation. (a) These Regulations shall come into force on 8 May 2018. (b) With respect to databases existing on the date these Regulations come into force, the database owner shall comply with these Regulations within 12 months of the date they come into force.")];
     me_definitions :=
       [defined (str "database security level")
            (str "The security classification of a database as basic, medium, high, or critical, determined by the type and volume of data and the number of persons authorized to access it")
            (str "reg1");
        defined (str "security incident")
            (str "An event in which there is a reasonable concern that database information has been exposed, used, or changed without authorization, or that the integrity or availability of the database has been compromised")
            (str "reg1");
        defined (str "security officer")
            (str "A person appointed under Section 17B of the Privacy Protection Law to be responsible for information security")
            (str "reg1")] |}.

Definition metaCompaniesLaw1999 : MetadataEntry :=
  {| me_description :=
       str "The Companies Law 5759-1999 is the primary legislation governing corporate entities in Israel. It covers incorporation, corporate governance, directors' duties, shareholders' rights, mergers, and dissolution. For cybersecurity compliance purposes, key sections address directors' duty of care regarding information systems (Sections 252-256), reporting obligations (Section 270A), and corporate liability for data breaches affecting shareholders.";
     me_provisions :=
       [provision (str "sec1") (str "1") (str "Definitions")
            (str "Section 1. Definitions. In this Law: " ++ q ++ str "company" ++ q
             ++ str " - a body corporate incorporated under this Law or under one of the ordinances listed in the First Schedule; "
             ++ q ++ str "limited company" ++ q
             ++ str " - a company in which the liability of its shareholders is limited to the unpaid amount, if any, of the shares held by them; "
             ++ q ++ str "public company" ++ q
             ++ str " - a company whose shares are listed for trade on a stock exchange or have been offered to the public under a prospectus as defined in the Securities Law.");
        provision (str "sec11") (str "11") (str "Legal Personality")
            (str "Section 11. Legal Personality. A company is a legal entity from the date of its incorporation and until its dissolution.");
        provision (str "sec252") (str "252") (str "Duty of Care")
            (str "Section 252. Duty of Care. (a) An office holder shall act with the level of care with which a reasonable office holder would act in the same position and under the same circumstances, including taking reasonable measures to obtain information relevant to the business of the company and other information available to the office holder given the circumstances.");
        provision (str "sec253") (str "253") (str "Business Judgment Rule")
            (str "Section 253. Business Judgment Rule. An office holder shall be deemed to have fulfilled his duty of care under Section 252, if he acted in good faith and in a manner in which a reasonable office holder would have acted under the same circumstances, provided the office holder had no personal interest in the decision, was informed of the relevant facts, and reasonably believed the decision to be in the best interests of the company.");
        provision (str "sec254") (str "254") (str "Duty of Loyalty")
            (str "Section 254. Duty of Loyalty. (a) An office holder owes a duty of loyalty to the company, shall act in good faith and for the benefit of the company, and shall, inter alia: (1) refrain from any act involving a conflict of interest between the performance of his duties in the company and the performance of his other duties or his personal affairs; (2) refrain from any activity that is competitive with the company's business; (3) refrain from exploiting any business opportunity of the company to gain a personal advantage for himself or for another; (4) disclose to the company any information and provide any document related to the company's affairs which the office holder received by virtue of his position as office holder.");
        provision (str "sec270A") (str "270A") (str "Reporting Requirements")
            (str "Section 270A. Reporting Requirements. A public company shall file periodic reports with the Securities Authority including financial statements, material events, and any information material to the value of its securities, including information regarding risks to the company's information systems and cyber threats.")];
     me_definitions :=
       [defined (str "company")
            (str "A body corporate incorporated under this Law or under one of the ordinances listed in the First Schedule")
            (str "sec1");
        defined (str "public company")
            (str "A company whose shares are listed for trade on a stock exchange or have been offered to the public under a prospectus as defined in the Securities Law")
            (str "sec1");
        defined (str "office holder")
            (str "A director, general manager, chief business manager, deputy general manager, vice general manager, or any person filling any of the above positions in the company, or any other manager directly subordinate to the general manager")
            (str "sec1")] |}.

Definition metaElectronicSignatureLaw2001 : MetadataEntry :=
  {| me_description :=
       str "The Electronic Signature Law 5761-2001 provides the legal framework for electronic signatures and electronic documents in Israel. It recognizes three types of electronic signatures with varying levels of legal effect and establishes a certification authority regime.";
     me_provisions :=
       [provision (str "sec1") (str "1") (str "Definitions")
            (str "Section 1. Definitions. In this Law: " ++ q ++ str "electronic signature" ++ q
             ++ str " - an electronic creation designed to serve as a signature and attached to or associated with an electronic message; "
             ++ q ++ str "secure electronic signature" ++ q
             ++ str " - an electronic signature that satisfies all of the following: (1) it is unique to its signatory; (2) it is capable of identifying the signatory; (3) it was created using means that the signatory can maintain under his sole control; (4) it is linked to the data to which it relates in such a manner that any subsequent change in the data is detectable; "
             ++ q ++ str "certified electronic signature" ++ q
             ++ str " - a secure electronic signature that is backed by a valid certificate from a licensed certification authority.");
        provision (str "sec2") (str "2") (str "Legal Validity of Electronic Signature")
            (str "Section 2. Legal Validity of Electronic Signature. (a) A certified electronic signature shall be deemed to have the same legal validity as a handwritten signature. (b) An electronic message to which a certified electronic signature is attached shall be deemed to be a signed document for all purposes under any law. (c) A secure electronic signature that is not certified shall be admissible as evidence of the identity of the signatory and of the signatory's intent to identify with the content of the electronic message.");
        provision (str "sec3") (str "3") (str "Presumptions")
            (str "Section 3. Presumptions. Where a certified electronic signature is attached to an electronic message: (1) the signature shall be presumed to be that of the person named in the certificate as the signatory, unless the contrary is proved; (2) it shall be presumed that the signatory intended to identify with the content of the electronic message, unless the contrary is proved.");
        provision (str "sec4") (str "4") (str "Certification Authority")
            (str "Section 4. Certification Authority. (a) No person shall operate as a certification authority for purposes of issuing certificates for certified electronic signatures unless he is licensed under this Law. (b) The Registrar of Certification Authorities shall be appointed by the Minister of Justice.");
        provision (str "sec5") (str "5") (str "Conditions for License")
            (str "Section 5. Conditions for License. A license to operate as a certification authority shall be granted to an applicant who satisfies the following conditions: (1) he is a corporation registered in Israel; (2) he has adequate technical means and professional staff; (3) he maintains appropriate security measures; (4) he has adequate financial resources; (5) he carries professional liability insurance.");
        provision (str "sec14") (str "14") (str "Government Use")
            (str "Section 14. Government Use. The Minister of Justice may, by regulations, determine that a government agency shall accept electronic messages bearing a certified electronic signature in lieu of documents bearing a handwritten signature.")];
     me_definitions :=
       [defined (str "electronic signature")
            (str "An electronic creation designed to serve as a signature and attached to or associated with an electronic message")
            (str "sec1");
        defined (str "secure electronic signature")
            (str "An electronic signature that is unique to its signatory, capable of identifying the signatory, created using means under the signatory's sole control, and linked to the data such that changes are detectable")
            (str "sec1");
        defined (str "certified electronic signature")
            (str "A secure electronic signature backed by a valid certificate from a licensed certification authority")
            (str "sec1")] |}.

Definition metaCreditDataLaw2002 : MetadataEntry :=
  {| me_description :=
       str "The Credit Data Law 5762-2002 regulates the collection, processing, and dissemination of credit data in Israel. It establishes the Credit Data System, regulates credit bureaus, and provides individual rights regarding credit reports.";
     me_provisions :=
       [provision (str "sec1") (str "1") (str "Purpose")
            (str "Section 1. Purpose. The purpose of this Law is to promote fair and efficient provision of credit while protecting the privacy of individuals in respect of information about their credit.");
        provision (str "sec2") (str "2") (str "Definitions")
            (str "Section 2. Definitions. In this Law: " ++ q ++ str "credit data" ++ q
             ++ str " - data on the financial conduct of a person, including data about credit or financial obligations, debts, payment history, legal proceedings in connection with debts, bankruptcies, and restrictions on bank accounts; "
             ++ q ++ str "credit bureau" ++ q
             ++ str " - a body that collects, processes, and provides credit data; " ++ q ++ str "credit report"
             ++ q ++ str " - a report prepared by a credit bureau on the basis of credit data.");
        provision (str "sec3") (str "3") (str "Credit Data System")
            (str "Section 3. Credit Data System. (a) The Bank of Israel shall operate a credit data system for the purpose of collecting and providing credit data. (b) The credit data system shall contain data provided by credit providers, enforcement authorities, and other sources as prescribed by law.");
        provision (str "sec7") (str "7") (str "Right of Access")
            (str "Section 7. Right of Access. (a) Every person has the right to access the credit data held about him by a credit bureau. (b) A credit bureau shall provide a person with a copy of his credit report within 14 days of the request. (c) One credit report per year shall be provided free of charge.");
        provision (str "sec8") (str "8") (str "Right of Correction")
            (str "Section 8. Right of Correction. (a) A person who finds that credit data held about him is inaccurate, incomplete, or misleading may request the credit bureau to correct the data. (b) The credit bureau shall investigate the request and, if the data is found to be inaccurate, correct it within 30 days.");
        provision (str "sec15") (str "15") (str "Data Retention")
            (str "Section 15. Data Retention. (a) Credit data shall not be retained for more than 7 years from the date of the relevant event. (b) Data regarding debts that have been fully repaid shall not be retained for more than 3 years from the date of full repayment.")];
     me_definitions :=
       [defined (str "credit data")
            (str "Data on the financial conduct of a person, including data about credit, financial obligations, debts, payment history, legal proceedings in connection with debts, bankruptcies, and restrictions on bank accounts")
            (str "sec2");
        defined (str "credit bureau")
            (str "A body that collects, processes, and provides credit data")
            (str "sec2");
        defined (str "credit report")
            (str "A report prepared by a credit bureau on the basis of credit data")
            (str "sec2")] |}.

Definition metaFreedomOfInformationLaw1998 : MetadataEntry :=
  {| me_description :=
       str "The Freedom of Information Law 5758-1998 establishes the right of every citizen or resident to receive information from public authorities. It sets out the procedures for requesting information and the grounds for refusal.";
     me_provisions :=
       [provision (str "sec1") (str "1") (str "Right to Information")
            (str "Section 1. Right to Information. Every Israeli citizen or resident has the right to receive information from a public authority, in accordance with the provisions of this Law.");
        provision (str "sec2") (str "2") (str "Definitions")
            (str "Section 2. Definitions. In this Law: " ++ q ++ str "public authority" ++ q
             ++ str " - a Government Ministry, the Knesset, the judiciary, local authorities, statutory corporations, government companies, and other bodies exercising public functions as designated by the Minister of Justice; "
             ++ q ++ str "information" ++ q
             ++ str " - any information held by a public authority, whether in writing, recorded, photographed, filmed, or by electronic or optical means.");
        provision (str "sec7") (str "7") (str "Request for Information")
            (str "Section 7. Request for Information. (a) A request for information shall be submitted in writing to the public authority that holds the information. (b) The request shall specify the information sought. (c) The applicant need not state the reason for the request.");
        provision (str "sec8") (str "8") (str "Duty to Respond")
            (str "Section 8. Duty to Respond. (a) A public authority shall respond to a request for information within 30 days. (b) The response may be an affirmative or a negative response, or a partial response. (c) If the public authority does not respond within the prescribed period, the request shall be deemed to have been refused.");
        provision (str "sec9") (str "9") (str "Grounds for Refusal")
            (str "Section 9. Grounds for Refusal. (a) A public authority may refuse a request for information if the information: (1) may harm state security, foreign relations, or public safety; (2) may harm the privacy of a person; (3) is classified as confidential under any law; (4) relates to internal deliberations of the public authority; (5) may prejudice ongoing investigations or legal proceedings; (6) constitutes a trade secret or commercial information whose disclosure may cause economic harm.");
        provision (str "sec17") (str "17") (str "Appeal")
            (str "Section 17. Appeal. (a) A person whose request for information was refused, or who received a partial response, may appeal to the administrative court within 45 days of the date of the decision.")];
     me_definitions :=
       [defined (str "public authority")
            (str "A Government Ministry, the Knesset, the judiciary, local authorities, statutory corporations, government companies, and other bodies exercising public functions")
            (str "sec2");
        defined (str "information")
            (str "Any information held by a public authority, whether in writing, recorded, photographed, filmed, or by electronic or optical means")
            (str "sec2")] |}.

Definition metaRegulationOfSecurity1998 : MetadataEntry :=
  {| me_description :=
       str "The Regulation of Security in Public Bodies Law 5758-1998 establishes security requirements for critical infrastructure and public bodies in Israel. It mandates the appointment of security officers and implementation of security measures for designated organizations.";
     me_provisions :=
       [provision (str "sec1") (str "1") (str "Definitions")
            (str "Section 1. Definitions. In this Law: " ++ q ++ str "body subject to security" ++ q
             ++ str " - a body designated by the Minister of Public Security as requiring security regulation due to the nature of its activities or the risk of terrorism; "
             ++ q ++ str "security officer" ++ q
             ++ str " - a person appointed by a body subject to security to be responsible for security matters; "
             ++ q ++ str "security plan" ++ q
             ++ str " - a comprehensive plan for the protection of a body subject to security, its personnel, visitors, and assets.");
        provision (str "sec2") (str "2") (str "Designation of Bodies")
            (str "Section 2. Designation of Bodies. (a) The Minister of Public Security may, by order, designate a body as a body subject to security if: (1) the body provides essential public services; (2) the body handles hazardous materials; (3) the body is a venue of public assembly; (4) the nature of the body's activities or its location creates a heightened risk requiring security regulation.");
        provision (str "sec3") (str "3") (str "Security Officer")
            (str "Section 3. Security Officer. (a) A body subject to security shall appoint a security officer. (b) The security officer shall be responsible for: (1) preparing and implementing a security plan; (2) supervising security measures; (3) training personnel on security procedures; (4) reporting security incidents to the relevant authorities.");
        provision (str "sec5") (str "5") (str "Security Plan")
            (str "Section 5. Security Plan. (a) The security officer shall prepare a security plan for the body. (b) The security plan shall address: (1) risk assessment; (2) physical security measures; (3) access control; (4) emergency procedures; (5) coordination with security forces.");
        provision (str "sec8") (str "8") (str "Supervision")
            (str "Section 8. Supervision. The Israel Police shall supervise compliance with this Law and may inspect bodies subject to security to verify that security measures are implemented in accordance with the security plan.")];
     me_definitions :=
       [defined (str "body subject to security")
            (str "A body designated by the Minister of Public Security as requiring security regulation due to the nature of its activities or the risk of terrorism")
            (str "sec1");
        defined (str "security officer")
            (str "A person appointed by a body subject to security to be responsible for security matters")
            (str "sec1");
        defined (str "security plan")
            (str "A comprehensive plan for the protection of a body subject to security, its personnel, visitors, and assets")
            (str "sec1")] |}.

Definition metaCommunicationsLaw1982 : MetadataEntry :=
  {| me_description :=
       str "The Communications Law (Telecommunications and Broadcasting) 5742-1982 regulates telecommunications and broadcasting in Israel. It establishes licensing requirements, regulates network operators, and includes provisions relevant to privacy of communications and data security of telecommunications infrastructure.";
     me_provisions :=
       [provision (str "sec1") (str "1") (str "Definitions")
            (str "Section 1. Definitions. In this Law: " ++ q ++ str "telecommunications" ++ q
             ++ str " - the transmission, emission, or reception of signs, signals, writing, images, sounds, or intelligence of any nature by wire, radio, optical, or other electromagnetic systems; "
             ++ q ++ str "telecommunications service" ++ q
             ++ str " - any service involving the provision of telecommunications; " ++ q ++ str "licensee" ++ q
             ++ str " - the holder of a license under this Law.");
        provision (str "sec4") (str "4") (str "Licensing Requirement")
            (str "Section 4. Licensing Requirement. (a) No person shall provide a telecommunications service except under a license issued by the Minister of Communications. (b) The Minister may issue general licenses, special licenses, or individual licenses, and may prescribe conditions for each type of license.");
        provision (str "sec13") (str "13") (str "Secrecy of Communications")
            (str "Section 13. Secrecy of Communications. (a) A licensee and any person employed by a licensee shall maintain the secrecy of communications transmitted through the licensee's network. (b) No person shall intercept, record, or disclose the contents of communications transmitted through a telecommunications network without the consent of the parties to the communication or authorization under law.");
        provision (str "sec13A") (str "13A") (str "Data Protection Obligations")
            (str "Section 13A. Data Protection Obligations. (a) A licensee shall take appropriate measures to protect subscriber data and communications data from unauthorized access, use, or disclosure. (b) Subscriber data shall not be used for purposes other than the provision of telecommunications services, except with the subscriber's consent or as required by law.");
        provision (str "sec30") (str "30") (str "Security Requirements")
            (str "Section 30. Security Requirements. (a) A licensee operating critical telecommunications infrastructure shall implement security measures as prescribed by the Minister of Communications. (b) The security measures shall address: (1) physical protection of infrastructure; (2) cybersecurity measures; (3) business continuity and disaster recovery; (4) incident reporting.");
        provision (str "sec58") (str "58") (str "Electronic Direct Marketing")
            (str "Section 58. Electronic Direct Marketing. (a) No person shall send an electronic commercial message by means of facsimile, automatic dialing system, electronic mail, or short message service (SMS), unless the recipient has given his prior express consent. (b) Exception: a person may send electronic commercial messages to a person who provided his contact details in the context of a prior commercial transaction, provided that the message relates to similar products or services, and the recipient was given a reasonable opportunity to refuse to receive such messages.")];
     me_definitions :=
       [defined (str "telecommunications")
            (str "The transmission, emission, or reception of signs, signals, writing, images, sounds, or intelligence of any nature by wire, radio, optical, or other electromagnetic systems")
            (str "sec1");
        defined (str "telecommunications service")
            (str "Any service involving the provision of telecommunications")
            (str "sec1");
        defined (str "licensee")
            (str "The holder of a license under this Law")
            (str "sec1")] |}.

(** The table [metadataActs]: its own properties, in the order of the
    source. *)
Definition metadataActs : list (jstring * MetadataEntry) :=
  [(str "data-security-regulations-2017", metaDataSecurityRegulations2017);
   (str "companies-law-1999", metaCompaniesLaw1999);
   (str "electronic-signature-law-2001", metaElectronicSignatureLaw2001);
   (str "credit-data-law-2002", metaCreditDataLaw2002);
   (str "freedom-of-information-law-1998", metaFreedomOfInformationLaw1998);
   (str "regulation-of-security-1998", metaRegulationOfSecurity1998);
   (str "communications-law-1982", metaCommunicationsLaw1982)].

(** The members every object literal inherits from Object.prototype. *)
Definition objectPrototypeMembers : list jstring :=
  [str "constructor"; str "hasOwnProperty"; str "isPrototypeOf";
   str "propertyIsEnumerable"; str "toLocaleString"; str "toString";
   str "valueOf"; str "__proto__"; str "__defineGetter__";
   str "__defineSetter__"; str "__lookupGetter__"; str "__lookupSetter__"].

(** [metadataActs[key]]: an own property of the table; else a member
    inherited from Object.prototype, an object without [description],
    [provisions] or [definitions]; else [undefined]. *)
Inductive Member : Type :=
| Own (meta : MetadataEntry)
| Inherited
| Undefined.

Fixpoint ownProperty (key : jstring) (table : list (jstring * MetadataEntry))
  : option MetadataEntry :=
  match table with
  | [] => None
  | (k, v) :: tl => if JS.eqb key k then Some v else ownProperty key tl
  end.

Definition member (key : jstring) : Member :=
  match ownProperty key metadataActs with
  | Some meta => Own meta
  | None =>
      if existsb (JS.eqb key) objectPrototypeMembers then Inherited
      else Undefined
  end.

(** The object createMetadataOnlyAct returns.  Its declared type is
    ParsedAct; the three fields read from [meta] are [undefined] when
    [meta] is an inherited member. *)
Record MetadataOnlyAct : Type := {
  mo_id : jstring;
  mo_type : jstring;
  mo_title : jstring;
  mo_title_en : jstring;
  mo_short_name : jstring;
  mo_status : Status;
  mo_issued_date : jstring;
  mo_in_force_date : jstring;
  mo_url : jstring;
  mo_description : option jstring;
  mo_provisions : option (list ParsedProvision);
  mo_definitions : option (list ParsedDefinition)
}.

Definition metadataOnlyNote : jstring :=
  str " - metadata-only record. Full English text not available from accessible sources.".

Definition createMetadataOnlyAct (act : ActIndexEntry) : MetadataOnlyAct :=
  let record description provisions definitions :=
    {| mo_id := id act;
       mo_type := str "statute";
       mo_title := title act;
       mo_title_en := titleEn act;
       mo_short_name := abbreviation act;
       mo_status := status act;
       mo_issued_date := issuedDate act;
       mo_in_force_date := inForceDate act;
       mo_url := url act;
       mo_description := description;
       mo_provisions := provisions;
       mo_definitions := definitions |} in
  match member (id act) with
  | Undefined =>
      record (Some (titleEn act ++ metadataOnlyNote)) (Some []) (Some [])
  | Own meta =>
      record (Some (me_description meta)) (Some (me_provisions meta))
             (Some (me_definitions meta))
  | Inherited => record None None None
  end.

(** The record as a ParsedAct, when its sequences are defined. *)
Definition asParsedAct (r : MetadataOnlyAct) : option ParsedAct :=
  match mo_provisions r, mo_definitions r with
  | Some ps, Some ds =>
      Some {| pa_id := mo_id r;
              pa_type := mo_type r;
              pa_title := mo_title r;
              title_en := mo_title_en r;
              short_name := mo_short_name r;
              pa_status := mo_status r;
              issued_date := mo_issued_date r;
              in_force_date := mo_in_force_date r;
              pa_url := mo_url r;
              description := mo_description r;
              provisions := ps;
              definitions := ds |}
  | _, _ => None
  end.

(** *** The command line *)

(** The Number [parseInt(s, 10)] returns.  ECMAScript returns the double
    nearest to the integer the leading digits denote, and past the 20th
    significant digit lets an implementation approximate that integer; an
    integer below 2^53 in magnitude is a double itself, and no numeral of
    such an integer has more than 16 significant digits.  So the value is
    kept exactly below 2^53, and from there on by its sign alone:
    - [NaN];
    - [Zero negative]: the zero of that sign;
    - [Int z], for 0 < |z| < 2^53: the Number of the integer [z];
    - [Huge negative]: a Number of that sign and of magnitude at least
      2^53, or the infinity of that sign. *)
Inductive Parsed : Type :=
| NaN
| Zero (negative : bool)
| Int (z : Z)
| Huge (negative : bool).

Definition twoTo53 : Z := 9007199254740992.

(** The Number of [sign * mathInt], for an integer [mathInt >= 0]. *)
Definition toNumber (negative : bool) (mathInt : Z) : Parsed :=
  if (mathInt =? 0)%Z then Zero negative
  else if (mathInt <? twoTo53)%Z then Int (if negative then - mathInt else mathInt)
  else Huge negative.

Definition digitValue (c : cu) : Z := Z.of_N (c - 48).

Fixpoint digitsValue (acc : Z) (s : jstring) : Z :=
  match s with
  | c :: t => if isDigit c then digitsValue (10 * acc + digitValue c) t else acc
  | [] => acc
  end.

Definition parseInt10 (s : jstring) : Parsed :=
  let S := trimStart s in
  let (negative, S) :=
    match S with
    | c :: t => if cu_eqb c 45%N then (true, t)          (* - *)
                else if cu_eqb c 43%N then (false, t)    (* + *)
                else (false, S)
    | [] => (false, S)
    end in
  match S with
  | c :: _ => if isDigit c then toNumber negative (digitsValue 0 S) else NaN
  | [] => NaN
  end.

(** [limit: number | null] *)
Definition Limit : Type := option Parsed.

(** The loop of parseArgs over [args], from the index of the head of
    [args] on. *)
Fixpoint parseArgsLoop (args : list jstring) (limit : Limit) (skipFetch : bool)
  : Limit * bool :=
  match args with
  | [] => (limit, skipFetch)
  | a :: rest =>
      if JS.eqb a (str "--limit") then
        match rest with
        | (_ :: _) as v :: rest' =>
            (* args[i + 1] is a non-empty string: it is the value *)
            parseArgsLoop rest' (Some (parseInt10 v)) skipFetch
        | _ => parseArgsLoop rest limit skipFetch
        end
      else if JS.eqb a (str "--skip-fetch") then parseArgsLoop rest limit true
      else parseArgsLoop rest limit skipFetch
  end.

(** [process.argv.slice(2)], then the loop. *)
Definition parseArgs (argv : list jstring) : Limit * bool :=
  parseArgsLoop (skipn 2 argv) None false.

(** [a.slice(0, end)] for an integer [end]. *)
Definition sliceTo {A : Type} (z : Z) (a : list A) : list A :=
  let len := Z.of_nat (length a) in
  let final := if (z <? 0)%Z then Z.max (len + z) 0 else Z.min z len in
  firstn (Z.to_nat final) a.

(** [a.slice(0, end)] for an [end] of magnitude at least 2^53 or
    infinite: an array has fewer elements, so that the bound is clamped to
    its length, or to 0 when [end] is negative. *)
Definition sliceHuge {A : Type} (negative : bool) (a : list A) : list A :=
  if negative then [] else a.

(** [limit ? KEY_ISRAELI_ACTS.slice(0, limit) : KEY_ISRAELI_ACTS] in
    main: null, NaN and the zeros are falsy. *)
Definition actsToProcess (limit : Limit) : list ActIndexEntry :=
  match limit with
  | Some (Int z) => if (z =? 0)%Z then KEY_ISRAELI_ACTS else sliceTo z KEY_ISRAELI_ACTS
  | Some (Huge negative) => sliceHuge negative KEY_ISRAELI_ACTS
  | Some NaN | Some (Zero _) | None => KEY_ISRAELI_ACTS
  end.

(** The decimal numeral of a natural number, as a shell passes it. *)
Definition decimal (n : nat) : jstring :=
  str (DecimalString.NilEmpty.string_of_uint (Nat.to_uint n)).

(** The command line [node ingest.ts args...]. *)
Definition commandLine (args : list jstring) : list jstring :=
  str "node" :: str "ingest.ts" :: args.

End Ingest.

Import Ingest.

(* ===================================================================== *)
(** ** Checks of the tables by evaluation *)
(* ===================================================================== *)

Module Checks.

(** Boolean versions of the invariants, to check the tables of the
    source by evaluation. *)
Fixpoint takeDigits (s : jstring) : jstring :=
  match s with
  | c :: t => if isDigit c then c :: takeDigits t else []
  | [] => []
  end.

Definition isLabelb (s : jstring) : bool :=
  let D := takeDigits s in
  match D, skipn (length D) s with
  | [], _ => false
  | _, [] => true
  | _, [l] => isLetter l
  | _, _ => false
  end.

Definition normalizedb (s : jstring) : bool := JS.eqb (normalizeText s) s.

Fixpoint distinctb (l : list jstring) : bool :=
  match l with
  | [] => true
  | x :: tl => negb (existsb (JS.eqb x) tl) && distinctb tl
  end.

Definition checkProvision (p : ParsedProvision) : bool :=
  (JS.eqb (provision_ref p) (str "sec" ++ section p)
   || JS.eqb (provision_ref p) (str "reg" ++ section p))
  && isLabelb (section p)
  && normalizedb (p_title p)
  && match chapter p with None => true | Some _ => false end
  && normalizedb (content p)
  && (10 <? length (content p)) && (length (content p) <=? maxContentLength).

Definition checkDefinition (ps : list ParsedProvision) (d : ParsedDefinition)
  : bool :=
  (1 <? length (term d)) && (length (term d) <? 80)
  && (5 <? length (definition d))
  && normalizedb (term d) && normalizedb (definition d)
  && forallb (fun c => negb (cu_eqb c dquote)) (term d)
  && forallb (fun c => negb (cu_eqb c semicolon)) (definition d)
  && match source_provision d with
     | Some sp => existsb (fun p => JS.eqb (provision_ref p) sp) ps
     | None => false
     end.

Definition checkRecord (ps : list ParsedProvision) (ds : list ParsedDefinition)
  : bool :=
  forallb checkProvision ps
  && distinctb (map provision_ref ps)
  && forallb (checkDefinition ps) ds
  && distinctb (map term ds).

(** The invariants themselves. *)
Definition metadataProvision (p : ParsedProvision) : Prop :=
  (provision_ref p = str "sec" ++ section p
   \/ provision_ref p = str "reg" ++ section p)
  /\ isLabel (section p)
  /\ normalized (p_title p)
  /\ chapter p = None
  /\ normalized (content p)
  /\ 10 < length (content p) <= maxContentLength.

Definition metadataDefinition (ps : list ParsedProvision) (d : ParsedDefinition)
  : Prop :=
  wellFormedDefinition d
  /\ exists p, In p ps /\ source_provision d = Some (provision_ref p).

Definition metadataRecord (ps : list ParsedProvision) (ds : list ParsedDefinition)
  : Prop :=
  Forall metadataProvision ps
  /\ NoDup (map provision_ref ps)
  /\ Forall (metadataDefinition ps) ds
  /\ NoDup (map term ds).

(** The acts of the index that the pipeline parses from a source. *)
Definition parsedFromSource : list jstring :=
  [str "privacy-protection-law-1981"; str "computer-law-1995";
   str "basic-law-human-dignity-1992"].

(** Does createMetadataOnlyAct return a full record for the act, without
    provisions exactly when the act is parsed from a source? *)
Definition coveredb (act : ActIndexEntry) : bool :=
  match asParsedAct (createMetadataOnlyAct act) with
  | Some pa =>
      Bool.eqb (match provisions pa with [] => true | _ => false end)
               (existsb (JS.eqb (id act)) parsedFromSource)
  | None => false
  end.

End Checks.

Import Checks.

(* ===================================================================== *)
(** ** Facts about strings *)
(* ===================================================================== *)

Module JSFacts.

Lemma cu_eqb_eq (a b : cu) : cu_eqb a b = true <-> a = b.
Proof. unfold cu_eqb. apply N.eqb_eq. Qed.

Lemma eqb_eq (a b : jstring) : JS.eqb a b = true <-> a = b.
Proof.
  revert b. induction a as [|x a IH]; intros [|y b]; simpl; split; intro H;
    try reflexivity; try discriminate.
  - apply andb_true_iff in H as [H1 H2].
    apply cu_eqb_eq in H1. apply IH in H2. congruence.
  - inversion H; subst. apply andb_true_iff. split.
    + now apply cu_eqb_eq.
    + now apply IH.
Qed.

Lemma eqb_refl (a : jstring) : JS.eqb a a = true.
Proof. now apply eqb_eq. Qed.

Lemma startsWith_app (p t : jstring) : startsWith p (p ++ t) = true.
Proof.
  induction p as [|x p IH]; simpl; [reflexivity|].
  rewrite IH, andb_true_r. now apply cu_eqb_eq.
Qed.

Lemma startsWith_inv (p s : jstring) :
  startsWith p s = true -> exists t, s = p ++ t.
Proof.
  revert s. induction p as [|x p IH]; intros s H; simpl in *.
  - now exists s.
  - destruct s as [|y s]; [discriminate|].
    apply andb_true_iff in H as [H1 H2].
    apply cu_eqb_eq in H1. subst y.
    destruct (IH _ H2) as [t ->]. now exists t.
Qed.

Lemma substring_0 (n : nat) (s : jstring) : substring 0 n s = firstn n s.
Proof.
  unfold substring. simpl.
  rewrite Nat.sub_0_r.
  destruct (Nat.le_ge_cases n (length s)) as [H|H].
  - now rewrite Nat.min_l by exact H.
  - rewrite Nat.min_r by exact H.
    rewrite firstn_all. symmetry. now apply firstn_all2.
Qed.

Lemma substringFrom_skipn (i : nat) (s : jstring) :
  i <= length s -> substringFrom i s = skipn i s.
Proof.
  intro H. unfold substringFrom, substring.
  rewrite Nat.min_id, (Nat.min_l i) by exact H.
  rewrite Nat.min_l, Nat.max_r by exact H.
  apply firstn_all2. rewrite length_skipn. lia.
Qed.

(** [indexOf] finds the first occurrence. *)
Lemma indexOfFrom_found (needle : jstring) :
  forall pre rest k,
    exists pre' rest',
      pre ++ needle ++ rest = pre' ++ needle ++ rest'
      /\ length pre' <= length pre
      /\ indexOfFrom needle (pre ++ needle ++ rest) k = Z.of_nat (k + length pre').
Proof.
  induction pre as [|c pre IH]; intros rest k.
  - exists [], rest. simpl. repeat split; [lia|].
    destruct (needle ++ rest) eqn:E; simpl.
    + pose proof (startsWith_app needle rest) as H. rewrite E in H.
      rewrite H. f_equal. lia.
    + pose proof (startsWith_app needle rest) as H. rewrite E in H.
      rewrite H. f_equal. lia.
  - destruct (startsWith needle ((c :: pre) ++ needle ++ rest)) eqn:E.
    + destruct (startsWith_inv _ _ E) as [t Ht].
      exists [], t. repeat split.
      * exact Ht.
      * simpl. lia.
      * simpl. simpl in E. rewrite E. f_equal. lia.
    + destruct (IH rest (S k)) as (pre' & rest' & H1 & H2 & H3).
      exists (c :: pre'), rest'. repeat split.
      * simpl. now rewrite H1.
      * simpl. lia.
      * simpl. simpl in E. rewrite E. rewrite H3. f_equal. simpl. lia.
Qed.

Lemma indexOfFrom_absent (needle : jstring) :
  forall s k,
    (forall pre rest, s <> pre ++ needle ++ rest) ->
    indexOfFrom needle s k = (-1)%Z.
Proof.
  induction s as [|c s IH]; intros k H; simpl.
  - destruct (startsWith needle []) eqn:E; [|reflexivity].
    apply startsWith_inv in E as [t Ht]. exfalso. now apply (H [] t).
  - destruct (startsWith needle (c :: s)) eqn:E.
    + apply startsWith_inv in E as [t Ht]. exfalso. now apply (H [] t).
    + apply IH. intros pre rest Hs. apply (H (c :: pre) rest).
      simpl. now rewrite Hs.
Qed.

Lemma indexOf_prefix (needle t : jstring) : indexOf needle (needle ++ t) = 0%Z.
Proof.
  unfold indexOf. destruct (needle ++ t) eqn:E; simpl.
  - pose proof (startsWith_app needle t) as H. rewrite E in H. now rewrite H.
  - pose proof (startsWith_app needle t) as H. rewrite E in H. now rewrite H.
Qed.

End JSFacts.

(* ===================================================================== *)
(** ** Soundness of the matcher *)
(* ===================================================================== *)

Module RegexFacts.

Section Sound.

Variable ic : bool.
Variable P : nat -> cu -> bool.

Lemma stepped_refl (r : re) pos rest cp :
  nullable r = true -> (forall i, defines r i = false) ->
  stepped ic P r pos rest cp pos rest cp.
Proof.
  intros Hn Hd. exists []. simpl. repeat split; auto.
  - intro H. congruence.
  - intros c t H. discriminate.
  - intros i H. rewrite Hd in H. discriminate.
Qed.

(** The greedy or lazy star of a class consumes code units of the
    class and then runs the continuation. *)
Lemma star_sound (g : bool) (c : cset) (k : kont) (cp : caps) (res : mstate) :
  forall rest pos,
    rmatch ic (Star g c) k pos rest cp = Some res ->
    exists w rest',
      rest = w ++ rest'
      /\ Forall (fun x => cmatch ic c x = true) w
      /\ k (pos + length w) rest' cp = Some res.
Proof.
  induction rest as [|x xs IH]; intros pos H.
  - exists [], []. simpl in *. rewrite Nat.add_0_r. auto.
  - simpl in H. destruct (cmatch ic c x) eqn:Ex.
    + assert (Hext : rmatch ic (Star g c) k (S pos) xs cp = Some res ->
                     exists w rest',
                       x :: xs = w ++ rest'
                       /\ Forall (fun y => cmatch ic c y = true) w
                       /\ k (pos + length w) rest' cp = Some res).
      { intro H'. destruct (IH _ H') as (w & rest' & E & Hw & Hk).
        exists (x :: w), rest'. subst xs. simpl. repeat split; auto.
        now rewrite Nat.add_succ_r. }
      assert (Hstop : k pos (x :: xs) cp = Some res ->
                      exists w rest',
                        x :: xs = w ++ rest'
                        /\ Forall (fun y => cmatch ic c y = true) w
                        /\ k (pos + length w) rest' cp = Some res).
      { intro H'. exists [], (x :: xs). simpl. rewrite Nat.add_0_r. auto. }
      destruct g.
      * match type of H with
        | match ?e with _ => _ end = _ => destruct e eqn:E
        end.
        -- apply Hext. simpl. rewrite E. exact H.
        -- now apply Hstop.
      * destruct (k pos (x :: xs) cp) eqn:E.
        -- apply Hstop. congruence.
        -- apply Hext. exact H.
    + exists [], (x :: xs). simpl. rewrite Nat.add_0_r. auto.
Qed.

Ltac conj7 := split; [|split; [|split; [|split; [|split; [|split]]]]].

Lemma rmatch_sound (r : re) :
  forall (k : kont) pos rest cp res,
    rmatch ic r k pos rest cp = Some res ->
    exists pos' rest' cp',
      stepped ic P r pos rest cp pos' rest' cp'
      /\ k pos' rest' cp' = Some res.
Proof.
  induction r as [ | c | a IHa b IHb | a IHa b IHb | g c | i a IHa | | | a IHa];
    intros k pos rest cp res H.
  - (* Eps *)
    exists pos, rest, cp. split; [now apply stepped_refl|exact H].
  - (* Chr *)
    simpl in H. destruct rest as [|x xs]; [discriminate|].
    destruct (cmatch ic c x) eqn:Ex; [|discriminate].
    exists (S pos), xs, cp. split; [|exact H].
    exists [x]. conj7; simpl.
    + reflexivity.
    + lia.
    + intros _ E. discriminate.
    + intros c0 t E. inversion E; subst. exact Ex.
    + intros j E. discriminate.
    + auto.
    + auto.
  - (* Seq *)
    simpl in H.
    apply IHa in H as (p1 & r1 & c1 & (w1 & E1 & Ep1 & N1 & F1 & D1 & K1 & G1) & H).
    apply IHb in H as (p2 & r2 & c2 & (w2 & E2 & Ep2 & N2 & F2 & D2 & K2 & G2) & H).
    exists p2, r2, c2. split; [|exact H].
    exists (w1 ++ w2). conj7.
    + subst. now rewrite <- app_assoc.
    + subst. rewrite length_app. lia.
    + simpl. intros Hn E. apply app_eq_nil in E as [-> ->].
      apply andb_false_iff in Hn as [Hn|Hn]; [now apply N1|now apply N2].
    + intros c0 t E. simpl. destruct w1 as [|y w1].
      * simpl in E. apply F2 in E. rewrite E.
        destruct (nullable a); [apply orb_true_r|].
        exfalso. now apply N1.
      * simpl in E. inversion E; subst.
        rewrite (F1 _ _ eq_refl). reflexivity.
    + simpl. intros j E. apply orb_true_iff in E as [E|E].
      * apply K2. now apply D1.
      * now apply D2.
    + intros j E. apply K2. now apply K1.
    + simpl. intros [Ga Gb] Hc. apply G2; auto.
  - (* Alt *)
    simpl in H. destruct (rmatch ic a k pos rest cp) eqn:Ea.
    + rewrite H in Ea.
      apply IHa in Ea as (p1 & r1 & c1 & (w1 & E1 & Ep1 & N1 & F1 & D1 & K1 & G1) & Hk).
      exists p1, r1, c1. split; [|exact Hk].
      exists w1. conj7; auto.
      * simpl. intros Hn. apply orb_false_iff in Hn as [Hn _]. auto.
      * intros c0 t E. simpl. rewrite (F1 _ _ E). reflexivity.
      * simpl. intros j E. apply andb_true_iff in E as [E _]. auto.
      * simpl. intros [Ga _]. auto.
    + apply IHb in H as (p1 & r1 & c1 & (w1 & E1 & Ep1 & N1 & F1 & D1 & K1 & G1) & Hk).
      exists p1, r1, c1. split; [|exact Hk].
      exists w1. conj7; auto.
      * simpl. intros Hn. apply orb_false_iff in Hn as [_ Hn]. auto.
      * intros c0 t E. simpl. rewrite (F1 _ _ E). apply orb_true_r.
      * simpl. intros j E. apply andb_true_iff in E as [_ E]. auto.
      * simpl. intros [_ Gb]. auto.
  - (* Star *)
    apply star_sound in H as (w & rest' & E & Hw & Hk).
    exists (pos + length w), rest', cp. split; [|exact Hk].
    exists w. conj7; simpl; auto.
    + intro. discriminate.
    + intros c0 t E0. subst w. now inversion Hw.
    + intros j E0. discriminate.
  - (* Group *)
    simpl in H.
    apply IHa in H as (p1 & r1 & c1 & (w1 & E1 & Ep1 & N1 & F1 & D1 & K1 & G1) & Hk).
    assert (Ew : firstn (p1 - pos) rest = w1).
    { subst. replace (pos + length w1 - pos) with (length w1) by lia.
      rewrite firstn_app, Nat.sub_diag, firstn_all. simpl. apply app_nil_r. }
    rewrite Ew in Hk.
    exists p1, r1, (setcap i w1 c1). split; [|exact Hk].
    exists w1. conj7; simpl; auto.
    + intros j E. destruct (Nat.eqb j i); [discriminate|].
      simpl in E. now apply D1.
    + intros j E. destruct (Nat.eqb j i); [discriminate|]. now apply K1.
    + intros (Hn & Hf & Ga) Hc j s E. simpl in E.
      destruct (Nat.eqb j i) eqn:Eji.
      * apply Nat.eqb_eq in Eji. subst j. inversion E; subst s.
        destruct w1 as [|y w1]; [exfalso; now apply N1|].
        exists y, w1. split; [reflexivity|].
        apply Hf. now apply (F1 y w1).
      * now apply (G1 Ga Hc j s).
  - (* Bol *)
    simpl in H. destruct (Nat.eqb pos 0); [|discriminate].
    exists pos, rest, cp. split; [now apply stepped_refl|exact H].
  - (* Eol *)
    simpl in H. destruct rest; [|discriminate].
    exists pos, [], cp. split; [now apply stepped_refl|exact H].
  - (* Look *)
    simpl in H. destruct (rmatch ic a kdone pos rest cp) as [[[p1 r1] c1]|] eqn:Ea;
      [|discriminate].
    apply IHa in Ea as (p2 & r2 & c2 & (w1 & E1 & Ep1 & N1 & F1 & D1 & K1 & G1) & Hk).
    unfold kdone in Hk. inversion Hk; subst p2 r2 c2.
    exists pos, rest, c1. split; [|exact H].
    exists []. conj7; simpl; auto.
    + intro. congruence.
    + intros c0 t E. discriminate.
Qed.

Lemma capsHead_nil : capsHead P [].
Proof. intros i s H. discriminate. Qed.

Lemma search_sound (r : re) :
  forall rest pos m, search ic r pos rest = Some m -> found ic P r pos rest m.
Proof.
  assert (Hhere : forall rest pos e after cp,
             rmatch ic r kdone pos rest [] = Some (e, after, cp) ->
             found ic P r pos rest (MResult pos e (firstn (e - pos) rest) cp after)).
  { intros rest pos e after cp E.
    apply rmatch_sound in E
      as (p1 & r1 & c1 & (w & E1 & Ep & N1 & F1 & D1 & K1 & G1) & Hk).
    unfold kdone in Hk. inversion Hk; subst p1 r1 c1. clear Hk.
    exists [], w. simpl.
    assert (Ew : firstn (e - pos) rest = w).
    { subst. replace (pos + length w - pos) with (length w) by lia.
      rewrite firstn_app, Nat.sub_diag, firstn_all. simpl. apply app_nil_r. }
    repeat split; auto.
    intros G. apply G1; [exact G|apply capsHead_nil]. }
  induction rest as [|x xs IH]; intros pos m H; simpl in H;
    destruct (rmatch ic r kdone pos _ []) as [[[e after] cp]|] eqn:E.
  - inversion H; subst m. now apply Hhere.
  - discriminate.
  - inversion H; subst m. now apply Hhere.
  - apply IH in H as (sk & w & H1 & H2 & H3 & H4 & H5 & H6 & H7 & H8).
    exists (x :: sk), w. simpl. repeat split; auto; try lia.
    now rewrite H1.
Qed.

(** A match found after a failed attempt at [pos] starts further on. *)
Lemma search_after_failure (r : re) (x : cu) (xs : jstring) (pos : nat) (m : mresult) :
  rmatch ic r kdone pos (x :: xs) [] = None ->
  search ic r pos (x :: xs) = Some m ->
  exists sk, m_index m = S pos + length sk /\ (exists t, xs = sk ++ t).
Proof.
  intros E H. simpl in H. rewrite E in H.
  apply search_sound in H as (sk & w & H1 & H2 & _).
  exists sk. split; [exact H2|]. now exists (w ++ m_after m).
Qed.

Lemma execLoop_total (r : re) :
  nullable r = false ->
  forall fuel pos rest,
    length rest < fuel -> exists ms, execLoop ic fuel r pos rest = Some ms.
Proof.
  intros Hn. induction fuel as [|fuel IH]; intros pos rest Hlen; [lia|].
  simpl. destruct (search ic r pos rest) as [m|] eqn:E; [|now exists []].
  apply search_sound in E as (sk & w & H1 & H2 & H3 & H4 & H5 & _).
  specialize (H5 Hn).
  assert (Hw : 0 < length w) by (destruct w; [congruence|simpl; lia]).
  replace (Nat.eqb (m_end m) (m_index m)) with false
    by (symmetry; apply Nat.eqb_neq; lia).
  destruct (IH (m_end m) (m_after m)) as [ms Hms].
  { subst rest. rewrite !length_app in Hlen. lia. }
  rewrite Hms. now exists (m :: ms).
Qed.

Lemma execAll_total (r : re) (s : jstring) :
  nullable r = false -> exists ms, execAll ic r s = Some ms.
Proof. intro Hn. apply execLoop_total; auto. Qed.

(** The matches of the loop come in increasing order of index, and
    each has the groups the pattern defines. *)
Lemma execLoop_sound (r : re) :
  forall fuel pos rest ms,
    execLoop ic fuel r pos rest = Some ms ->
    Forall (fun m => pos <= m_index m
                     /\ (forall i, defines r i = true -> group i m <> None)
                     /\ (groupsHead ic P r -> capsHead P (m_caps m))) ms
    /\ StronglySorted (fun a b => m_index a < m_index b) ms.
Proof.
  induction fuel as [|fuel IH]; intros pos rest ms H; [discriminate|].
  simpl in H. destruct (search ic r pos rest) as [m|] eqn:E.
  - destruct (Nat.eqb (m_end m) (m_index m)) eqn:Ee; [discriminate|].
    destruct (execLoop ic fuel r (m_end m) (m_after m)) as [ms'|] eqn:E';
      [|discriminate].
    inversion H; subst ms. clear H.
    apply IH in E' as [Hall Hs].
    apply search_sound in E as (sk & w & H1 & H2 & H3 & H4 & H5 & H6 & H7 & H8).
    apply Nat.eqb_neq in Ee.
    split.
    + constructor.
      * repeat split; auto. lia.
      * eapply Forall_impl; [|exact Hall].
        intros m' (Ha & Hb & Hc). repeat split; auto. lia.
    + constructor; [exact Hs|].
      eapply Forall_impl; [|exact Hall].
      intros m' (Ha & _). lia.
  - inversion H; subst. split; constructor.
Qed.

(** The bound on the iterations of [replaceLoop] is never reached: any
    two bounds above the length of the remaining input give the same
    result. *)
Lemma replaceLoop_fuel (r : re) (rep : jstring) :
  forall fuel fuel' pos rest,
    length rest < fuel -> length rest < fuel' ->
    replaceLoop ic fuel r rep pos rest = replaceLoop ic fuel' r rep pos rest.
Proof.
  induction fuel as [|fuel IH]; intros fuel' pos rest H H'; [lia|].
  destruct fuel' as [|fuel']; [lia|]. cbn [replaceLoop].
  destruct (search ic r pos rest) as [m|] eqn:E; [|reflexivity].
  apply search_sound in E as (sk & w & H1 & H2 & H3 & _).
  assert (Hlen : length rest = length sk + length w + length (m_after m)).
  { subst rest. rewrite !length_app. lia. }
  f_equal. f_equal.
  destruct (Nat.eqb (m_end m) (m_index m)) eqn:Ee.
  - destruct (m_after m) as [|x xs] eqn:Ea; [reflexivity|].
    cbn [length] in Hlen. f_equal. apply IH; lia.
  - apply Nat.eqb_neq in Ee. apply IH; lia.
Qed.

End Sound.

Lemma rmatch_first_fails (ic : bool) (r : re) (c : cu) (xs : jstring) (pos : nat) :
  nullable r = false -> firstc ic r c = false ->
  rmatch ic r kdone pos (c :: xs) [] = None.
Proof.
  intros Hn Hf. destruct (rmatch ic r kdone pos (c :: xs) []) as [res|] eqn:E;
    [|reflexivity].
  apply (rmatch_sound ic anyHead) in E
    as (p1 & r1 & c1 & (w & E1 & _ & N1 & F1 & _) & _).
  destruct w as [|y w]; [now elim (N1 Hn)|].
  cbn [app] in E1. inversion E1; subst y.
  rewrite (F1 c w eq_refl) in Hf. discriminate.
Qed.

End RegexFacts.

(* ===================================================================== *)
(** ** The matcher on lines of a given shape *)
(* ===================================================================== *)

Module LineShapes.

Import RegexFacts.

Section Shapes.
Variable ic : bool.

Lemma star_cons (g : bool) (c : cset) (k : kont) (pos : nat) (x : cu) (xs : jstring) (cp : caps) :
  rmatch ic (Star g c) k pos (x :: xs) cp =
  if cmatch ic c x then
    if g then
      match rmatch ic (Star g c) k (S pos) xs cp with
      | Some m => Some m
      | None => k pos (x :: xs) cp
      end
    else
      match k pos (x :: xs) cp with
      | Some m => Some m
      | None => rmatch ic (Star g c) k (S pos) xs cp
      end
  else k pos (x :: xs) cp.
Proof. reflexivity. Qed.

Lemma star_nil (g : bool) (c : cset) (k : kont) (pos : nat) (cp : caps) :
  rmatch ic (Star g c) k pos [] cp = k pos [] cp.
Proof. reflexivity. Qed.

Lemma star_hit (c : cset) (k : kont) (cp : caps) (res : mstate) :
  forall w R pos,
    Forall (fun x => cmatch ic c x = true) w -> stopsAt ic c R ->
    k (pos + length w) R cp = Some res ->
    rmatch ic (Star true c) k pos (w ++ R) cp = Some res.
Proof.
  induction w as [|x w IH]; intros R pos Hw HR Hk.
  - cbn [app length] in *. rewrite Nat.add_0_r in Hk.
    destruct R as [|y R']; [now rewrite star_nil|].
    rewrite star_cons, (HR y R' eq_refl). exact Hk.
  - inversion Hw; subst. cbn [app]. rewrite star_cons.
    replace (cmatch ic c x) with true by congruence.
    rewrite (IH R (S pos)); auto.
    cbn [length] in Hk. now rewrite Nat.add_succ_r in Hk.
Qed.

Lemma star_miss (g : bool) (c : cset) (k : kont) (cp : caps) :
  forall rest pos,
    (forall w R, rest = w ++ R -> Forall (fun x => cmatch ic c x = true) w ->
                 k (pos + length w) R cp = None) ->
    rmatch ic (Star g c) k pos rest cp = None.
Proof.
  induction rest as [|x xs IH]; intros pos H.
  - rewrite star_nil. specialize (H [] [] eq_refl (Forall_nil _)).
    cbn [length] in H. now rewrite Nat.add_0_r in H.
  - assert (Hk : k pos (x :: xs) cp = None).
    { specialize (H [] (x :: xs) eq_refl (Forall_nil _)).
      cbn [length] in H. now rewrite Nat.add_0_r in H. }
    rewrite star_cons. destruct (cmatch ic c x) eqn:Ex; [|exact Hk].
    assert (Hin : rmatch ic (Star g c) k (S pos) xs cp = None).
    { apply IH. intros w R E Hw.
      specialize (H (x :: w) R). cbn [app length] in H.
      rewrite Nat.add_succ_r in H. apply H; [now rewrite E|].
      now constructor. }
    destruct g; now rewrite Hin, Hk.
Qed.

Lemma span_exists (c : cset) (rest : jstring) :
  exists w R, rest = w ++ R
              /\ Forall (fun x => cmatch ic c x = true) w /\ stopsAt ic c R.
Proof.
  induction rest as [|x xs (w & R & E & Hw & HR)].
  - exists [], []. repeat split; auto. intros x R' H. discriminate.
  - destruct (cmatch ic c x) eqn:Ex.
    + exists (x :: w), R. subst xs. repeat split; auto.
    + exists [], (x :: xs). repeat split; auto.
      intros y R' H. now inversion H; subst.
Qed.

(** A run of the class that stops is at least as long as any other run
    of the class from the same place. *)
Lemma span_prefix (c : cset) (w R D X : jstring) :
  w ++ R = D ++ X ->
  Forall (fun x => cmatch ic c x = true) D -> stopsAt ic c R ->
  exists w', w = D ++ w' /\ X = w' ++ R.
Proof.
  revert D. induction w as [|x w IH]; intros D E HD HR.
  - destruct D as [|d D].
    + exists []. cbn [app] in *. auto.
    + cbn [app] in E. inversion HD; subst.
      rewrite (HR d (D ++ X) eq_refl) in *. discriminate.
  - destruct D as [|d D].
    + exists (x :: w). cbn [app] in *. auto.
    + cbn [app] in E. inversion E; subst d. inversion HD; subst.
      destruct (IH D) as (w' & -> & ->); auto.
      exists w'. auto.
Qed.

Lemma search_anchored (r : re) :
  forall rest pos, search ic (Seq Bol r) (S pos) rest = None.
Proof.
  induction rest as [|x xs IH]; intro pos; cbn [search rmatch Nat.eqb]; auto.
Qed.

Lemma matchOnce_anchored (r : re) (s : jstring) :
  matchOnce ic (Seq Bol r) s =
  match rmatch ic r kdone 0 s [] with
  | Some (e, after, cp) => Some (MResult 0 e (firstn (e - 0) s) cp after)
  | None => None
  end.
Proof.
  unfold matchOnce. destruct s as [|x xs]; cbn [search rmatch Nat.eqb];
    destruct (rmatch ic r kdone 0 _ []) as [[[e after] cp]|]; auto.
  apply search_anchored.
Qed.


Lemma rmatch_seq (a b : re) (k : kont) pos rest cp :
  rmatch ic (Seq a b) k pos rest cp
  = rmatch ic a (fun p r c => rmatch ic b k p r c) pos rest cp.
Proof. reflexivity. Qed.

Lemma rmatch_group (i : nat) (a : re) (k : kont) pos rest cp :
  rmatch ic (Group i a) k pos rest cp
  = rmatch ic a (fun p r c => k p r (setcap i (firstn (p - pos) rest) c)) pos rest cp.
Proof. reflexivity. Qed.

Lemma rmatch_chr (c : cset) (k : kont) pos x xs cp :
  rmatch ic (Chr c) k pos (x :: xs) cp
  = if cmatch ic c x then k (S pos) xs cp else None.
Proof. reflexivity. Qed.

Lemma rmatch_opt (a : re) (k : kont) pos rest cp :
  rmatch ic (Opt a) k pos rest cp
  = match rmatch ic a k pos rest cp with
    | Some m => Some m
    | None => k pos rest cp
    end.
Proof. reflexivity. Qed.

Lemma rmatch_eol (k : kont) pos rest cp :
  rmatch ic Eol k pos rest cp
  = match rest with [] => k pos rest cp | _ :: _ => None end.
Proof. reflexivity. Qed.

(** One or more code units of a class, all of them taken. *)
Lemma plus_hit (c : cset) (k : kont) (cp : caps) (res : mstate)
      (w R : jstring) (pos : nat) :
  w <> [] -> Forall (fun x => cmatch ic c x = true) w -> stopsAt ic c R ->
  k (pos + length w) R cp = Some res ->
  rmatch ic (Plus c) k pos (w ++ R) cp = Some res.
Proof.
  intros Hne Hw HR Hk. destruct w as [|x w]; [congruence|].
  inversion Hw; subst. unfold Plus. cbn [app].
  rewrite rmatch_seq, rmatch_chr.
  replace (cmatch ic c x) with true by congruence.
  apply star_hit; auto.
  cbn [length] in Hk. now rewrite Nat.add_succ_r in Hk.
Qed.

(** One or more code units of a class, when the continuation fails
    wherever the run is cut. *)
Lemma plus_miss (c : cset) (k : kont) (cp : caps) (w R : jstring) (pos : nat) :
  Forall (fun x => cmatch ic c x = true) w -> stopsAt ic c R ->
  (forall w1 w2, w = w1 ++ w2 -> w1 <> [] ->
                 k (pos + length w1) (w2 ++ R) cp = None) ->
  rmatch ic (Plus c) k pos (w ++ R) cp = None.
Proof.
  intros Hw HR Hk. unfold Plus. rewrite rmatch_seq.
  destruct w as [|x w].
  - cbn [app]. destruct R as [|y R']; [reflexivity|].
    rewrite rmatch_chr. now rewrite (HR y R' eq_refl).
  - cbn [app]. rewrite rmatch_chr. inversion Hw; subst.
    replace (cmatch ic c x) with true by congruence.
    apply star_miss. intros w1 R1 E Hw1.
    destruct (span_prefix c w R w1 R1 E Hw1 HR) as (w' & -> & ->).
    specialize (Hk (x :: w1) w' eq_refl). cbn [length] in Hk.
    rewrite Nat.add_succ_r in Hk. apply Hk. discriminate.
Qed.

End Shapes.

Lemma cmatch_digit (ic : bool) (x : cu) : cmatch ic digit x = isDigit x.
Proof. unfold digit. cbn [cmatch existsb imatch]. apply orb_false_r. Qed.

Lemma cmatch_ws (ic : bool) (x : cu) : cmatch ic ws x = isWhiteSpace x.
Proof. unfold ws. cbn [cmatch existsb imatch]. apply orb_false_r. Qed.

Lemma cmatch_letter (x : cu) : cmatch false letterClass x = isLetter x.
Proof.
  unfold letterClass, isLetter, range. cbn [cmatch existsb imatch andb].
  rewrite !orb_false_r. reflexivity.
Qed.

Lemma cmatch_char (a x : cu) : cmatch false (OneOf [CChar a]) x = cu_eqb a x.
Proof. cbn [cmatch existsb imatch canon andb]. apply orb_false_r. Qed.

Lemma digit_facts (d : cu) :
  isDigit d = true ->
  isLetter d = false /\ cu_eqb period d = false /\ isWhiteSpace d = false
  /\ isLower d = false /\ cu_eqb 67%N d = false.
Proof.
  unfold isDigit, isLetter, isUpper, isLower, isWhiteSpace, cu_eqb, period. intro H.
  apply andb_true_iff in H as [H1 H2]. apply N.leb_le in H1, H2.
  repeat rewrite orb_false_iff. repeat rewrite andb_false_iff.
  repeat rewrite N.leb_gt. repeat rewrite N.eqb_neq.
  repeat split; lia.
Qed.

Lemma letter_facts (l : cu) :
  isLetter l = true -> isDigit l = false /\ cu_eqb period l = false.
Proof.
  unfold isDigit, isLetter, isUpper, isLower, cu_eqb, period. intro H.
  apply orb_true_iff in H. repeat rewrite andb_true_iff in H.
  repeat rewrite N.leb_le in H.
  repeat rewrite andb_false_iff. repeat rewrite N.leb_gt. rewrite N.eqb_neq.
  split; lia.
Qed.

Lemma label_stops (L Y : jstring) :
  (L = [] \/ exists l, L = [l] /\ isLetter l = true) ->
  stopsAt false digit (L ++ period :: Y).
Proof.
  intros HL x R' E. rewrite cmatch_digit.
  destruct HL as [->|(l & -> & Hl)]; cbn [app] in E; inversion E; subst.
  - reflexivity.
  - now apply letter_facts in Hl.
Qed.

(** The label at the start of the input, followed by a period: the matcher
    takes all of it first. *)
Lemma label_hit (k : kont) (pos : nat) (D L Y : jstring) (cp : caps) (res : mstate) :
  sectionLabel D L ->
  k (pos + length (D ++ L)) (period :: Y) cp = Some res ->
  rmatch false labelRe k pos (D ++ L ++ period :: Y) cp = Some res.
Proof.
  intros (HD & Hdig & HL) Hk. unfold labelRe. rewrite rmatch_seq.
  apply plus_hit; auto.
  - eapply Forall_impl; [|exact Hdig]. intros a Ha. now rewrite cmatch_digit.
  - now apply label_stops.
  - rewrite rmatch_opt. rewrite length_app in Hk.
    destruct HL as [->|(l & -> & Hl)]; cbn [app length] in *.
    + rewrite rmatch_chr, cmatch_letter. change (isLetter period) with false.
      cbv iota. now rewrite Nat.add_0_r in Hk.
    + rewrite rmatch_chr, cmatch_letter, Hl.
      replace (S (pos + length D)) with (pos + (length D + 1)) by lia.
      now rewrite Hk.
Qed.

(** The label when the continuation fails wherever the label is cut. *)
Lemma label_miss (k : kont) (pos : nat) (D L Y : jstring) (cp : caps) :
  sectionLabel D L ->
  (forall D1 D2, D = D1 ++ D2 -> D1 <> [] ->
                 k (pos + length D1) (D2 ++ L ++ period :: Y) cp = None) ->
  (forall l, L = [l] -> k (pos + length D + 1) (period :: Y) cp = None) ->
  rmatch false labelRe k pos (D ++ L ++ period :: Y) cp = None.
Proof.
  intros (HD & Hdig & HL) H1 H2. unfold labelRe. rewrite rmatch_seq.
  apply plus_miss.
  - eapply Forall_impl; [|exact Hdig]. intros a Ha. now rewrite cmatch_digit.
  - now apply label_stops.
  - intros D1 D2 E Hne. rewrite rmatch_opt, (H1 D1 D2 E Hne).
    destruct D2 as [|d2 D2].
    + cbn [app]. rewrite app_nil_r in E. subst D1.
      destruct HL as [->|(l & -> & Hl)]; cbn [app].
      * rewrite rmatch_chr, cmatch_letter. reflexivity.
      * rewrite rmatch_chr, cmatch_letter, Hl.
        replace (S (pos + length D)) with (pos + length D + 1) by lia.
        now rewrite (H2 l eq_refl).
    + cbn [app]. rewrite rmatch_chr, cmatch_letter.
      assert (Hd2 : isDigit d2 = true).
      { subst D. rewrite Forall_app in Hdig. destruct Hdig as [_ Hdig].
        now inversion Hdig. }
      apply digit_facts in Hd2 as (-> & _). reflexivity.
Qed.

Lemma sectionAlonePattern_eq :
  sectionAlonePattern = Seq Bol (Seq (Group 1 labelRe) aloneTail).
Proof. reflexivity. Qed.

Lemma sectionInlinePattern_eq :
  sectionInlinePattern = Seq Bol (Seq (Group 1 labelRe) inlineTail).
Proof. reflexivity. Qed.

(** After the period only white space may come before the end of a
    section number alone on its line. *)
Lemma aloneTail_miss (pos : nat) (S T : jstring) (t : cu) (cp : caps) :
  Forall (fun s => isWhiteSpace s = true) S -> isWhiteSpace t = false ->
  rmatch false aloneTail kdone pos (period :: S ++ t :: T) cp = None.
Proof.
  intros HS Ht. unfold aloneTail.
  rewrite rmatch_seq, rmatch_chr, cmatch_char.
  change (cu_eqb period period) with true. cbv iota.
  rewrite rmatch_seq. apply star_miss. intros w R E Hw.
  rewrite rmatch_eol. destruct R as [|y R]; [|reflexivity].
  rewrite app_nil_r in E. subst w. apply Forall_app in Hw as [_ Hw].
  inversion Hw as [|? ? Hx _]; subst. rewrite cmatch_ws in Hx. congruence.
Qed.

Lemma aloneTail_wrong_start (pos : nat) (x : cu) (xs : jstring) (cp : caps) :
  cu_eqb period x = false ->
  rmatch false aloneTail kdone pos (x :: xs) cp = None.
Proof.
  intro Hx. unfold aloneTail. now rewrite rmatch_seq, rmatch_chr, cmatch_char, Hx.
Qed.

Lemma inlineTail_wrong_start (pos : nat) (x : cu) (xs : jstring) (cp : caps) :
  cu_eqb period x = false ->
  rmatch false inlineTail kdone pos (x :: xs) cp = None.
Proof.
  intro Hx. unfold inlineTail. now rewrite rmatch_seq, rmatch_chr, cmatch_char, Hx.
Qed.

(** The shape of a line: a section label, a period, white space and
    trailing text that starts with a code unit that is no white space. *)
Lemma alone_none (D L S T : jstring) (t : cu) :
  sectionLabel D L ->
  Forall (fun s => isWhiteSpace s = true) S -> isWhiteSpace t = false ->
  matchOnce false sectionAlonePattern (D ++ L ++ period :: S ++ t :: T) = None.
Proof.
  intros Hlab HS Ht.
  rewrite sectionAlonePattern_eq, matchOnce_anchored.
  rewrite rmatch_seq, rmatch_group.
  rewrite label_miss; auto.
  - intros D1 D2 E Hne.
    destruct D2 as [|d2 D2].
    + destruct Hlab as (_ & _ & [->|(l & -> & Hl)]); cbn [app].
      * now apply aloneTail_miss.
      * apply aloneTail_wrong_start. now apply letter_facts in Hl.
    + cbn [app]. apply aloneTail_wrong_start.
      destruct Hlab as (_ & Hdig & _). subst D.
      apply Forall_app in Hdig as [_ Hdig]. inversion Hdig as [|? ? Hd _]; subst.
      now apply digit_facts in Hd.
  - intros l _. now apply aloneTail_miss.
Qed.

Lemma firstn_exact (w R : jstring) (p : nat) :
  firstn (p + length w - p) (w ++ R) = w.
Proof.
  replace (p + length w - p) with (length w) by lia.
  rewrite firstn_app, Nat.sub_diag, firstn_all.
  change (firstn 0 R) with (@nil cu). apply app_nil_r.
Qed.

Lemma inline_some (D L S tail : jstring) :
  sectionLabel D L ->
  S <> [] -> Forall (fun s => isWhiteSpace s = true) S ->
  exists m g,
    matchOnce false sectionInlinePattern
              (D ++ L ++ period :: S ++ str "Published in" ++ tail) = Some m
    /\ group 2 m = Some (str "Published in" ++ g).
Proof.
  intros Hlab HS Hws.
  destruct (span_exists false Dot (str "ublished in" ++ tail))
    as (w & R & E & Hw & HR).
  destruct (span_prefix false Dot w R (str "ublished in") tail (eq_sym E))
    as (w' & Ew & Et); auto.
  { repeat constructor. }
  change (str "Published in" ++ tail) with (80%N :: (str "ublished in" ++ tail)).
  rewrite E.
  assert (Hm : exists e cp1,
             rmatch false (Seq (Group 1 labelRe) inlineTail) kdone 0
                    (D ++ L ++ period :: S ++ 80%N :: w ++ R) []
             = Some (e, R, setcap 2 (80%N :: w) cp1)).
  { do 2 eexists. rewrite rmatch_seq, rmatch_group.
    apply label_hit; [exact Hlab|].
    unfold inlineTail. rewrite rmatch_seq, rmatch_chr, cmatch_char.
    change (cu_eqb period period) with true. cbv iota.
    rewrite rmatch_seq. apply plus_hit; auto.
    - eapply Forall_impl; [|exact Hws]. intros a Ha. now rewrite cmatch_ws.
    - intros x R' Ex. inversion Ex; subst. reflexivity.
    - rewrite rmatch_group.
      assert (Hne : 80%N :: w <> []) by discriminate.
      assert (Hdot : Forall (fun x => cmatch false Dot x = true) (80%N :: w))
        by (constructor; [reflexivity|exact Hw]).
      apply (plus_hit false Dot _ _ _ (80%N :: w) R _ Hne Hdot HR).
      unfold kdone. change (80%N :: w ++ R) with ((80%N :: w) ++ R).
      rewrite firstn_exact. reflexivity. }
  destruct Hm as (e & cp1 & Hm).
  rewrite sectionInlinePattern_eq, matchOnce_anchored, Hm.
  eexists. exists w'. split; [reflexivity|].
  unfold group. cbn [m_caps getcap setcap Nat.eqb]. now rewrite Ew.
Qed.

Lemma anchored_first_fails (ic : bool) (r : re) (x : cu) (xs : jstring) :
  nullable r = false -> firstc ic r x = false ->
  matchOnce ic (Seq Bol r) (x :: xs) = None.
Proof.
  intros Hn Hf. rewrite matchOnce_anchored.
  now rewrite (rmatch_first_fails ic r x xs 0 Hn Hf).
Qed.

Lemma chapter_no_digit (d : cu) (xs : jstring) :
  isDigit d = true -> test true chapterLinePattern (d :: xs) = false.
Proof.
  intro Hd. unfold test, chapterLinePattern. cbn [cat].
  rewrite anchored_first_fails; [reflexivity|reflexivity|].
  cbn [firstc lit nullable cmatch existsb imatch andb orb].
  rewrite !orb_false_r. unfold canon at 2.
  apply digit_facts in Hd as (_ & _ & _ & -> & Hc). cbn [andb]. exact Hc.
Qed.

End LineShapes.

(* ===================================================================== *)
(** ** One iteration of the loops over the section matches *)
(* ===================================================================== *)

Module LoopEquations.

Lemma privacySections_cons body chapters sec rest cur provs defs :
  privacySections body chapters (sec :: rest) cur provs defs =
      let currentChapter := chapterAt chapters (sm_pos sec) cur in
      let startPos := sm_pos sec in
      let endPos := match rest with
                    | nextSec :: _ => sm_pos nextSec
                    | [] => length body
                    end in
      let rawContent := substring startPos endPos body in
      let content := normalizeText (stripHtml rawContent) in
      if 10 <? length content then
        let provRef := str "sec" ++ sm_num sec in
        let provisions :=
          provs ++
          [{| provision_ref := provRef;
              chapter := orUndefined currentChapter;
              section := sm_num sec;
              p_title := sm_title sec;
              content := substring 0 maxContentLength content |}] in
        bind
          (if isPrivacyDefinitionSection (sm_num sec)
           then extractDefinitionsFromContent content provRef defs
           else Some defs)
          (fun definitions => privacySections body chapters rest currentChapter provisions definitions)
      else
        privacySections body chapters rest currentChapter provs defs.
Proof. reflexivity. Qed.

Lemma genericSections_cons html chapters sec rest cur provs :
  genericSections html chapters (sec :: rest) cur provs =
  let currentChapter := chapterAt chapters (sm_pos sec) cur in
  let startPos := sm_pos sec in
  let endPos := match rest with
                | nextSec :: _ => sm_pos nextSec
                | [] => length html
                end in
  let content := normalizeText (stripHtml (substring startPos endPos html)) in
  if 10 <? length content then
    genericSections html chapters rest currentChapter
      (provs ++
       [{| provision_ref := str "sec" ++ sm_num sec;
           chapter := orUndefined currentChapter;
           section := sm_num sec;
           p_title := sm_title sec;
           content := substring 0 maxContentLength content |}])
  else genericSections html chapters rest currentChapter provs.
Proof. reflexivity. Qed.

End LoopEquations.

Import LoopEquations.

(* ===================================================================== *)
(** ** The parsers always return *)
(* ===================================================================== *)

Module Totality.

Import RegexFacts.

Lemma group_defined (ic : bool) (r : re) (s : jstring) (m : mresult) (i : nat) :
  matchOnce ic r s = Some m -> defines r i = true ->
  exists g, group i m = Some g.
Proof.
  intros H D. apply (search_sound ic anyHead) in H
    as (sk & w & _ & _ & _ & _ & _ & _ & H7 & _).
  specialize (H7 i D). destruct (group i m) as [g|]; [now exists g|congruence].
Qed.

Lemma execAll_groups (ic : bool) (r : re) (s : jstring) (ms : list mresult) :
  execAll ic r s = Some ms ->
  Forall (fun m => forall i, defines r i = true -> exists g, group i m = Some g) ms.
Proof.
  intro H. apply (execLoop_sound ic anyHead) in H as [H _].
  eapply Forall_impl; [|exact H].
  intros m (_ & Hd & _) i D. specialize (Hd i D).
  destruct (group i m) as [g|]; [now exists g|congruence].
Qed.

Lemma mapM_total {A B : Type} (f : A -> option B) (l : list A) :
  Forall (fun x => exists y, f x = Some y) l -> exists ys, mapM f l = Some ys.
Proof.
  induction 1 as [|x l [y Hy] _ [ys IH]]; simpl.
  - now exists [].
  - rewrite Hy. simpl. rewrite IH. simpl. now exists (y :: ys).
Qed.

Lemma foldM_total {A B : Type} (f : A -> B -> option A) (l : list B) :
  Forall (fun x => forall a, exists a', f a x = Some a') l ->
  forall a, exists a', foldM f l a = Some a'.
Proof.
  induction 1 as [|x l Hx _ IH]; intro a; simpl.
  - now exists a.
  - destruct (Hx a) as [a' Ha']. rewrite Ha'. simpl. apply IH.
Qed.

Lemma collectChapters_total (pattern : re) (body : jstring) :
  nullable pattern = false -> defines pattern 1 = true ->
  exists chs, collectChapters pattern body = Some chs.
Proof.
  intros Hn Hd. unfold collectChapters.
  destruct (execAll_total true anyHead pattern body Hn) as [ms Hms].
  rewrite Hms. simpl. apply mapM_total.
  eapply Forall_impl; [|exact (execAll_groups _ _ _ _ Hms)].
  intros m Hm. destruct (Hm 1 Hd) as [g Hg]. rewrite Hg. simpl. eauto.
Qed.

Lemma collectSections_total (body : jstring) :
  exists secs, collectSections sectionPattern body = Some secs.
Proof.
  unfold collectSections.
  destruct (execAll_total true anyHead sectionPattern body eq_refl) as [ms Hms].
  rewrite Hms. simpl. apply mapM_total.
  eapply Forall_impl; [|exact (execAll_groups _ _ _ _ Hms)].
  intros m Hm.
  destruct (Hm 1 eq_refl) as [g1 Hg1]. destruct (Hm 2 eq_refl) as [g2 Hg2].
  rewrite Hg1, Hg2. simpl. eauto.
Qed.

Lemma contentDefStep_total (sp : jstring) (m : mresult) :
  (forall i, defines defPattern i = true -> exists g, group i m = Some g) ->
  forall defs, exists defs', contentDefStep sp defs m = Some defs'.
Proof.
  intros Hm defs. unfold contentDefStep.
  destruct (Hm 1 eq_refl) as [g1 ->]. destruct (Hm 2 eq_refl) as [g2 ->]. simpl.
  repeat match goal with
         | |- context [if ?b then _ else _] => destruct b
         end; eauto.
Qed.

Lemma extractDefinitionsFromContent_total (content sp : jstring) defs :
  exists defs', extractDefinitionsFromContent content sp defs = Some defs'.
Proof.
  unfold extractDefinitionsFromContent.
  destruct (execAll_total false anyHead defPattern content eq_refl) as [ms Hms].
  rewrite Hms. simpl. apply foldM_total.
  eapply Forall_impl; [|exact (execAll_groups _ _ _ _ Hms)].
  intros m Hm. now apply contentDefStep_total.
Qed.

Lemma plainDefStep_total (sp : jstring) (r : re) (m : mresult) :
  defines r 1 = true -> defines r 2 = true ->
  (forall i, defines r i = true -> exists g, group i m = Some g) ->
  forall st, exists st', plainDefStep sp st m = Some st'.
Proof.
  intros D1 D2 Hm [seen defs]. unfold plainDefStep.
  destruct (Hm 1 D1) as [g1 ->]. destruct (Hm 2 D2) as [g2 ->]. simpl.
  repeat match goal with
         | |- context [if ?b then _ else _] => destruct b
         end; eauto.
Qed.

Lemma extractDefinitionsFromPlainText_total (content sp : jstring) defs :
  exists defs', extractDefinitionsFromPlainText content sp defs = Some defs'.
Proof.
  unfold extractDefinitionsFromPlainText.
  assert (H : exists st, foldM (fun st defPattern =>
                 ms <- execAll false defPattern content ;;
                 foldM (plainDefStep sp) ms st)
              plainDefPatterns ([], defs) = Some st).
  { apply foldM_total. unfold plainDefPatterns.
    repeat constructor; intro st.
    - destruct (execAll_total false anyHead plainDefPattern1 content eq_refl) as [ms Hms].
      rewrite Hms. simpl. apply foldM_total.
      eapply Forall_impl; [|exact (execAll_groups _ _ _ _ Hms)].
      intros m Hm. now apply (plainDefStep_total sp plainDefPattern1).
    - destruct (execAll_total false anyHead plainDefPattern2 content eq_refl) as [ms Hms].
      rewrite Hms. simpl. apply foldM_total.
      eapply Forall_impl; [|exact (execAll_groups _ _ _ _ Hms)].
      intros m Hm. now apply (plainDefStep_total sp plainDefPattern2). }
  destruct H as [st ->]. simpl. eauto.
Qed.

Lemma privacySections_total (body : jstring) (chapters : list ChapterPos) :
  forall secs cur provs defs,
    exists r, privacySections body chapters secs cur provs defs = Some r.
Proof.
  induction secs as [|sec rest IH]; intros cur provs defs.
  - cbn [privacySections]. eauto.
  - rewrite privacySections_cons. cbv zeta.
    destruct (10 <? length _); [|apply IH].
    destruct (isPrivacyDefinitionSection (sm_num sec)).
    + match goal with
      | |- context [extractDefinitionsFromContent ?c ?sp ?d] =>
          destruct (extractDefinitionsFromContent_total c sp d) as [d' ->]
      end. cbn [bind]. apply IH.
    + cbn [bind]. apply IH.
Qed.

Lemma parsePrivacyLawHtml_total (html : jstring) (act : ActIndexEntry) :
  exists pa, parsePrivacyLawHtml html act = Some pa.
Proof.
  unfold parsePrivacyLawHtml.
  destruct (collectChapters_total chapterPattern (privacyBody html) eq_refl eq_refl)
    as [chs ->].
  destruct (collectChapters_total articlePattern (privacyBody html) eq_refl eq_refl)
    as [arts ->].
  destruct (collectSections_total (privacyBody html)) as [secs ->]. simpl.
  destruct (privacySections_total (privacyBody html) (sortChapters (chs ++ arts))
              secs [] [] []) as [r ->].
  simpl. eauto.
Qed.

Lemma parseIsraeliLawHtml_total (html : jstring) (act : ActIndexEntry) :
  exists pa, parseIsraeliLawHtml html act = Some pa.
Proof.
  unfold parseIsraeliLawHtml.
  destruct (JS.eqb (id act) privacyLawId); [apply parsePrivacyLawHtml_total|].
  destruct (collectChapters_total chapterPattern html eq_refl eq_refl) as [chs ->].
  destruct (collectSections_total html) as [secs ->]. simpl. eauto.
Qed.

Ltac split_ifs :=
  repeat match goal with
         | |- context [if ?b then _ else _] => destruct b
         end.

Lemma computerLine_total (st : TextState) (raw : jstring) :
  exists st', computerLine st raw = Some st'.
Proof.
  unfold computerLine.
  destruct (test true chapterLinePattern (trim raw)); [eauto|].
  destruct (matchOnce false sectionAlonePattern (trim raw)) as [m1|] eqn:E1.
  { destruct (group_defined _ _ _ _ 1 E1 eq_refl) as [g ->]. simpl. eauto. }
  destruct (matchOnce false sectionInlinePattern (trim raw)) as [m2|] eqn:E2.
  { destruct (group_defined _ _ _ _ 2 E2 eq_refl) as [g2 ->]. simpl.
    destruct (test true rePublishedIn g2); [eauto|].
    destruct (group_defined _ _ _ _ 1 E2 eq_refl) as [g1 ->]. simpl. eauto. }
  destruct (currentSection st); split_ifs; eauto.
Qed.

Lemma computerSections_total (lawText : jstring) :
  exists secs, computerSections lawText = Some secs.
Proof.
  unfold computerSections.
  destruct (foldM_total computerLine (splitLines lawText)) with (a := initialTextState)
    as [st ->].
  - apply Forall_forall. intros raw _ st. apply computerLine_total.
  - simpl. eauto.
Qed.

Lemma computerEmit_total st (sec : SectionAcc) :
  exists st', computerEmit st sec = Some st'.
Proof.
  destruct st as [provs defs]. unfold computerEmit.
  destruct (10 <? _); [|eauto].
  destruct (JS.eqb (num sec) (str "1")); [|eauto].
  match goal with
  | |- context [extractDefinitionsFromPlainText ?c ?sp ?d] =>
      destruct (extractDefinitionsFromPlainText_total c sp d) as [d' ->]
  end. simpl. eauto.
Qed.

Lemma parseComputerLawText_total (text : jstring) (act : ActIndexEntry) :
  exists pa, parseComputerLawText text act = Some pa.
Proof.
  unfold parseComputerLawText.
  destruct (computerSections_total (lawTextOf text)) as [secs ->]. simpl.
  destruct (foldM_total computerEmit secs) with (a := (@nil ParsedProvision, @nil ParsedDefinition))
    as [r ->].
  - apply Forall_forall. intros sec _ st. apply computerEmit_total.
  - simpl. eauto.
Qed.

(** Every index the look-back reads lies inside [lines]. *)
Lemma lookBack_total (lines : list jstring) :
  forall n j title,
    n = 0 \/ (j < length lines /\ n <= S j) ->
    exists t, lookBack lines n j title = Some t.
Proof.
  induction n as [|n IH]; intros j title Hj; simpl; [eauto|].
  destruct Hj as [Hj|[Hj Hn]]; [discriminate|].
  destruct (nth_error lines j) as [raw|] eqn:E.
  2:{ apply nth_error_None in E. lia. }
  simpl.
  assert (Hrec : n = 0 \/ (j - 1 < length lines /\ n <= S (j - 1))).
  { destruct n; [now left|right]. lia. }
  split_ifs; eauto.
Qed.

Lemma basicLine_total (lines : list jstring) (st : BasicState) (i : nat) :
  i < length lines -> exists st', basicLine lines st i = Some st'.
Proof.
  intro Hi. unfold basicLine.
  destruct (nth_error lines i) as [raw|] eqn:E.
  2:{ apply nth_error_None in E. lia. }
  simpl.
  destruct (matchOnce false basicSectionPattern (trim raw)) as [m|] eqn:Em.
  - destruct (lookBack_total lines (Nat.min i 4) (i - 1) []) as [t ->].
    { destruct i; [now left|right]. lia. }
    destruct (group_defined _ _ _ _ 1 Em eq_refl) as [g1 ->].
    destruct (group_defined _ _ _ _ 2 Em eq_refl) as [g2 ->].
    simpl. eauto.
  - destruct (snd st); split_ifs; eauto.
Qed.

Lemma basicSections_total (text : jstring) :
  exists secs, basicSections text = Some secs.
Proof.
  unfold basicSections.
  assert (H : forall l (st : BasicState),
             Forall (fun i => i < length (splitLines text)) l ->
             exists st', foldM (basicLine (splitLines text)) l st = Some st').
  { induction l as [|i l IH]; intros st Hl; simpl; [eauto|].
    inversion Hl; subst.
    destruct (basicLine_total (splitLines text) st i) as [st' ->]; auto.
    simpl. now apply IH. }
  destruct (H (seq 0 (length (splitLines text))) ([], None)) as [st ->].
  - apply Forall_forall. intros i Hi. apply in_seq in Hi. lia.
  - simpl. eauto.
Qed.

Lemma parseBasicLawText_total (text : jstring) (act : ActIndexEntry) :
  exists pa, parseBasicLawText text act = Some pa.
Proof.
  unfold parseBasicLawText.
  destruct (basicSections_total text) as [secs ->]. simpl. eauto.
Qed.

End Totality.

(* ===================================================================== *)
(** ** The emission loops *)
(* ===================================================================== *)

Module EmissionFacts.

Lemma emitted_app (a b : list ParsedProvision) :
  emitted (a ++ b) = emitted a ++ emitted b.
Proof. apply map_app. Qed.

Lemma kept_cons (x : Recognized) (l : list Recognized) :
  kept (x :: l) =
  if 10 <? length (snd x)
  then (fst x, substring 0 maxContentLength (snd x)) :: kept l
  else kept l.
Proof. unfold kept. cbn [filter]. now destruct (10 <? length (snd x)). Qed.

Lemma kept_In (l : list Recognized) (lab c' : jstring) :
  In (lab, c') (kept l) <->
  exists c, In (lab, c) l /\ 10 < length c
            /\ c' = substring 0 maxContentLength c.
Proof.
  unfold kept. rewrite in_map_iff. split.
  - intros ([lab0 c] & E & Hin). apply filter_In in Hin as [Hin Hlen].
    simpl in *. inversion E; subst. exists c. repeat split; auto.
    now apply Nat.ltb_lt.
  - intros (c & Hin & Hlen & ->). exists (lab, c). split; [reflexivity|].
    apply filter_In. split; [exact Hin|]. now apply Nat.ltb_lt.
Qed.

(** Basic-law convention. *)
Lemma basicEmit_fold (secs : list BasicSection) :
  forall provs,
    emitted (fold_left basicEmit secs provs)
    = emitted provs ++ kept (basicRecognized secs)
    /\ (Forall (fun p => chapter p = None) provs ->
        Forall (fun p => chapter p = None) (fold_left basicEmit secs provs)).
Proof.
  induction secs as [|sec secs IH]; intro provs; simpl.
  - split; [now rewrite app_nil_r|auto].
  - destruct (IH (basicEmit provs sec)) as [IH1 IH2].
    rewrite IH1. clear IH1.
    unfold basicRecognized. simpl map. rewrite kept_cons. simpl fst. simpl snd.
    unfold basicEmit in *.
    destruct (10 <? length (normalizeText (b_content sec))).
    + split.
      * rewrite emitted_app. simpl. now rewrite <- app_assoc.
      * intro H. apply IH2. apply Forall_app. split; [exact H|].
        repeat constructor.
    + split; auto.
Qed.

(** Statute convention. *)
Lemma computerEmit_fold (secs : list SectionAcc) :
  forall provs defs r,
    foldM computerEmit secs (provs, defs) = Some r ->
    emitted (fst r) = emitted provs ++ kept (computerRecognized secs).
Proof.
  induction secs as [|sec secs IH]; intros provs defs r H; simpl in H.
  - inversion H; subst. simpl. now rewrite app_nil_r.
  - unfold computerRecognized. simpl. rewrite kept_cons. simpl.
    destruct (10 <? length (normalizeText (s_content sec))).
    + destruct (JS.eqb (num sec) (str "1")).
      * destruct (extractDefinitionsFromPlainText _ _ defs) as [defs'|];
          [|discriminate].
        simpl in H. apply IH in H. rewrite H, emitted_app. simpl.
        now rewrite <- app_assoc.
      * simpl in H. apply IH in H. rewrite H, emitted_app. simpl.
        now rewrite <- app_assoc.
    + simpl in H. now apply IH in H.
Qed.

(** HTML strategies. *)
Lemma privacySections_emitted (body : jstring) (chapters : list ChapterPos) :
  forall secs cur provs defs r,
    privacySections body chapters secs cur provs defs = Some r ->
    emitted (fst r) = emitted provs ++ kept (htmlRecognized body secs).
Proof.
  induction secs as [|sec secs IH]; intros cur provs defs r H.
  - simpl in H. inversion H; subst. simpl. now rewrite app_nil_r.
  - rewrite privacySections_cons in H. cbv zeta in H.
    cbn [htmlRecognized]. rewrite kept_cons. cbn [fst snd].
    destruct (10 <? length _) eqn:E.
    + destruct (isPrivacyDefinitionSection (sm_num sec)).
      * destruct (extractDefinitionsFromContent _ _ defs) as [defs'|];
          [|discriminate].
        cbn [bind] in H. apply IH in H. rewrite H, emitted_app. cbn [emitted map content section].
        now rewrite <- app_assoc.
      * cbn [bind] in H. apply IH in H. rewrite H, emitted_app. cbn [emitted map content section].
        now rewrite <- app_assoc.
    + now apply IH in H.
Qed.

Lemma genericSections_emitted (html : jstring) (chapters : list ChapterPos) :
  forall secs cur provs,
    emitted (genericSections html chapters secs cur provs)
    = emitted provs ++ kept (htmlRecognized html secs).
Proof.
  induction secs as [|sec secs IH]; intros cur provs.
  - cbn [genericSections htmlRecognized kept filter map]. now rewrite app_nil_r.
  - rewrite genericSections_cons. cbv zeta.
    cbn [htmlRecognized]. rewrite kept_cons. cbn [fst snd].
    destruct (10 <? length _).
    + rewrite IH, emitted_app. cbn [emitted map content section].
      now rewrite <- app_assoc.
    + apply IH.
Qed.

(** The four strategies, from the input to the provisions. *)
Lemma computer_emitted (text : jstring) (act : ActIndexEntry) (pa : ParsedAct) :
  parseComputerLawText text act = Some pa ->
  exists secs,
    computerSections (lawTextOf text) = Some secs
    /\ emitted (provisions pa) = kept (computerRecognized secs).
Proof.
  unfold parseComputerLawText. intro H.
  destruct (computerSections (lawTextOf text)) as [secs|]; [|discriminate].
  simpl in H. exists secs. split; [reflexivity|].
  destruct (foldM computerEmit secs ([], [])) as [r|] eqn:E; [|discriminate].
  simpl in H. inversion H; subst. simpl.
  now apply computerEmit_fold in E.
Qed.

Lemma basic_emitted (text : jstring) (act : ActIndexEntry) (pa : ParsedAct) :
  parseBasicLawText text act = Some pa ->
  exists secs,
    basicSections text = Some secs
    /\ emitted (provisions pa) = kept (basicRecognized secs)
    /\ Forall (fun p => chapter p = None) (provisions pa).
Proof.
  unfold parseBasicLawText. intro H.
  destruct (basicSections text) as [secs|]; [|discriminate].
  simpl in H. inversion H; subst. simpl. exists secs.
  destruct (basicEmit_fold secs []) as [H1 H2]. auto.
Qed.

Lemma privacy_emitted (html : jstring) (act : ActIndexEntry) (pa : ParsedAct) :
  parsePrivacyLawHtml html act = Some pa ->
  exists secs,
    collectSections sectionPattern (privacyBody html) = Some secs
    /\ emitted (provisions pa) = kept (htmlRecognized (privacyBody html) secs).
Proof.
  unfold parsePrivacyLawHtml. intro H.
  destruct (collectChapters chapterPattern _) as [chs|]; [|discriminate].
  destruct (collectChapters articlePattern _) as [arts|]; [|discriminate].
  destruct (collectSections sectionPattern _) as [secs|]; [|discriminate].
  simpl in H. exists secs. split; [reflexivity|].
  destruct (privacySections _ _ secs [] [] []) as [r|] eqn:E; [|discriminate].
  simpl in H. inversion H; subst. simpl.
  now apply privacySections_emitted in E.
Qed.

Lemma israeli_emitted (html : jstring) (act : ActIndexEntry) (pa : ParsedAct) :
  parseIsraeliLawHtml html act = Some pa ->
  exists secs,
    collectSections sectionPattern (htmlBodyFor act html) = Some secs
    /\ emitted (provisions pa) = kept (htmlRecognized (htmlBodyFor act html) secs).
Proof.
  unfold parseIsraeliLawHtml, htmlBodyFor. intro H.
  destruct (JS.eqb (id act) privacyLawId); [now apply privacy_emitted in H|].
  destruct (collectChapters chapterPattern _) as [chs|]; [|discriminate].
  destruct (collectSections sectionPattern _) as [secs|]; [|discriminate].
  simpl in H. exists secs. split; [reflexivity|].
  inversion H; subst. simpl. apply genericSections_emitted.
Qed.

End EmissionFacts.

(* ===================================================================== *)
(** ** The properties of the parser *)
(* ===================================================================== *)

Module Claims.

Import Scenarios RegexFacts LineShapes EmissionFacts.

(** Closed goals: a conjunction of equations between closed terms. *)
Ltac evaluate :=
  repeat match goal with |- _ /\ _ => split end; vm_compute; reflexivity.

(** Every strategy emits exactly the recognized sections that pass the
    threshold, truncated. *)
Lemma run_emitted (s : Strategy) (text : jstring) (act : ActIndexEntry)
      (pa : ParsedAct) :
  run s text act = Some pa ->
  exists l, recognizedBy s text act = Some l
            /\ emitted (provisions pa) = kept l.
Proof.
  destruct s; simpl; intro H.
  - apply privacy_emitted in H as (secs & -> & H). simpl. eauto.
  - apply israeli_emitted in H as (secs & -> & H). simpl. eauto.
  - apply computer_emitted in H as (secs & -> & H). simpl. eauto.
  - apply basic_emitted in H as (secs & -> & H & _). simpl. eauto.
Qed.

(** *** Inputs without any recognizable section *)

Lemma test_false (ic : bool) (r : re) (s : jstring) :
  test ic r s = false -> matchOnce ic r s = None.
Proof. unfold test. now destruct (matchOnce ic r s). Qed.

Lemma collectSections_none (body : jstring) :
  test true sectionPattern body = false ->
  collectSections sectionPattern body = Some [].
Proof.
  intro H. apply test_false in H. unfold matchOnce in H.
  unfold collectSections, execAll. cbn [execLoop]. now rewrite H.
Qed.

Lemma privacy_no_section (html : jstring) (act : ActIndexEntry) (pa : ParsedAct) :
  parsePrivacyLawHtml html act = Some pa ->
  test true sectionPattern (privacyBody html) = false ->
  provisions pa = [].
Proof.
  unfold parsePrivacyLawHtml. intros H Hn.
  destruct (collectChapters chapterPattern _) as [chs|]; [|discriminate].
  destruct (collectChapters articlePattern _) as [arts|]; [|discriminate].
  rewrite (collectSections_none _ Hn) in H. cbn [bind privacySections] in H.
  now inversion H.
Qed.

Lemma israeli_no_section (html : jstring) (act : ActIndexEntry) (pa : ParsedAct) :
  parseIsraeliLawHtml html act = Some pa ->
  test true sectionPattern (htmlBodyFor act html) = false ->
  provisions pa = [].
Proof.
  unfold parseIsraeliLawHtml, htmlBodyFor. intros H Hn.
  destruct (JS.eqb (id act) privacyLawId); [now apply (privacy_no_section html act)|].
  destruct (collectChapters chapterPattern _) as [chs|]; [|discriminate].
  rewrite (collectSections_none _ Hn) in H. cbn [bind genericSections] in H.
  now inversion H.
Qed.

(** A line that is no section start leaves the machine without a section. *)
Lemma computerLine_no_section (st st' : TextState) (raw : jstring) :
  test false sectionAlonePattern (trim raw) = false ->
  test false sectionInlinePattern (trim raw) = false ->
  sections st = [] -> currentSection st = None ->
  computerLine st raw = Some st' ->
  sections st' = [] /\ currentSection st' = None.
Proof.
  intros Ha Hi Hs Hc. apply test_false in Ha. apply test_false in Hi.
  unfold computerLine. rewrite Ha, Hi, Hc.
  repeat match goal with
         | |- context [if ?b then _ else _] => destruct b
         end; intro H; inversion H; subst; cbn; auto.
Qed.

Lemma computerSections_no_section (lawText : jstring) (secs : list SectionAcc) :
  Forall (fun raw => test false sectionAlonePattern (trim raw) = false
                     /\ test false sectionInlinePattern (trim raw) = false)
         (splitLines lawText) ->
  computerSections lawText = Some secs -> secs = [].
Proof.
  unfold computerSections. intros Hall H.
  assert (Hinv : forall lines st st',
             Forall (fun raw => test false sectionAlonePattern (trim raw) = false
                                /\ test false sectionInlinePattern (trim raw) = false)
                    lines ->
             sections st = [] -> currentSection st = None ->
             foldM computerLine lines st = Some st' ->
             sections st' = [] /\ currentSection st' = None).
  { induction lines as [|raw lines IH]; intros st st' Hl Hs Hc Hf;
      cbn [foldM] in Hf.
    - inversion Hf; subst. auto.
    - inversion Hl as [|? ? [Ha Hi] Hl']; subst.
      destruct (computerLine st raw) as [st1|] eqn:E; [|discriminate].
      cbn [bind] in Hf.
      destruct (computerLine_no_section st st1 raw Ha Hi Hs Hc E) as [Hs1 Hc1].
      now apply (IH st1 st'). }
  destruct (foldM computerLine (splitLines lawText) initialTextState) as [st|] eqn:E;
    [|discriminate].
  cbn [bind] in H. inversion H; subst.
  destruct (Hinv _ initialTextState st Hall eq_refl eq_refl E) as [Hs Hc].
  unfold pushCurrent. now rewrite Hc, Hs.
Qed.

Lemma computer_no_section (text : jstring) (act : ActIndexEntry) (pa : ParsedAct) :
  parseComputerLawText text act = Some pa ->
  Forall (fun raw => test false sectionAlonePattern (trim raw) = false
                     /\ test false sectionInlinePattern (trim raw) = false)
         (splitLines (lawTextOf text)) ->
  provisions pa = [].
Proof.
  unfold parseComputerLawText. intros H Hall.
  destruct (computerSections (lawTextOf text)) as [secs|] eqn:E; [|discriminate].
  apply (computerSections_no_section _ _ Hall) in E. subst secs.
  cbn [bind foldM] in H. now inversion H.
Qed.

Lemma basicLine_no_section (lines : list jstring) (i : nat) (st' : BasicState) :
  Forall (fun raw => test false basicSectionPattern (trim raw) = false) lines ->
  basicLine lines ([], None) i = Some st' -> st' = ([], None).
Proof.
  intros Hall. unfold basicLine.
  destruct (nth_error lines i) as [raw|] eqn:E; [|discriminate].
  cbn [bind]. apply nth_error_In in E.
  rewrite Forall_forall in Hall. specialize (Hall raw E).
  apply test_false in Hall. rewrite Hall. cbn [snd].
  intro H. now inversion H.
Qed.

Lemma basic_no_section (text : jstring) (act : ActIndexEntry) (pa : ParsedAct) :
  parseBasicLawText text act = Some pa ->
  Forall (fun raw => test false basicSectionPattern (trim raw) = false)
         (splitLines text) ->
  provisions pa = [].
Proof.
  unfold parseBasicLawText, basicSections. intros H Hall.
  assert (Hinv : forall l st',
             foldM (basicLine (splitLines text)) l ([], None) = Some st' ->
             st' = ([], None)).
  { induction l as [|i l IH]; intros st' Hf; cbn [foldM] in Hf.
    - now inversion Hf.
    - destruct (basicLine (splitLines text) ([], None) i) as [st1|] eqn:E;
        [|discriminate].
      cbn [bind] in Hf. apply (basicLine_no_section _ _ _ Hall) in E. subst st1.
      now apply IH. }
  destruct (foldM (basicLine (splitLines text)) _ ([], None)) as [st|] eqn:E;
    [|discriminate].
  apply Hinv in E. subst st. cbn in H. now inversion H.
Qed.

(** *** Inputs without the code unit every section heading starts with *)

Lemma no_first_no_match (ic : bool) (r : re) (s : jstring) :
  nullable r = false ->
  Forall (fun c => firstc ic r c = false) s ->
  test ic r s = false.
Proof.
  intros Hn Hs. unfold test.
  destruct (matchOnce ic r s) as [m|] eqn:E; [|reflexivity].
  apply (RegexFacts.search_sound ic anyHead) in E as (sk & w & H1 & _ & _ & _ & N1 & F1 & _).
  destruct w as [|c t]; [now elim (N1 Hn)|].
  subst s. apply Forall_app in Hs as [_ Hs]. apply Forall_app in Hs as [Hs _].
  inversion Hs as [|? ? Hc _]; subst. rewrite (F1 c t eq_refl) in Hc. discriminate.
Qed.

Lemma Forall_trimStart (P : cu -> Prop) (s : jstring) :
  Forall P s -> Forall P (trimStart s).
Proof.
  induction 1 as [|c s Hc Hs IH]; cbn [trimStart]; [constructor|].
  destruct (isWhiteSpace c); [exact IH|now constructor].
Qed.

Lemma Forall_trimEnd (P : cu -> Prop) (s : jstring) :
  Forall P s -> Forall P (trimEnd s).
Proof.
  induction 1 as [|c s Hc Hs IH]; cbn [trimEnd]; [constructor|].
  destruct (trimEnd s).
  - destruct (isWhiteSpace c); repeat constructor; auto.
  - now constructor.
Qed.

Lemma Forall_trim (P : cu -> Prop) (s : jstring) : Forall P s -> Forall P (trim s).
Proof. intro H. unfold trim. now apply Forall_trimEnd, Forall_trimStart. Qed.

Lemma Forall_splitLines (P : cu -> Prop) (s : jstring) :
  Forall P s -> Forall (Forall P) (splitLines s).
Proof.
  induction 1 as [|c s Hc Hs IH]; cbn [splitLines]; [repeat constructor|].
  destruct (c =? 10)%N; [now repeat constructor|].
  destruct (splitLines s) as [|l ls]; [repeat constructor; auto|].
  inversion IH; subst. constructor; [now constructor|assumption].
Qed.

Lemma Forall_substring (P : cu -> Prop) (a b : nat) (s : jstring) :
  Forall P s -> Forall P (substring a b s).
Proof.
  intro H. unfold substring. cbv zeta.
  generalize (Nat.min (Nat.min a (length s)) (Nat.min b (length s))) as lo.
  generalize (Nat.max (Nat.min a (length s)) (Nat.min b (length s))) as hi.
  intros hi lo.
  rewrite <- (firstn_skipn lo s) in H. apply Forall_app in H as [_ H].
  rewrite <- (firstn_skipn (hi - lo) (skipn lo s)) in H.
  now apply Forall_app in H as [H _].
Qed.

Lemma Forall_lawTextOf (P : cu -> Prop) (text : jstring) :
  Forall P text -> Forall P (lawTextOf text).
Proof.
  intro H. unfold lawTextOf. destruct (0 <=? _)%Z; [|exact H].
  now apply Forall_substring.
Qed.

Lemma Forall_privacyBody (P : cu -> Prop) (html : jstring) :
  Forall P html -> Forall P (privacyBody html).
Proof.
  intro H. unfold privacyBody.
  destruct (matchOnce true bodyPattern html) as [m|] eqn:E; [|exact H].
  apply (RegexFacts.search_sound true anyHead) in E as (sk & w & H1 & _ & _ & H4 & _).
  rewrite H4. subst html. apply Forall_app in H as [_ H].
  now apply Forall_app in H as [H _].
Qed.

Lemma section_needs_tag (c : cu) :
  c <> lessThan -> firstc true sectionPattern c = false.
Proof.
  intro Hc. unfold sectionPattern.
  cbn [cat lit firstc nullable cmatch existsb imatch andb orb].
  rewrite !orb_false_r. unfold canon, cu_eqb. cbn [andb].
  change (isLower (N_of_ascii "<")) with false. cbv iota.
  change (N_of_ascii "<") with lessThan.
  apply N.eqb_neq. unfold lessThan in *.
  destruct (isLower c) eqn:El; [|congruence].
  unfold isLower in El. apply andb_true_iff in El as [E1 E2].
  apply N.leb_le in E1, E2. lia.
Qed.

Lemma section_line_needs_digit (c : cu) :
  isDigit c = false ->
  firstc false sectionAlonePattern c = false
  /\ firstc false sectionInlinePattern c = false
  /\ firstc false basicSectionPattern c = false.
Proof.
  intro Hc. unfold sectionAlonePattern, sectionInlinePattern, basicSectionPattern.
  cbn [cat firstc Plus Opt nullable cmatch digit existsb imatch andb orb].
  rewrite Hc. auto.
Qed.

Lemma no_digit_no_section_line (ic : bool) (r : re) (text : jstring) :
  nullable r = false ->
  (forall c, isDigit c = false -> firstc ic r c = false) ->
  Forall (fun c => isDigit c = false) text ->
  Forall (fun raw => test ic r (trim raw) = false) (splitLines text).
Proof.
  intros Hn Hr Ht. apply Forall_splitLines in Ht.
  eapply Forall_impl; [|exact Ht]. intros raw Hraw.
  apply no_first_no_match; [exact Hn|].
  apply Forall_trim. eapply Forall_impl; [|exact Hraw]. exact Hr.
Qed.

Lemma computer_no_digit (text : jstring) (act : ActIndexEntry) (pa : ParsedAct) :
  parseComputerLawText text act = Some pa ->
  Forall (fun c => isDigit c = false) text ->
  provisions pa = [].
Proof.
  intros H Ht. apply (computer_no_section text act pa H).
  apply Forall_lawTextOf in Ht.
  pose proof (no_digit_no_section_line false sectionAlonePattern _ eq_refl
                (fun c Hc => proj1 (section_line_needs_digit c Hc)) Ht) as Ha.
  pose proof (no_digit_no_section_line false sectionInlinePattern _ eq_refl
                (fun c Hc => proj1 (proj2 (section_line_needs_digit c Hc))) Ht) as Hi.
  rewrite Forall_forall in *. intros raw Hraw. split; auto.
Qed.

Lemma basic_no_digit (text : jstring) (act : ActIndexEntry) (pa : ParsedAct) :
  parseBasicLawText text act = Some pa ->
  Forall (fun c => isDigit c = false) text ->
  provisions pa = [].
Proof.
  intros H Ht. apply (basic_no_section text act pa H).
  exact (no_digit_no_section_line false basicSectionPattern _ eq_refl
           (fun c Hc => proj2 (proj2 (section_line_needs_digit c Hc))) Ht).
Qed.

Lemma privacy_no_tag (html : jstring) (act : ActIndexEntry) (pa : ParsedAct) :
  parsePrivacyLawHtml html act = Some pa ->
  Forall (fun c => c <> lessThan) html ->
  provisions pa = [].
Proof.
  intros H Ht. apply (privacy_no_section html act pa H).
  apply no_first_no_match; [reflexivity|].
  apply Forall_privacyBody in Ht.
  eapply Forall_impl; [|exact Ht]. exact section_needs_tag.
Qed.

Lemma israeli_no_tag (html : jstring) (act : ActIndexEntry) (pa : ParsedAct) :
  parseIsraeliLawHtml html act = Some pa ->
  Forall (fun c => c <> lessThan) html ->
  provisions pa = [].
Proof.
  intros H Ht. apply (israeli_no_section html act pa H).
  apply no_first_no_match; [reflexivity|].
  assert (Hb : Forall (fun c => c <> lessThan) (htmlBodyFor act html)).
  { unfold htmlBodyFor. destruct (JS.eqb _ _); [now apply Forall_privacyBody|exact Ht]. }
  eapply Forall_impl; [|exact Hb]. exact section_needs_tag.
Qed.

(** Checking a condition on every line by evaluation. *)
Lemma Forall_check {A : Type} (P : A -> Prop) (f : A -> bool) (l : list A) :
  (forall x, f x = true -> P x) -> forallb f l = true -> Forall P l.
Proof.
  intros Hf H. apply Forall_forall. intros x Hx.
  apply Hf. rewrite forallb_forall in H. now apply H.
Qed.

(** C1: whatever the raw text and the act identity record, each of the
    four parse functions returns a ParsedAct: no step of the model throws
    (an undefined capture or array element used as a string) and no
    matching loop runs forever.  An input in which the strategy finds no
    section heading yields an empty sequence of provisions; such are the
    inputs without the code unit a heading must start with, a digit for the
    plain-text variants and the less-than sign for the HTML ones. *)
Theorem C1_parsers_always_return (text : jstring) (act : ActIndexEntry) :
  (exists pa,
      parsePrivacyLawHtml text act = Some pa
      /\ (test true sectionPattern (privacyBody text) = false ->
          provisions pa = [])
      /\ (Forall (fun c => c <> lessThan) text -> provisions pa = []))
  /\ (exists pa,
         parseComputerLawText text act = Some pa
         /\ (Forall (fun raw =>
                       test false sectionAlonePattern (trim raw) = false
                       /\ test false sectionInlinePattern (trim raw) = false)
                    (splitLines (lawTextOf text)) ->
             provisions pa = [])
         /\ (Forall (fun c => isDigit c = false) text -> provisions pa = []))
  /\ (exists pa,
         parseBasicLawText text act = Some pa
         /\ (Forall (fun raw => test false basicSectionPattern (trim raw) = false)
                    (splitLines text) ->
             provisions pa = [])
         /\ (Forall (fun c => isDigit c = false) text -> provisions pa = []))
  /\ (exists pa,
         parseIsraeliLawHtml text act = Some pa
         /\ (test true sectionPattern (htmlBodyFor act text) = false ->
             provisions pa = [])
         /\ (Forall (fun c => c <> lessThan) text -> provisions pa = [])).
Proof.
  repeat split.
  - destruct (Totality.parsePrivacyLawHtml_total text act) as [pa H].
    exists pa. split; [exact H|]. split.
    + now apply (privacy_no_section text act).
    + now apply (privacy_no_tag text act).
  - destruct (Totality.parseComputerLawText_total text act) as [pa H].
    exists pa. split; [exact H|]. split.
    + now apply (computer_no_section text act).
    + now apply (computer_no_digit text act).
  - destruct (Totality.parseBasicLawText_total text act) as [pa H].
    exists pa. split; [exact H|]. split.
    + now apply (basic_no_section text act).
    + now apply (basic_no_digit text act).
  - destruct (Totality.parseIsraeliLawHtml_total text act) as [pa H].
    exists pa. split; [exact H|]. split.
    + now apply (israeli_no_section text act).
    + now apply (israeli_no_tag text act).
Qed.

Lemma C1_witness :
  (exists pa, parsePrivacyLawHtml proseText sampleAct = Some pa /\ provisions pa = [])
  /\ (exists pa, parseComputerLawText proseText sampleAct = Some pa /\ provisions pa = [])
  /\ (exists pa, parseBasicLawText proseText sampleAct = Some pa /\ provisions pa = [])
  /\ (exists pa, parseIsraeliLawHtml proseText sampleAct = Some pa /\ provisions pa = []).
Proof.
  destruct (C1_parsers_always_return proseText sampleAct)
    as ((p1 & H1 & E1 & _) & (p2 & H2 & E2 & _) & (p3 & H3 & _ & E3)
        & (p4 & H4 & _ & E4)).
  repeat split.
  - exists p1. split; [exact H1|]. apply E1. vm_compute. reflexivity.
  - exists p2. split; [exact H2|]. apply E2.
    apply (Forall_check _ (fun raw =>
             negb (test false sectionAlonePattern (trim raw))
             && negb (test false sectionInlinePattern (trim raw)))).
    + intros raw H. apply andb_true_iff in H as [Ha Hi].
      apply negb_true_iff in Ha. apply negb_true_iff in Hi. now split.
    + vm_compute. reflexivity.
  - exists p3. split; [exact H3|]. apply E3.
    apply (Forall_check _ (fun c => negb (isDigit c))).
    + intros c H. now apply negb_true_iff in H.
    + vm_compute. reflexivity.
  - exists p4. split; [exact H4|]. apply E4.
    apply (Forall_check _ (fun c => negb (N.eqb c lessThan))).
    + intros c H. apply negb_true_iff in H. now apply N.eqb_neq.
    + vm_compute. reflexivity.
Defined.

(** *** Chapter attribution in the HTML strategies *)

Lemma insertChapter_In (c h : ChapterPos) (l : list ChapterPos) :
  In h (insertChapter c l) <-> h = c \/ In h l.
Proof.
  induction l as [|d l IH]; cbn [insertChapter].
  - cbn. intuition.
  - destruct (pos d <? pos c); cbn [In]; [rewrite IH|]; intuition.
Qed.

Lemma sortChapters_In (h : ChapterPos) (l : list ChapterPos) :
  In h (sortChapters l) <-> In h l.
Proof.
  induction l as [|c l IH]; cbn [sortChapters]; [reflexivity|].
  rewrite insertChapter_In, IH. cbn. intuition.
Qed.

Lemma insertChapter_sorted (c : ChapterPos) (l : list ChapterPos) :
  StronglySorted (fun a b => pos a <= pos b) l ->
  StronglySorted (fun a b => pos a <= pos b) (insertChapter c l).
Proof.
  induction 1 as [|d l Hs IH Hd]; cbn [insertChapter].
  - repeat constructor.
  - destruct (pos d <? pos c) eqn:E.
    + apply Nat.ltb_lt in E. constructor; [exact IH|].
      apply Forall_forall. intros h Hh.
      apply insertChapter_In in Hh as [->|Hh]; [lia|].
      rewrite Forall_forall in Hd. now apply Hd.
    + apply Nat.ltb_ge in E. constructor.
      * now constructor.
      * constructor; [exact E|].
        eapply Forall_impl; [|exact Hd]. cbn. intros a Ha. lia.
Qed.

Lemma sortChapters_sorted (l : list ChapterPos) :
  StronglySorted (fun a b => pos a <= pos b) (sortChapters l).
Proof.
  induction l as [|c l IH]; cbn [sortChapters]; [constructor|].
  now apply insertChapter_sorted.
Qed.

(** The scan over a list of headings sorted by offset ends on the heading
    nearest before the offset, or leaves the chapter as it was. *)
Lemma chapterAt_sorted (p : nat) (chapters : list ChapterPos) :
  StronglySorted (fun a b => pos a <= pos b) chapters ->
  forall cur,
    (chapterAt chapters p cur = cur
     /\ forall h, In h chapters -> p <= pos h)
    \/ (exists h, In h chapters /\ pos h < p
                  /\ chapterAt chapters p cur = name h
                  /\ forall h', In h' chapters -> pos h' < p -> pos h' <= pos h).
Proof.
  unfold chapterAt.
  induction 1 as [|c cs Hs IH Hc]; intro cur; cbn [fold_left].
  - left. split; [reflexivity|]. intros h [].
  - rewrite Forall_forall in Hc.
    destruct (IH (if pos c <? p then name c else cur))
      as [[E Hall]|(h & Hin & Hlt & E & Hmax)].
    + destruct (pos c <? p) eqn:Ep.
      * apply Nat.ltb_lt in Ep. right. exists c.
        repeat split; auto.
        -- now left.
        -- intros h' [<-|Hh'] Hlt; [lia|]. specialize (Hall _ Hh'). lia.
      * apply Nat.ltb_ge in Ep. left. split; [exact E|].
        intros h [<-|Hh]; auto.
    + right. exists h. repeat split; auto.
      * now right.
      * intros h' [<-|Hh'] Hlt'; [now apply Hc|now apply Hmax].
Qed.

Lemma orUndefined_nonempty (s : jstring) : s <> [] -> orUndefined s = Some s.
Proof. destruct s; [congruence|reflexivity]. Qed.

Section Attribution.

Variable body : jstring.
Variable chapters : list ChapterPos.
Hypothesis chapters_sorted : StronglySorted (fun a b => pos a <= pos b) chapters.
Hypothesis chapters_named : Forall (fun h => name h <> []) chapters.

(** The chapter the loop computes for one section. *)
Lemma chapterAt_attributed (sec : SectionMatch) (rest : list SectionMatch)
      (cur : jstring) (p : ParsedProvision) :
  StronglySorted (fun a b => sm_pos a < sm_pos b) (sec :: rest) ->
  carried chapters cur (sec :: rest) ->
  section p = sm_num sec -> p_title p = sm_title sec ->
  chapter p = orUndefined (chapterAt chapters (sm_pos sec) cur) ->
  attributed chapters sec p
  /\ carried chapters (chapterAt chapters (sm_pos sec) cur) rest.
Proof.
  intros Hs Hcar Hsec Htitle Hch.
  apply StronglySorted_inv in Hs as [_ Hlt]. rewrite Forall_forall in Hlt.
  destruct (chapterAt_sorted (sm_pos sec) chapters chapters_sorted cur)
    as [[E Hall]|(h & Hin & Hpos & E & Hmax)].
  - assert (Hcur : cur = []).
    { destruct Hcar as [Hcur|(h & Hin & Hh)]; [exact Hcur|].
      specialize (Hh sec (or_introl eq_refl)). specialize (Hall h Hin). lia. }
    rewrite E, Hcur in *. split; [|now left].
    unfold attributed. rewrite Hch. cbn [orUndefined]. auto.
  - rewrite E in *. split.
    + unfold attributed. rewrite Hch.
      rewrite Forall_forall in chapters_named.
      rewrite (orUndefined_nonempty _ (chapters_named h Hin)).
      repeat split; auto. exists h. auto.
    + right. exists h. split; [exact Hin|].
      intros sec' Hsec'. specialize (Hlt sec' Hsec'). lia.
Qed.

Lemma genericSections_attributed :
  forall secs cur provs,
    StronglySorted (fun a b => sm_pos a < sm_pos b) secs ->
    carried chapters cur secs ->
    exists new,
      genericSections body chapters secs cur provs = provs ++ new
      /\ Forall2 (attributed chapters) (emittedMatches body secs) new.
Proof.
  induction secs as [|sec rest IH]; intros cur provs Hs Hcar.
  - exists []. cbn [genericSections emittedMatches].
    split; [now rewrite app_nil_r|constructor].
  - rewrite genericSections_cons. cbv zeta. cbn [emittedMatches].
    destruct (10 <? length _) eqn:Elen.
    + match goal with
      | |- context [provs ++ [?q]] => set (p := q)
      end.
      destruct (chapterAt_attributed sec rest cur p Hs Hcar eq_refl eq_refl eq_refl)
        as [Hatt Hcar'].
      destruct (IH (chapterAt chapters (sm_pos sec) cur) (provs ++ [p])
                   (proj1 (StronglySorted_inv Hs)) Hcar') as (new & E & Hnew).
      exists (p :: new). split; [|now constructor].
      rewrite E, <- app_assoc. reflexivity.
    + assert (Hcar' : carried chapters (chapterAt chapters (sm_pos sec) cur) rest).
      { apply (chapterAt_attributed sec rest cur
                 {| provision_ref := [];
                    chapter := orUndefined (chapterAt chapters (sm_pos sec) cur);
                    section := sm_num sec; p_title := sm_title sec; content := [] |}
                 Hs Hcar eq_refl eq_refl eq_refl). }
      apply (IH _ provs (proj1 (StronglySorted_inv Hs)) Hcar').
Qed.

Lemma privacySections_attributed :
  forall secs cur provs defs r,
    StronglySorted (fun a b => sm_pos a < sm_pos b) secs ->
    carried chapters cur secs ->
    privacySections body chapters secs cur provs defs = Some r ->
    exists new,
      fst r = provs ++ new
      /\ Forall2 (attributed chapters) (emittedMatches body secs) new.
Proof.
  induction secs as [|sec rest IH]; intros cur provs defs r Hs Hcar H.
  - exists []. cbn [privacySections] in H. inversion H; subst.
    cbn [fst emittedMatches]. split; [now rewrite app_nil_r|constructor].
  - rewrite privacySections_cons in H. cbv zeta in H. cbn [emittedMatches].
    destruct (10 <? length _) eqn:Elen.
    + match type of H with
      | context [provs ++ [?q]] => set (p := q) in H
      end.
      destruct (chapterAt_attributed sec rest cur p Hs Hcar eq_refl eq_refl eq_refl)
        as [Hatt Hcar'].
      match type of H with
      | bind ?e _ = _ => destruct e as [defs'|]; [|discriminate]
      end.
      cbn [bind] in H.
      destruct (IH _ _ _ _ (proj1 (StronglySorted_inv Hs)) Hcar' H)
        as (new & E & Hnew).
      exists (p :: new). split; [|now constructor].
      rewrite E, <- app_assoc. reflexivity.
    + assert (Hcar' : carried chapters (chapterAt chapters (sm_pos sec) cur) rest).
      { apply (chapterAt_attributed sec rest cur
                 {| provision_ref := [];
                    chapter := orUndefined (chapterAt chapters (sm_pos sec) cur);
                    section := sm_num sec; p_title := sm_title sec; content := [] |}
                 Hs Hcar eq_refl eq_refl eq_refl). }
      apply (IH _ _ _ _ (proj1 (StronglySorted_inv Hs)) Hcar' H).
Qed.

End Attribution.

(** *** The name of a heading is never empty *)

Lemma replaceAll_head (ic : bool) (r : re) (rep : jstring) (c : cu) (s : jstring) :
  nullable r = false -> firstc ic r c = false ->
  headIs c s -> headIs c (replaceAll ic r rep s).
Proof.
  intros Hn Hf [xs ->]. unfold replaceAll. cbn [replaceLoop].
  pose proof (rmatch_first_fails ic r c xs 0 Hn Hf) as Hfail.
  destruct (search ic r 0 (c :: xs)) as [m|] eqn:E; [|now exists xs].
  destruct (RegexFacts.search_after_failure ic anyHead r c xs 0 m Hfail E)
    as (sk & Hidx & _).
  rewrite Hidx. cbn [Nat.sub firstn app]. eexists. reflexivity.
Qed.

Lemma trim_head (c : cu) (s : jstring) :
  isWhiteSpace c = false -> headIs c s -> headIs c (trim s).
Proof.
  intros Hc [t ->]. unfold trim. cbn [trimStart]. rewrite Hc.
  cbn [trimEnd]. destruct (trimEnd t); [rewrite Hc|]; eexists; reflexivity.
Qed.

Lemma letter_not_space (c : cu) : isLetter c = true -> isWhiteSpace c = false.
Proof.
  unfold isLetter, isUpper, isLower, isWhiteSpace. intro H.
  apply orb_true_iff in H.
  repeat rewrite orb_false_iff. repeat rewrite andb_false_iff.
  repeat rewrite N.leb_gt. repeat rewrite N.eqb_neq.
  repeat rewrite andb_true_iff in H. repeat rewrite N.leb_le in H.
  repeat split; lia.
Qed.

Lemma letter_neq (c a : cu) :
  isLetter c = true -> isLetter a = false -> cu_eqb a c = false.
Proof.
  intros Hc Ha. unfold cu_eqb. apply N.eqb_neq. intros ->. congruence.
Qed.

(** No pattern of the normalizer can match at a letter. *)
Lemma stripHtml_head (c : cu) (s : jstring) :
  isLetter c = true -> headIs c s -> headIs c (stripHtml s).
Proof.
  intros Hc H. pose proof (letter_not_space c Hc) as Hs.
  unfold stripHtml. apply trim_head; [exact Hs|].
  repeat (apply replaceAll_head; [reflexivity| |]); try exact H;
    cbn [firstc wsRun tagPattern Plus cat lit ws not1 nullable cmatch existsb
         imatch canon andb orb N_of_ascii N_of_digits];
    try (rewrite Hs; reflexivity);
    match goal with
    | |- cu_eqb ?a c || _ || _ = false =>
        rewrite (letter_neq c a Hc); [reflexivity|vm_compute; reflexivity]
    end.
Qed.

Lemma normalizeText_head (c : cu) (s : jstring) :
  isLetter c = true -> headIs c s -> headIs c (normalizeText s).
Proof.
  intros Hc H. pose proof (letter_not_space c Hc) as Hs.
  unfold normalizeText. apply trim_head; [exact Hs|].
  apply replaceAll_head; [reflexivity| |exact H].
  cbn [firstc wsRun Plus ws nullable cmatch existsb imatch andb orb].
  rewrite Hs. reflexivity.
Qed.

Lemma ci_letter (a c : cu) :
  isUpper a = true -> cu_eqb (canon true a) (canon true c) = true ->
  isLetter c = true.
Proof.
  unfold canon, isLetter. cbn [andb]. intros Ha H.
  assert (Hl : isLower a = false).
  { unfold isUpper, isLower in *. apply andb_true_iff in Ha as [_ Ha].
    apply N.leb_le in Ha. apply andb_false_iff. left. apply N.leb_gt. lia. }
  rewrite Hl in H. destruct (isLower c); [apply orb_true_r|].
  apply JSFacts.cu_eqb_eq in H. subst c. now rewrite Ha.
Qed.

(** The first group of the heading patterns starts with the C of CHAPTER,
    or the A of Article, in either case. *)
Lemma chapterPattern_letter : groupsHead true letterHead chapterPattern.
Proof.
  cbn [groupsHead chapterPattern cat lit Plus]. repeat split.
  intros c H.
  cbn [firstc cat lit Plus nullable cmatch existsb imatch andb ws not1] in H.
  rewrite !orb_false_r in H.
  match type of H with
  | cu_eqb (canon true ?a) _ = true =>
      apply (ci_letter a c); [vm_compute; reflexivity|exact H]
  end.
Qed.

Lemma articlePattern_letter : groupsHead true letterHead articlePattern.
Proof.
  cbn [groupsHead articlePattern cat lit Plus]. repeat split.
  intros c H.
  cbn [firstc cat lit Plus nullable cmatch existsb imatch andb ws not1] in H.
  rewrite !orb_false_r in H.
  match type of H with
  | cu_eqb (canon true ?a) _ = true =>
      apply (ci_letter a c); [vm_compute; reflexivity|exact H]
  end.
Qed.

Lemma StronglySorted_map {A B : Type} (f : A -> B) (R : B -> B -> Prop)
      (l : list A) :
  StronglySorted (fun a b => R (f a) (f b)) l <-> StronglySorted R (map f l).
Proof.
  induction l as [|x l IH]; cbn [map]; split; intro H;
    try constructor; apply StronglySorted_inv in H as [H1 H2].
  - now apply IH.
  - rewrite Forall_map. exact H2.
  - now apply IH.
  - rewrite Forall_map in H2. exact H2.
Qed.

Lemma StronglySorted_weaken {A : Type} (R R' : A -> A -> Prop) (l : list A) :
  (forall a b, R a b -> R' a b) -> StronglySorted R l -> StronglySorted R' l.
Proof.
  intros HR. induction 1 as [|x l Hs IH Hx]; constructor; [exact IH|].
  eapply Forall_impl; [|exact Hx]. intros a. apply HR.
Qed.

(** The headings of a pattern come in increasing order of offset and
    with a name that is not empty. *)
Lemma collectChapters_sound (pattern : re) (body : jstring) (chs : list ChapterPos) :
  groupsHead true letterHead pattern ->
  collectChapters pattern body = Some chs ->
  StronglySorted (fun a b => pos a < pos b) chs
  /\ Forall (fun h => name h <> []) chs.
Proof.
  intros Hg. unfold collectChapters, execAll.
  destruct (execLoop true (S (length body)) pattern 0 body) as [ms|] eqn:E;
    [|discriminate].
  cbn [bind]. intro H.
  apply (RegexFacts.execLoop_sound true letterHead) in E as [Hall Hs].
  revert chs H. induction ms as [|m ms IH]; intros chs H; cbn [mapM] in H.
  - inversion H; subst. split; constructor.
  - destruct (group 1 m) as [g|] eqn:Eg; [|discriminate]. cbn [bind] in H.
    destruct (mapM _ ms) as [ys|] eqn:Ey; [|discriminate]. cbn [bind] in H.
    inversion H; subst chs. clear H.
    inversion Hall as [|? ? (_ & _ & Hcaps) Hall']; subst.
    apply StronglySorted_inv in Hs as [Hs Hlt].
    destruct (IH Hall' Hs ys eq_refl) as [IH1 IH2].
    split.
    + constructor; [exact IH1|].
      assert (Hpos : forall ms' ys',
                 mapM (fun chMatch =>
                         g <- group 1 chMatch ;;
                         Some {| pos := m_index chMatch;
                                 name := normalizeText (stripHtml g) |}) ms'
                 = Some ys' ->
                 Forall (fun m' => m_index m < m_index m') ms' ->
                 Forall (fun h => m_index m < pos h) ys').
      { induction ms' as [|m' ms' IH']; intros ys' Hm Hf; cbn [mapM] in Hm.
        - inversion Hm; subst. constructor.
        - destruct (group 1 m') as [g'|]; [|discriminate]. cbn [bind] in Hm.
          destruct (mapM _ ms') as [zs|]; [|discriminate]. cbn [bind] in Hm.
          inversion Hm; subst. inversion Hf; subst.
          constructor; [assumption|]. now apply IH'. }
      exact (Hpos ms ys Ey Hlt).
    + constructor; [|exact IH2]. cbn [name].
      destruct (Hcaps Hg 1 g Eg) as (c & t & -> & Hc).
      destruct (normalizeText_head c (stripHtml (c :: t)) Hc) as [t' ->].
      * apply stripHtml_head; [exact Hc|]. now exists t.
      * discriminate.
Qed.

Lemma sectionMatches_positions (ms : list mresult) :
  forall secs,
    mapM (fun secMatch =>
            g1 <- group 1 secMatch ;;
            g2 <- group 2 secMatch ;;
            Some {| sm_pos := m_index secMatch;
                    sm_num := trim g1;
                    sm_title := normalizeText (stripHtml g2) |}) ms = Some secs ->
    map sm_pos secs = map m_index ms.
Proof.
  induction ms as [|m ms IH]; intros secs H; cbn [mapM] in H.
  - now inversion H.
  - destruct (group 1 m) as [g1|]; [|discriminate]. cbn [bind] in H.
    destruct (group 2 m) as [g2|]; [|discriminate]. cbn [bind] in H.
    destruct (mapM _ ms) as [ys|] eqn:Ey; [|discriminate]. cbn [bind] in H.
    inversion H; subst. cbn [map sm_pos]. f_equal. now apply IH.
Qed.

Lemma collectSections_sorted (body : jstring) (secs : list SectionMatch) :
  collectSections sectionPattern body = Some secs ->
  StronglySorted (fun a b => sm_pos a < sm_pos b) secs.
Proof.
  unfold collectSections, execAll.
  destruct (execLoop true (S (length body)) sectionPattern 0 body) as [ms|] eqn:E;
    [|discriminate].
  cbn [bind]. intro H.
  apply (RegexFacts.execLoop_sound true anyHead) in E as [_ Hs].
  apply sectionMatches_positions in H.
  apply (StronglySorted_map sm_pos lt). rewrite H.
  now apply (StronglySorted_map m_index lt).
Qed.

Lemma attributed_same_heads (heads heads' : list ChapterPos)
      (sec : SectionMatch) (p : ParsedProvision) :
  (forall h, In h heads <-> In h heads') ->
  attributed heads sec p -> attributed heads' sec p.
Proof.
  intros Hin (H1 & H2 & H3). repeat split; auto.
  destruct (chapter p) as [n|].
  - destruct H3 as (h & Hh & Hlt & Hn & Hmax). exists h.
    repeat split; auto; [now apply Hin|].
    intros h' Hh'. apply Hmax. now apply Hin.
  - intros h Hh. apply H3. now apply Hin.
Qed.

Lemma privacy_attributed (html : jstring) (act : ActIndexEntry) (pa : ParsedAct) :
  parsePrivacyLawHtml html act = Some pa ->
  exists chs arts secs,
    collectChapters chapterPattern (privacyBody html) = Some chs
    /\ collectChapters articlePattern (privacyBody html) = Some arts
    /\ collectSections sectionPattern (privacyBody html) = Some secs
    /\ Forall2 (attributed (chs ++ arts))
               (emittedMatches (privacyBody html) secs) (provisions pa).
Proof.
  unfold parsePrivacyLawHtml. intro H.
  destruct (collectChapters chapterPattern _) as [chs|] eqn:Ec; [|discriminate].
  destruct (collectChapters articlePattern _) as [arts|] eqn:Ea; [|discriminate].
  destruct (collectSections sectionPattern _) as [secs|] eqn:Es; [|discriminate].
  cbn [bind] in H.
  destruct (privacySections _ _ secs [] [] []) as [r|] eqn:Er; [|discriminate].
  cbn [bind] in H. inversion H; subst pa. clear H. cbn [provisions mkParsedAct].
  exists chs, arts, secs. repeat split.
  apply collectChapters_sound in Ec as [_ Hc]; [|exact chapterPattern_letter].
  apply collectChapters_sound in Ea as [_ Ha]; [|exact articlePattern_letter].
  apply collectSections_sorted in Es.
  destruct (privacySections_attributed (privacyBody html)
              (sortChapters (chs ++ arts)) (sortChapters_sorted _)) with
    (secs := secs) (cur := @nil cu) (provs := @nil ParsedProvision)
    (defs := @nil ParsedDefinition) (r := r) as (new & E & Hnew); auto.
  - apply Forall_forall. intros h Hh.
    apply (proj1 (sortChapters_In _ _)) in Hh.
    apply in_app_or in Hh as [Hh|Hh].
    + rewrite Forall_forall in Hc. now apply Hc.
    + rewrite Forall_forall in Ha. now apply Ha.
  - now left.
  - rewrite E. cbn [app].
    eapply Forall2_impl; [|exact Hnew].
    intros sec p. apply attributed_same_heads. intro h. apply sortChapters_In.
Qed.

Lemma generic_attributed (html : jstring) (act : ActIndexEntry) (pa : ParsedAct) :
  JS.eqb (id act) privacyLawId = false ->
  parseIsraeliLawHtml html act = Some pa ->
  exists chs secs,
    collectChapters chapterPattern html = Some chs
    /\ collectSections sectionPattern html = Some secs
    /\ Forall2 (attributed chs) (emittedMatches html secs) (provisions pa).
Proof.
  unfold parseIsraeliLawHtml. intros Hid H. rewrite Hid in H.
  destruct (collectChapters chapterPattern _) as [chs|] eqn:Ec; [|discriminate].
  destruct (collectSections sectionPattern _) as [secs|] eqn:Es; [|discriminate].
  cbn [bind] in H. inversion H; subst pa. clear H. cbn [provisions mkParsedAct].
  exists chs, secs. repeat split.
  apply collectChapters_sound in Ec as [Hs Hc]; [|exact chapterPattern_letter].
  apply collectSections_sorted in Es.
  destruct (genericSections_attributed html chs) with
    (secs := secs) (cur := @nil cu) (provs := @nil ParsedProvision)
    as (new & E & Hnew); auto.
  - eapply StronglySorted_weaken; [|exact Hs]. cbn. intros a b. lia.
  - now left.
  - rewrite E. exact Hnew.
Qed.

(** The generic fallback scans for chapter headings only.  On a document
    with an Article heading between two sections, the second section keeps
    the chapter of the CHAPTER heading at offset 0, although the Article
    heading at offset 61 is the heading of greatest offset below the
    section at offset 92: over the chapter and article headings together
    the attribution fails. *)
Lemma C2_counterexample :
  JS.eqb (id sampleAct) privacyLawId = false
  /\ collectChapters chapterPattern articleHtml
     = Some [{| pos := 0; name := str "CHAPTER A: Intro" |}]
  /\ collectChapters articlePattern articleHtml
     = Some [{| pos := 61; name := str "Article One: Data Bases" |}]
  /\ option_map (map sm_pos) (collectSections sectionPattern articleHtml)
     = Some [24; 92]
  /\ option_map (map chapter)
                (option_map provisions (parseIsraeliLawHtml articleHtml sampleAct))
     = Some [Some (str "CHAPTER A: Intro"); Some (str "CHAPTER A: Intro")]
  /\ (forall chs arts secs pa,
         collectChapters chapterPattern articleHtml = Some chs ->
         collectChapters articlePattern articleHtml = Some arts ->
         collectSections sectionPattern articleHtml = Some secs ->
         parseIsraeliLawHtml articleHtml sampleAct = Some pa ->
         ~ Forall2 (attributed (chs ++ arts))
                   (emittedMatches articleHtml secs) (provisions pa)).
Proof.
  repeat (split; [vm_compute; reflexivity|]).
  intros chs arts secs pa Hc Ha Hs Hp HF.
  vm_compute in Hc, Ha, Hs, Hp.
  inversion Hc; subst chs. inversion Ha; subst arts.
  inversion Hs; subst secs. inversion Hp; subst pa. clear Hc Ha Hs Hp.
  vm_compute in HF.
  inversion HF as [|? ? ? ? _ HF2]; subst.
  inversion HF2 as [|? ? ? ? Hatt _]; subst. clear HF HF2.
  vm_compute in Hatt. destruct Hatt as (_ & _ & h & Hin & Hlt & Hn & Hmax).
  assert (H61 : 61 <= pos h).
  { apply (Hmax {| pos := 61; name := str "Article One: Data Bases" |}).
    - right. left. reflexivity.
    - cbn [pos]. lia. }
  destruct Hin as [<-|[<-|[]]].
  - cbn [pos] in H61. lia.
  - discriminate Hn.
Qed.

(** C2, amended: in the HTML strategies every emitted provision comes
    from a section match, in order, and its chapter is the normalized name
    of the heading of greatest offset strictly below the offset of the
    section match; a section whose offset precedes the offset of every
    heading is emitted without chapter.  The headings are the chapter
    headings and the merged article headings in parsePrivacyLawHtml (to
    which parseIsraeliLawHtml hands the privacy law), and the chapter
    headings alone in the generic fallback of parseIsraeliLawHtml, which
    collects no article heading. *)
Theorem C2_nearest_preceding_chapter :
  (forall (html : jstring) (act : ActIndexEntry) (pa : ParsedAct),
      parsePrivacyLawHtml html act = Some pa ->
      exists chs arts secs,
        collectChapters chapterPattern (privacyBody html) = Some chs
        /\ collectChapters articlePattern (privacyBody html) = Some arts
        /\ collectSections sectionPattern (privacyBody html) = Some secs
        /\ Forall2 (attributed (chs ++ arts))
                   (emittedMatches (privacyBody html) secs) (provisions pa))
  /\ (forall (html : jstring) (act : ActIndexEntry) (pa : ParsedAct),
         parseIsraeliLawHtml html act = Some pa ->
         if JS.eqb (id act) privacyLawId
         then parsePrivacyLawHtml html act = Some pa
         else exists chs secs,
             collectChapters chapterPattern html = Some chs
             /\ collectSections sectionPattern html = Some secs
             /\ Forall2 (attributed chs) (emittedMatches html secs) (provisions pa))
  /\ option_map provisions (parsePrivacyLawHtml chapterHtml sampleAct)
     = Some [prov "sec1" (Some (str "CHAPTER A: Intro")) "1" "First"
                  "1. First some content exceeding ten chars";
             prov "sec2" (Some (str "CHAPTER A: Intro")) "2" "Second"
                  "2. Second more content exceeding ten chars"]
  /\ option_map provisions (parseIsraeliLawHtml chapterHtml sampleAct)
     = option_map provisions (parsePrivacyLawHtml chapterHtml sampleAct)
  /\ option_map (map chapter) (option_map provisions
                                 (parsePrivacyLawHtml lateChapterHtml sampleAct))
     = Some [None; Some (str "CHAPTER A: Intro")]
  /\ option_map (map chapter) (option_map provisions
                                 (parseIsraeliLawHtml lateChapterHtml sampleAct))
     = Some [None; Some (str "CHAPTER A: Intro")]
  /\ option_map (map chapter) (option_map provisions
                                 (parsePrivacyLawHtml articleHtml sampleAct))
     = Some [Some (str "CHAPTER A: Intro"); Some (str "Article One: Data Bases")]
  /\ option_map (map chapter) (option_map provisions
                                 (parseIsraeliLawHtml articleHtml sampleAct))
     = Some [Some (str "CHAPTER A: Intro"); Some (str "CHAPTER A: Intro")].
Proof.
  split; [|split; [|evaluate]].
  - exact privacy_attributed.
  - intros html act pa H.
    destruct (JS.eqb (id act) privacyLawId) eqn:Hid.
    + unfold parseIsraeliLawHtml in H. now rewrite Hid in H.
    + now apply (generic_attributed html act).
Qed.

Lemma C2_witness :
  exists chs arts secs,
    collectChapters chapterPattern (privacyBody chapterHtml) = Some chs
    /\ collectChapters articlePattern (privacyBody chapterHtml) = Some arts
    /\ collectSections sectionPattern (privacyBody chapterHtml) = Some secs
    /\ Forall2 (attributed (chs ++ arts))
               (emittedMatches (privacyBody chapterHtml) secs)
               [prov "sec1" (Some (str "CHAPTER A: Intro")) "1" "First"
                     "1. First some content exceeding ten chars";
                prov "sec2" (Some (str "CHAPTER A: Intro")) "2" "Second"
                     "2. Second more content exceeding ten chars"].
Proof.
  apply (proj1 C2_nearest_preceding_chapter chapterHtml sampleAct
               (mkParsedAct sampleAct
                  [prov "sec1" (Some (str "CHAPTER A: Intro")) "1" "First"
                        "1. First some content exceeding ten chars";
                   prov "sec2" (Some (str "CHAPTER A: Intro")) "2" "Second"
                        "2. Second more content exceeding ten chars"] [])).
  vm_compute. reflexivity.
Defined.

(** *** The marginal-title scenario of the statute state machine *)

(** C3: on the marginal-title scenario the statute state machine yields
    exactly two provisions, in order: section 1 with the title
    Marginal Title, taken from the marginal-note buffer, and the body
    line as content; section 2 with an empty title and the whole inline
    line as content, the accumulator having been seeded with it. *)
Theorem C3_marginal_title_scenario (act : ActIndexEntry) :
  option_map provisions (parseComputerLawText scenarioText act)
  = Some [prov "sec1" None "1" "Marginal Title"
               "Body text here that is long enough.";
          prov "sec2" None "2" ""
               "2. Inline body text also long enough."]
  /\ startsWith (str "2. Inline body text")
                (str "2. Inline body text also long enough.") = true
  /\ option_map marginalNoteLines
                (computerLine initialTextState (str "Marginal Title"))
     = Some [str "Marginal Title"]
  /\ option_map currentSection
                (foldM computerLine (splitLines scenarioText) initialTextState)
     = Some (Some {| num := str "2"; s_title := [];
                     s_content := str "2. Inline body text also long enough.";
                     s_chapter := [] |}).
Proof. evaluate. Qed.

(** *** The content threshold *)

(** C4: in every strategy a recognized section is emitted if and only
    if its normalized content is longer than 10 characters: the emitted
    provisions are, in order, the recognized sections that pass, and the
    others are dropped.  The plain text 1. a yields no provision, content
    of 10 characters is dropped and content of 11 characters is kept. *)
Theorem C4_content_threshold :
  (forall (s : Strategy) (text : jstring) (act : ActIndexEntry) (pa : ParsedAct),
      run s text act = Some pa ->
      exists l,
        recognizedBy s text act = Some l
        /\ emitted (provisions pa)
           = map (fun lc : Recognized =>
                    (fst lc, substring 0 maxContentLength (snd lc)))
                 (filter (fun lc : Recognized => 10 <? length (snd lc)) l)
        /\ (forall lab c', In (lab, c') (emitted (provisions pa)) <->
                           exists c, In (lab, c) l /\ 10 < length c
                                     /\ c' = substring 0 maxContentLength c))
  /\ option_map provisions (parseComputerLawText text4 sampleAct) = Some []
  /\ option_map provisions (parseBasicLawText text4 sampleAct) = Some []
  /\ option_map provisions (parseComputerLawText text10 sampleAct) = Some []
  /\ option_map provisions (parseBasicLawText text10 sampleAct) = Some []
  /\ option_map provisions (parsePrivacyLawHtml html10 sampleAct) = Some []
  /\ option_map provisions (parseIsraeliLawHtml html10 sampleAct) = Some []
  /\ option_map provisions (parseComputerLawText text11 sampleAct)
     = Some [prov "sec1" None "1" "" "1. abcdefgh"]
  /\ option_map provisions (parseBasicLawText text11 sampleAct)
     = Some [prov "sec1" None "1" "" "1. abcdefgh"]
  /\ option_map provisions (parsePrivacyLawHtml html11 sampleAct)
     = Some [prov "sec1" None "1" "abcdefgh" "1. abcdefgh"]
  /\ option_map provisions (parseIsraeliLawHtml html11 sampleAct)
     = Some [prov "sec1" None "1" "abcdefgh" "1. abcdefgh"].
Proof.
  split.
  - intros s text act pa H.
    apply run_emitted in H as (l & Hl & He). exists l.
    split; [exact Hl|]. split; [exact He|].
    intros lab c'. rewrite He. apply kept_In.
  - evaluate.
Qed.

Lemma C4_witness :
  exists l,
    recognizedBy ComputerText text11 sampleAct = Some l
    /\ emitted [prov "sec1" None "1" "" "1. abcdefgh"]
       = map (fun lc : Recognized =>
                (fst lc, substring 0 maxContentLength (snd lc)))
             (filter (fun lc : Recognized => 10 <? length (snd lc)) l)
    /\ (forall lab c',
           In (lab, c') (emitted [prov "sec1" None "1" "" "1. abcdefgh"]) <->
           exists c, In (lab, c) l /\ 10 < length c
                     /\ c' = substring 0 maxContentLength c).
Proof.
  apply (proj1 C4_content_threshold ComputerText text11 sampleAct
               (mkParsedAct sampleAct [prov "sec1" None "1" "" "1. abcdefgh"] [])).
  vm_compute. reflexivity.
Defined.

(** *** The cap on the content *)

(** C5: in every strategy the content of an emitted provision is the
    normalized content of its section cut to its first 8000 characters:
    it never exceeds 8000 characters, and normalized content of 9000
    characters is emitted with exactly 8000. *)
Theorem C5_content_truncated :
  (forall (s : Strategy) (text : jstring) (act : ActIndexEntry) (pa : ParsedAct),
      run s text act = Some pa ->
      Forall (fun p => (N.of_nat (length (content p)) <= 8000)%N) (provisions pa)
      /\ exists l,
          recognizedBy s text act = Some l
          /\ forall p,
              In p (provisions pa) ->
              exists c,
                In (section p, c) l
                /\ content p = firstn (N.to_nat 8000) c
                /\ N.of_nat (length (content p))
                   = N.min 8000 (N.of_nat (length c))
                /\ (N.of_nat (length c) = 9000%N ->
                    N.of_nat (length (content p)) = 8000%N))
  /\ option_map (fun pa => map (fun p => N.of_nat (length (content p))) (provisions pa))
                (parseComputerLawText text9000 sampleAct) = Some [8000%N]
  /\ option_map (fun pa => map (fun p => N.of_nat (length (content p))) (provisions pa))
                (parseBasicLawText text9000 sampleAct) = Some [8000%N]
  /\ option_map (fun pa => map (fun p => N.of_nat (length (content p))) (provisions pa))
                (parsePrivacyLawHtml html9000 sampleAct) = Some [8000%N]
  /\ option_map (fun pa => map (fun p => N.of_nat (length (content p))) (provisions pa))
                (parseIsraeliLawHtml html9000 sampleAct) = Some [8000%N]
  /\ option_map (map (fun lc : Recognized => N.of_nat (length (snd lc))))
                (recognizedBy BasicText text9000 sampleAct) = Some [9000%N].
Proof.
  split; [|evaluate].
  intros s text act pa H.
  apply run_emitted in H as (l & Hl & He).
  assert (Hp : forall p, In p (provisions pa) ->
                         exists c, In (section p, c) l
                                   /\ content p = firstn (N.to_nat 8000) c).
  { intros p Hin.
    assert (Hin' : In (section p, content p) (emitted (provisions pa))).
    { unfold emitted. apply in_map_iff. now exists p. }
    rewrite He in Hin'. apply kept_In in Hin' as (c & Hc & _ & E).
    exists c. split; [exact Hc|].
    rewrite E, JSFacts.substring_0. reflexivity. }
  split.
  - apply Forall_forall. intros p Hin.
    destruct (Hp p Hin) as (c & _ & ->). rewrite length_firstn. lia.
  - exists l. split; [exact Hl|]. intros p Hin.
    destruct (Hp p Hin) as (c & Hc & E). exists c.
    rewrite E, length_firstn. repeat split; auto; lia.
Qed.

Lemma C5_witness :
  Forall (fun p => (N.of_nat (length (content p)) <= 8000)%N)
         [prov "sec1" None "1" "" "1. abcdefgh"]
  /\ exists l,
      recognizedBy ComputerText text11 sampleAct = Some l
      /\ forall p,
          In p [prov "sec1" None "1" "" "1. abcdefgh"] ->
          exists c,
            In (section p, c) l
            /\ content p = firstn (N.to_nat 8000) c
            /\ N.of_nat (length (content p))
               = N.min 8000 (N.of_nat (length c))
            /\ (N.of_nat (length c) = 9000%N ->
                N.of_nat (length (content p)) = 8000%N).
Proof.
  apply (proj1 C5_content_truncated ComputerText text11 sampleAct
               (mkParsedAct sampleAct [prov "sec1" None "1" "" "1. abcdefgh"] [])).
  vm_compute. reflexivity.
Defined.

(** *** The thresholds of the definition extractors *)

(** The code rejects a term of one character and a term of 80
    characters, whatever the definition. *)
Lemma C6_counterexample :
  extractDefinitionsFromContent (quoted (str "x") "a defined thing") (str "sec3") []
  = Some []
  /\ extractDefinitionsFromPlainText (quoted (str "x") "a defined thing") (str "sec1") []
     = Some []
  /\ extractDefinitionsFromContent (quoted term80 "a defined thing") (str "sec3") []
     = Some []
  /\ extractDefinitionsFromPlainText (quoted term80 "a defined thing") (str "sec1") []
     = Some [].
Proof. evaluate. Qed.

(** C6, amended: in both extractors a quoted-term match is appended
    exactly when the normalized term has from 2 to 79 characters, the
    normalized definition without its final semicolon has more than 5
    characters, and the term has not been captured before (in the plain
    text extractor: neither seen during this call nor present in the
    definitions).  Terms of 2 and of 79 characters are accepted. *)
Theorem C6_definition_thresholds :
  (forall (sp : jstring) (defs : list ParsedDefinition) (m : mresult)
          (t d : jstring),
      group 1 m = Some t -> group 2 m = Some d ->
      contentDefStep sp defs m
      = Some (if (2 <=? length (normalizeText t))
                 && (length (normalizeText t) <=? 79)
                 && (5 <? length (trim (dropFinalSemicolon (normalizeText d))))
                 && negb (hasTerm (normalizeText t) defs)
              then defs ++ [{| term := normalizeText t;
                               definition := trim (dropFinalSemicolon (normalizeText d));
                               source_provision := Some sp |}]
              else defs))
  /\ (forall (sp : jstring) (seen : list jstring) (defs : list ParsedDefinition)
             (m : mresult) (t d : jstring),
         group 1 m = Some t -> group 2 m = Some d ->
         option_map snd (plainDefStep sp (seen, defs) m)
         = Some (if (2 <=? length (normalizeText t))
                    && (length (normalizeText t) <=? 79)
                    && (5 <? length (trim (dropFinalSemicolon (normalizeText d))))
                    && negb (existsb (JS.eqb (normalizeText t)) seen)
                    && negb (hasTerm (normalizeText t) defs)
                 then defs ++ [{| term := normalizeText t;
                                  definition := trim (dropFinalSemicolon (normalizeText d));
                                  source_provision := Some sp |}]
                 else defs))
  /\ extractDefinitionsFromContent (quoted (str "xy") "a defined thing") (str "sec3") []
     = Some [def (str "xy") "a defined thing" "sec3"]
  /\ extractDefinitionsFromPlainText (quoted (str "xy") "a defined thing") (str "sec1") []
     = Some [def (str "xy") "a defined thing" "sec1"]
  /\ extractDefinitionsFromContent (quoted term79 "a defined thing") (str "sec3") []
     = Some [def term79 "a defined thing" "sec3"]
  /\ extractDefinitionsFromPlainText (quoted term79 "a defined thing") (str "sec1") []
     = Some [def term79 "a defined thing" "sec1"]
  /\ extractDefinitionsFromContent (quoted (str "xy") "short") (str "sec3") []
     = Some []
  /\ extractDefinitionsFromContent (quoted (str "xy") "longer") (str "sec3") []
     = Some [def (str "xy") "longer" "sec3"].
Proof.
  split; [|split; [|evaluate]].
  - intros sp defs m t d H1 H2. unfold contentDefStep. rewrite H1, H2.
    cbn [bind].
    replace (1 <? length (normalizeText t)) with (2 <=? length (normalizeText t))
      by reflexivity.
    replace (length (normalizeText t) <? 80) with (length (normalizeText t) <=? 79)
      by reflexivity.
    destruct (_ && _ && _); [|reflexivity].
    now destruct (hasTerm (normalizeText t) defs).
  - intros sp seen defs m t d H1 H2. unfold plainDefStep. rewrite H1, H2.
    cbn [bind].
    replace (1 <? length (normalizeText t)) with (2 <=? length (normalizeText t))
      by reflexivity.
    replace (length (normalizeText t) <? 80) with (length (normalizeText t) <=? 79)
      by reflexivity.
    destruct (_ && _ && _ && _); [|reflexivity].
    now destruct (hasTerm (normalizeText t) defs).
Qed.

Lemma C6_witness :
  contentDefStep (str "sec3") []
    (MResult 0 22 (quoted (str "xy") "a defined thing")
             [(2, str "a defined thing;"); (1, str "xy")] [])
  = Some [def (str "xy") "a defined thing" "sec3"].
Proof.
  rewrite (proj1 C6_definition_thresholds (str "sec3") []
             (MResult 0 22 (quoted (str "xy") "a defined thing")
                      [(2, str "a defined thing;"); (1, str "xy")] [])
             (str "xy") (str "a defined thing;") eq_refl eq_refl).
  vm_compute. reflexivity.
Defined.

(** *** Distinct terms, first occurrence first *)

(** On the content of the claim the term x has one character, below the
    threshold of the extractors: no Definition at all comes out. *)
Lemma C7_counterexample :
  extractDefinitionsFromContent (dupContent "x") (str "sec3") [] = Some []
  /\ extractDefinitionsFromPlainText (dupContent "x") (str "sec1") [] = Some [].
Proof. evaluate. Qed.

Lemma hasTerm_false (t : jstring) (defs : list ParsedDefinition) :
  hasTerm t defs = false -> ~ In t (map term defs).
Proof.
  unfold hasTerm. intros H Hin. apply in_map_iff in Hin as (d & E & Hd).
  assert (Ht : existsb (fun d => JS.eqb (term d) t) defs = true).
  { apply existsb_exists. exists d. split; [exact Hd|].
    rewrite E. apply JSFacts.eqb_refl. }
  congruence.
Qed.

Lemma extends_refl (defs : list ParsedDefinition) : extends defs defs.
Proof. split; [exists []; now rewrite app_nil_r|auto]. Qed.

Lemma extends_trans (a b c : list ParsedDefinition) :
  extends a b -> extends b c -> extends a c.
Proof.
  intros [[x ->] H1] [[y ->] H2]. split; [|auto].
  exists (x ++ y). now rewrite app_assoc.
Qed.

Lemma extends_push (defs : list ParsedDefinition) (d : ParsedDefinition) :
  hasTerm (term d) defs = false -> extends defs (defs ++ [d]).
Proof.
  intro H. split; [now exists [d]|]. intro Hnd.
  rewrite map_app. simpl. apply NoDup_app.
  - exact Hnd.
  - repeat constructor. intros [].
  - intros x Hx [<-|[]]. now apply (hasTerm_false _ _ H).
Qed.

Lemma contentDefStep_extends (sp : jstring) (defs defs' : list ParsedDefinition)
      (m : mresult) :
  contentDefStep sp defs m = Some defs' -> extends defs defs'.
Proof.
  unfold contentDefStep. intro H.
  destruct (group 1 m) as [t|]; [|discriminate].
  destruct (group 2 m) as [d|]; [|discriminate]. cbn [bind] in H.
  destruct (_ && _ && _).
  - destruct (hasTerm (normalizeText t) defs) eqn:E; cbn [negb] in H;
      inversion H; subst; [apply extends_refl|].
    now apply extends_push.
  - inversion H; subst. apply extends_refl.
Qed.

Lemma plainDefStep_extends (sp : jstring) (st st' : list jstring * list ParsedDefinition)
      (m : mresult) :
  plainDefStep sp st m = Some st' -> extends (snd st) (snd st').
Proof.
  destruct st as [seen defs]. unfold plainDefStep. intro H.
  destruct (group 1 m) as [t|]; [|discriminate].
  destruct (group 2 m) as [d|]; [|discriminate]. cbn [bind] in H.
  destruct (_ && _ && _ && _).
  - destruct (hasTerm (normalizeText t) defs) eqn:E; cbn [negb] in H;
      inversion H; subst; cbn [snd]; [apply extends_refl|].
    now apply extends_push.
  - inversion H; subst. apply extends_refl.
Qed.

Lemma foldM_extends {A B : Type} (f : A -> B -> option A)
      (proj : A -> list ParsedDefinition) :
  (forall a x a', f a x = Some a' -> extends (proj a) (proj a')) ->
  forall l a a', foldM f l a = Some a' -> extends (proj a) (proj a').
Proof.
  intros Hf. induction l as [|x l IH]; intros a a' H; cbn [foldM] in H.
  - inversion H; subst. apply extends_refl.
  - destruct (f a x) as [a1|] eqn:E; [|discriminate]. cbn [bind] in H.
    apply (extends_trans _ (proj a1)); [exact (Hf _ _ _ E)|exact (IH _ _ H)].
Qed.

Lemma extractDefinitionsFromContent_extends content sp defs defs' :
  extractDefinitionsFromContent content sp defs = Some defs' -> extends defs defs'.
Proof.
  unfold extractDefinitionsFromContent. intro H.
  destruct (execAll false defPattern content) as [ms|]; [|discriminate].
  cbn [bind] in H.
  apply (foldM_extends (contentDefStep sp) (fun d => d)) in H; [exact H|].
  intros a x a'. apply contentDefStep_extends.
Qed.

Lemma extractDefinitionsFromPlainText_extends content sp defs defs' :
  extractDefinitionsFromPlainText content sp defs = Some defs' -> extends defs defs'.
Proof.
  unfold extractDefinitionsFromPlainText. intro H.
  match type of H with
  | bind ?e _ = _ => destruct e as [st|] eqn:E; [|discriminate]
  end.
  cbn [bind] in H. inversion H; subst. clear H.
  apply (foldM_extends _ snd) in E; [exact E|].
  intros a r a' Hr.
  destruct (execAll false r content) as [ms|]; [|discriminate].
  cbn [bind] in Hr.
  apply (foldM_extends (plainDefStep sp) snd) in Hr; [exact Hr|].
  intros b x b'. apply plainDefStep_extends.
Qed.

Lemma privacySections_extends (body : jstring) (chapters : list ChapterPos) :
  forall secs cur provs defs r,
    privacySections body chapters secs cur provs defs = Some r ->
    extends defs (snd r).
Proof.
  induction secs as [|sec rest IH]; intros cur provs defs r H.
  - cbn [privacySections] in H. inversion H; subst. apply extends_refl.
  - rewrite privacySections_cons in H. cbv zeta in H.
    destruct (10 <? length _); [|now apply IH in H].
    destruct (isPrivacyDefinitionSection (sm_num sec)).
    + destruct (extractDefinitionsFromContent _ _ defs) as [defs'|] eqn:E;
        [|discriminate].
      cbn [bind] in H. apply extractDefinitionsFromContent_extends in E.
      apply IH in H. now apply (extends_trans _ defs').
    + cbn [bind] in H. now apply IH in H.
Qed.

Lemma computerEmit_extends st (sec : SectionAcc) st' :
  computerEmit st sec = Some st' -> extends (snd st) (snd st').
Proof.
  destruct st as [provs defs]. unfold computerEmit. intro H.
  destruct (10 <? length _); [|inversion H; subst; apply extends_refl].
  destruct (JS.eqb (num sec) (str "1")); [|inversion H; subst; apply extends_refl].
  destruct (extractDefinitionsFromPlainText _ _ defs) as [defs'|] eqn:E;
    [|discriminate].
  cbn [bind] in H. inversion H; subst. cbn [snd].
  now apply extractDefinitionsFromPlainText_extends in E.
Qed.

(** The definitions of a parsed act carry distinct terms. *)
Lemma run_definitions_distinct (s : Strategy) (text : jstring)
      (act : ActIndexEntry) (pa : ParsedAct) :
  run s text act = Some pa -> NoDup (map term (definitions pa)).
Proof.
  assert (Hprivacy : forall html pa',
             parsePrivacyLawHtml html act = Some pa' ->
             NoDup (map term (definitions pa'))).
  { unfold parsePrivacyLawHtml. intros html pa' H.
    destruct (collectChapters chapterPattern _) as [chs|]; [|discriminate].
    destruct (collectChapters articlePattern _) as [arts|]; [|discriminate].
    destruct (collectSections sectionPattern _) as [secs|]; [|discriminate].
    cbn [bind] in H.
    destruct (privacySections _ _ secs [] [] []) as [r|] eqn:E; [|discriminate].
    cbn [bind] in H. inversion H; subst. cbn [definitions mkParsedAct].
    apply privacySections_extends in E as [_ E]. apply E. constructor. }
  destruct s; cbn [run]; intro H.
  - now apply (Hprivacy text).
  - unfold parseIsraeliLawHtml in H.
    destruct (JS.eqb (id act) privacyLawId); [now apply (Hprivacy text)|].
    destruct (collectChapters chapterPattern _) as [chs|]; [|discriminate].
    destruct (collectSections sectionPattern _) as [secs|]; [|discriminate].
    cbn [bind] in H. inversion H; subst. constructor.
  - unfold parseComputerLawText in H.
    destruct (computerSections _) as [secs|]; [|discriminate]. cbn [bind] in H.
    destruct (foldM computerEmit secs ([], [])) as [r|] eqn:E; [|discriminate].
    cbn [bind] in H. inversion H; subst. cbn [definitions mkParsedAct].
    apply (foldM_extends computerEmit snd) in E as [_ E].
    + apply E. constructor.
    + intros a x a'. apply computerEmit_extends.
  - unfold parseBasicLawText in H.
    destruct (basicSections text) as [secs|]; [|discriminate].
    cbn [bind] in H. inversion H; subst. constructor.
Qed.

(** C7, amended: the terms of the definitions of a document stay
    distinct, the first occurrence winning: an extractor only appends, and
    never a term that is already there, so the definitions of a parsed act
    carry distinct terms.  With a term of at least two characters, the
    content with the term xy defined twice (def one, then def two) yields
    exactly one Definition, for xy, carrying def one. *)
Theorem C7_first_definition_wins :
  (forall (content sp : jstring) (defs defs' : list ParsedDefinition),
      extractDefinitionsFromContent content sp defs = Some defs'
      \/ extractDefinitionsFromPlainText content sp defs = Some defs' ->
      (exists added, defs' = defs ++ added)
      /\ (NoDup (map term defs) -> NoDup (map term defs')))
  /\ (forall (s : Strategy) (text : jstring) (act : ActIndexEntry) (pa : ParsedAct),
         run s text act = Some pa -> NoDup (map term (definitions pa)))
  /\ extractDefinitionsFromContent (dupContent "xy") (str "sec3") []
     = Some [def (str "xy") "def one" "sec3"]
  /\ extractDefinitionsFromPlainText (dupContent "xy") (str "sec1") []
     = Some [def (str "xy") "def one" "sec1"].
Proof.
  split; [|split; [exact run_definitions_distinct|evaluate]].
  intros content sp defs defs' [H|H].
  - now apply extractDefinitionsFromContent_extends in H.
  - now apply extractDefinitionsFromPlainText_extends in H.
Qed.

Lemma C7_witness :
  (exists added, [def (str "xy") "def one" "sec3"] = [] ++ added)
  /\ (NoDup (map term []) -> NoDup (map term [def (str "xy") "def one" "sec3"])).
Proof.
  apply (proj1 C7_first_definition_wins (dupContent "xy") (str "sec3")).
  left. vm_compute. reflexivity.
Defined.

(** *** Footnote lines in the statute state machine *)

(** The code skips the line: nothing is appended to the content of the
    section in progress. *)
Lemma C8_counterexample :
  computerLine inSection footnoteLine = Some inSection
  /\ option_map currentSection (computerLine inSection footnoteLine)
     <> Some (Some {| num := num bodyInProgress;
                      s_title := s_title bodyInProgress;
                      s_content := s_content bodyInProgress ++ str " "
                                   ++ normalizeText footnoteLine;
                      s_chapter := s_chapter bodyInProgress |})
  /\ option_map provisions (parseComputerLawText footnoteText sampleAct)
     = Some [prov "sec1" None "1" "" "1. Section body long enough"].
Proof.
  split; [vm_compute; reflexivity|split; [|vm_compute; reflexivity]].
  vm_compute. intro H. discriminate H.
Qed.

(** C8, amended: a line that, once trimmed, consists of a section label
    (digits and at most one letter), a period, white space and trailing
    text that begins with Published in, does not start a new section and is
    skipped: the state of the machine is unchanged, so nothing is appended
    to the content of a section in progress, no section is pushed and the
    marginal notes stay as they were. *)
Theorem C8_footnote_line_skipped (st : TextState) (rawLine D L S tail : jstring) :
  trim rawLine = D ++ L ++ period :: S ++ str "Published in" ++ tail ->
  sectionLabel D L ->
  S <> [] -> Forall (fun s => isWhiteSpace s = true) S ->
  computerLine st rawLine = Some st.
Proof.
  intros Htrim Hlab HS Hws. unfold computerLine. rewrite Htrim.
  assert (Hchapter : test true chapterLinePattern
                       (D ++ L ++ period :: S ++ str "Published in" ++ tail) = false).
  { destruct Hlab as (HD & Hdig & _). destruct D as [|d D']; [congruence|].
    apply chapter_no_digit. now inversion Hdig. }
  pose proof (alone_none D L S (str "ublished in" ++ tail) 80%N Hlab Hws eq_refl)
    as Halone.
  change (80%N :: str "ublished in" ++ tail) with (str "Published in" ++ tail)
    in Halone.
  destruct (inline_some D L S tail Hlab HS Hws) as (m & g & Hinline & Hg).
  rewrite Hchapter, Halone, Hinline, Hg. cbn [bind].
  replace (test true rePublishedIn (str "Published in" ++ g)) with true
    by (vm_compute; reflexivity).
  reflexivity.
Qed.

Lemma C8_witness : computerLine inSection footnoteLine = Some inSection.
Proof.
  apply (C8_footnote_line_skipped inSection footnoteLine
           (str "2") [] (str " ") (str " Sefer Ha-Chukkim")).
  - vm_compute. reflexivity.
  - split; [discriminate|]. split; [repeat constructor|now left].
  - discriminate.
  - repeat constructor.
Defined.

(** Without white space after the period the line is no section-inline
    line: it is content of the section in progress. *)
Lemma label_without_space_is_content :
  computerLine inSection (str "2.Published in Sefer Ha-Chukkim")
  = Some (appendContent inSection bodyInProgress
            (str "2.Published in Sefer Ha-Chukkim")).
Proof. vm_compute. reflexivity. Qed.

(** *** No chapter in the basic-law variant *)

(** C9: every provision the basic-law variant returns has no chapter;
    a Chapter heading line in the input changes nothing to that (the
    statute variant attributes the chapter on the same input). *)
Theorem C9_basic_law_no_chapter :
  (forall (text : jstring) (act : ActIndexEntry) (pa : ParsedAct),
      parseBasicLawText text act = Some pa ->
      Forall (fun p => chapter p = None) (provisions pa))
  /\ option_map provisions (parseBasicLawText chapterText sampleAct)
     = Some [prov "sec1" None "1" "Chapter One: Intro" "1. abcdefgh"]
  /\ option_map provisions (parseComputerLawText chapterText sampleAct)
     = Some [prov "sec1" (Some (str "Chapter One: Intro")) "1" "" "1. abcdefgh"].
Proof.
  split; [|evaluate].
  intros text act pa H. now apply basic_emitted in H as (secs & _ & _ & H).
Qed.

Lemma C9_witness :
  Forall (fun p => chapter p = None)
         [prov "sec1" None "1" "Chapter One: Intro" "1. abcdefgh"].
Proof.
  apply (proj1 C9_basic_law_no_chapter chapterText sampleAct
               (mkParsedAct sampleAct
                  [prov "sec1" None "1" "Chapter One: Intro" "1. abcdefgh"] [])).
  vm_compute. reflexivity.
Defined.

(** *** The table of contents before the law text *)

Lemma lawTextOf_found (pre rest : jstring) :
  indexOf lawTextMarker (pre ++ lawTextMarker ++ rest) = Z.of_nat (length pre) ->
  lawTextOf (pre ++ lawTextMarker ++ rest) = lawTextMarker ++ rest.
Proof.
  intro H. unfold lawTextOf. rewrite H.
  replace (0 <=? Z.of_nat (length pre))%Z with true
    by (symmetry; apply Z.leb_le; lia).
  rewrite Nat2Z.id, JSFacts.substringFrom_skipn.
  - now rewrite skipn_app, skipn_all, Nat.sub_diag.
  - rewrite length_app. lia.
Qed.

(** C10: when the input contains the marker Computers Law, 5755, the
    statute variant parses the input from the first occurrence of the
    marker on, and what comes before it has no effect on the result;
    when the marker is absent the whole input is parsed. *)
Theorem C10_table_of_contents_skipped :
  (forall (pre rest : jstring) (act : ActIndexEntry),
      exists pre' rest',
        pre ++ lawTextMarker ++ rest = pre' ++ lawTextMarker ++ rest'
        /\ length pre' <= length pre
        /\ indexOf lawTextMarker (pre ++ lawTextMarker ++ rest)
           = Z.of_nat (length pre')
        /\ lawTextOf (pre ++ lawTextMarker ++ rest) = lawTextMarker ++ rest'
        /\ parseComputerLawText (pre ++ lawTextMarker ++ rest) act
           = parseComputerLawText (lawTextMarker ++ rest') act)
  /\ (forall text : jstring,
         (forall pre rest, text <> pre ++ lawTextMarker ++ rest) ->
         indexOf lawTextMarker text = (-1)%Z /\ lawTextOf text = text)
  /\ option_map provisions (parseComputerLawText tocText sampleAct)
     = Some [prov "sec2" None "2" "" "2. Real section text"].
Proof.
  split; [|split; [|evaluate]].
  - intros pre rest act.
    destruct (JSFacts.indexOfFrom_found lawTextMarker pre rest 0)
      as (pre' & rest' & E & Hlen & Hi).
    exists pre', rest'. rewrite E.
    assert (Hidx : indexOf lawTextMarker (pre' ++ lawTextMarker ++ rest')
                   = Z.of_nat (length pre')).
    { unfold indexOf. rewrite <- E. exact Hi. }
    assert (H0 : lawTextOf (lawTextMarker ++ rest') = lawTextMarker ++ rest').
    { apply (lawTextOf_found [] rest').
      change ([] ++ lawTextMarker ++ rest') with (lawTextMarker ++ rest').
      apply JSFacts.indexOf_prefix. }
    repeat split; auto.
    + now apply lawTextOf_found.
    + unfold parseComputerLawText.
      rewrite (lawTextOf_found pre' rest' Hidx), H0. reflexivity.
  - intros text H.
    assert (Hi : indexOf lawTextMarker text = (-1)%Z)
      by now apply JSFacts.indexOfFrom_absent.
    split; [exact Hi|]. unfold lawTextOf. now rewrite Hi.
Qed.

Lemma C10_witness :
  indexOf lawTextMarker (str "1. abcdefgh") = (-1)%Z
  /\ lawTextOf (str "1. abcdefgh") = str "1. abcdefgh".
Proof.
  apply (proj1 (proj2 C10_table_of_contents_skipped) (str "1. abcdefgh")).
  intros pre rest H.
  assert (E : indexOf lawTextMarker (str "1. abcdefgh") = (-1)%Z)
    by (vm_compute; reflexivity).
  rewrite H in E.
  destruct (JSFacts.indexOfFrom_found lawTextMarker pre rest 0)
    as (pre' & rest' & _ & _ & Hi).
  unfold indexOf in E. rewrite Hi in E. lia.
Defined.

End Claims.

Import Scenarios JSFacts RegexFacts LineShapes Totality EmissionFacts.

(* ===================================================================== *)
(** ** Facts about the text normalizer *)
(* ===================================================================== *)

Module NormalFacts.

Lemma search_eq (ic : bool) (r : re) (pos : nat) (rest : jstring) :
  search ic r pos rest =
  match rmatch ic r kdone pos rest [] with
  | Some (e, after, cp) => Some (MResult pos e (firstn (e - pos) rest) cp after)
  | None => match rest with
            | [] => None
            | _ :: xs => search ic r (S pos) xs
            end
  end.
Proof. destruct rest; reflexivity. Qed.

Lemma search_none (ic : bool) (r : re) :
  nullable r = false ->
  forall s pos, Forall (fun c => firstc ic r c = false) s -> search ic r pos s = None.
Proof.
  intros Hn. induction s as [|c s IH]; intros pos Hs; rewrite search_eq.
  - destruct (rmatch ic r kdone pos [] []) as [res|] eqn:E; [|reflexivity].
    apply (rmatch_sound ic anyHead) in E as (p1 & r1 & c1 & (w & E1 & _ & N1 & _) & _).
    symmetry in E1. apply app_eq_nil in E1 as [-> _]. now elim (N1 Hn).
  - inversion Hs; subst.
    rewrite (rmatch_first_fails ic r c s pos Hn); auto.
Qed.

Lemma search_skip (ic : bool) (r : re) (m : mresult) :
  nullable r = false ->
  forall pre rest pos,
    Forall (fun c => firstc ic r c = false) pre ->
    search ic r (pos + length pre) rest = Some m ->
    search ic r pos (pre ++ rest) = Some m.
Proof.
  intros Hn. induction pre as [|c pre IH]; intros rest pos Hp H.
  - cbn [length app] in *. now rewrite Nat.add_0_r in H.
  - inversion Hp; subst. cbn [app]. rewrite search_eq.
    rewrite (rmatch_first_fails ic r c (pre ++ rest) pos Hn); auto.
    apply IH; auto. cbn [length] in H. now rewrite Nat.add_succ_r in H.
Qed.

Lemma firstc_wsRun (c : cu) : firstc false wsRun c = isWhiteSpace c.
Proof.
  unfold wsRun, Plus. cbn [firstc nullable andb]. rewrite cmatch_ws. apply orb_false_r.
Qed.


Lemma allWs_cmatch (ic : bool) (w : jstring) :
  allWs w <-> Forall (fun x => cmatch ic ws x = true) w.
Proof.
  unfold allWs. split; intro H; (eapply Forall_impl; [|exact H]);
    intros a Ha; cbv beta in *; now rewrite cmatch_ws in *.
Qed.

Lemma search_wsRun_hit (pre w R : jstring) (pos : nat) :
  nonWs pre -> w <> [] -> allWs w -> stopsAt false ws R ->
  search false wsRun pos (pre ++ w ++ R)
  = Some (MResult (pos + length pre) (pos + length pre + length w) w [] R).
Proof.
  intros Hp Hne Hw HR. apply search_skip; [reflexivity| |].
  - eapply Forall_impl; [|exact Hp]. intros c Hc.
    now rewrite firstc_wsRun.
  - rewrite search_eq. unfold wsRun.
    rewrite (plus_hit false ws kdone [] (pos + length pre + length w, R, []) w R); auto.
    + now rewrite firstn_exact.
    + now apply allWs_cmatch.
Qed.

Lemma ws_decompose (s : jstring) :
  nonWs s
  \/ exists pre w R, s = pre ++ w ++ R /\ nonWs pre /\ w <> [] /\ allWs w
                     /\ stopsAt false ws R.
Proof.
  induction s as [|c s IH].
  - left. constructor.
  - destruct (isWhiteSpace c) eqn:Ec.
    + right. destruct (span_exists false ws s) as (w & R & E & Hw & HR).
      exists [], (c :: w), R. subst s. repeat split; auto.
      * constructor.
      * discriminate.
      * constructor; [exact Ec|]. now apply (allWs_cmatch false).
    + destruct IH as [IH|(pre & w & R & E & Hp & Hne & Hw & HR)].
      * left. now constructor.
      * right. exists (c :: pre), w, R. subst s. repeat split; auto.
        now constructor.
Qed.

Lemma collapseRuns_nonWs (pre t : jstring) (b : bool) :
  nonWs pre -> pre <> [] -> collapseRuns b (pre ++ t) = pre ++ collapseRuns false t.
Proof.
  intros Hp. revert b. induction Hp as [|c pre Hc Hp IH]; intros b Hne; [congruence|].
  cbn [app collapseRuns]. rewrite Hc. f_equal.
  destruct pre as [|d pre]; [reflexivity|]. apply IH. discriminate.
Qed.

Lemma collapseRuns_nonWs_false (pre t : jstring) :
  nonWs pre -> collapseRuns false (pre ++ t) = pre ++ collapseRuns false t.
Proof.
  intros Hp. destruct pre as [|c pre]; [reflexivity|].
  apply collapseRuns_nonWs; [exact Hp|discriminate].
Qed.

Lemma collapseRuns_stop (R : jstring) :
  stopsAt false ws R -> collapseRuns true R = collapseRuns false R.
Proof.
  intros HR. destruct R as [|y R]; [reflexivity|].
  cbn [collapseRuns]. specialize (HR y R eq_refl). rewrite cmatch_ws in HR.
  now rewrite HR.
Qed.

Lemma collapseRuns_allWs (w R : jstring) :
  allWs w -> collapseRuns true (w ++ R) = collapseRuns true R.
Proof.
  induction 1 as [|c w Hc Hw IH]; [reflexivity|].
  cbn [app collapseRuns]. now rewrite Hc.
Qed.

Lemma collapse_run (pre w R : jstring) :
  nonWs pre -> w <> [] -> allWs w -> stopsAt false ws R ->
  collapseRuns false (pre ++ w ++ R) = pre ++ space :: collapseRuns false R.
Proof.
  intros Hp Hne Hw HR. rewrite collapseRuns_nonWs_false by exact Hp. f_equal.
  destruct w as [|x w]; [congruence|]. inversion Hw; subst.
  cbn [app collapseRuns]. replace (isWhiteSpace x) with true by congruence.
  f_equal. rewrite collapseRuns_allWs by assumption. now apply collapseRuns_stop.
Qed.

Lemma collapse_nonWs (s : jstring) : nonWs s -> collapseRuns false s = s.
Proof.
  intro H. rewrite <- (app_nil_r s) at 1.
  rewrite collapseRuns_nonWs_false by exact H. cbn. apply app_nil_r.
Qed.

(** The global replacement of the runs of white space is [collapseRuns]. *)
Lemma replaceLoop_wsRun :
  forall n s pos fuel,
    length s <= n -> length s < fuel ->
    replaceLoop false fuel wsRun (str " ") pos s = collapseRuns false s.
Proof.
  induction n as [|n IH]; intros s pos fuel Hn Hf.
  - destruct s; [|cbn in Hn; lia]. destruct fuel; [lia|]. reflexivity.
  - destruct fuel as [|fuel]; [lia|]. cbn [replaceLoop].
    destruct (ws_decompose s) as [Hs|(pre & w & R & E & Hp & Hne & Hw & HR)].
    + rewrite search_none; [|reflexivity|].
      * symmetry. now apply collapse_nonWs.
      * eapply Forall_impl; [|exact Hs]. intros c Hc.
        now rewrite firstc_wsRun.
    + subst s. rewrite search_wsRun_hit by assumption.
      cbn [m_index m_end m_after].
      replace (pos + length pre - pos) with (length pre) by lia.
      rewrite firstn_app, Nat.sub_diag, firstn_all. cbn [firstn]. rewrite app_nil_r.
      assert (Hlw : 0 < length w) by (destruct w; [congruence|cbn; lia]).
      replace (Nat.eqb (pos + length pre + length w) (pos + length pre)) with false
        by (symmetry; apply Nat.eqb_neq; lia).
      rewrite !length_app in Hn, Hf.
      rewrite IH by lia.
      rewrite collapse_run by assumption. reflexivity.
Qed.

Lemma replaceAll_wsRun (s : jstring) :
  replaceAll false wsRun (str " ") s = collapseRuns false s.
Proof. unfold replaceAll. apply (replaceLoop_wsRun (length s)); lia. Qed.

Lemma normalizeText_collapse (s : jstring) :
  normalizeText s = trim (collapseRuns false s).
Proof. unfold normalizeText. now rewrite replaceAll_wsRun. Qed.

(** *** Trimming *)

Lemma trimEnd_idem (s : jstring) : trimEnd (trimEnd s) = trimEnd s.
Proof.
  induction s as [|c s IH]; [reflexivity|].
  cbn [trimEnd]. destruct (trimEnd s) as [|d t] eqn:E.
  - destruct (isWhiteSpace c) eqn:Ec; [reflexivity|].
    cbn [trimEnd]. now rewrite Ec.
  - change (trimEnd (c :: d :: t)) with
      (match trimEnd (d :: t) with
       | [] => if isWhiteSpace c then [] else [c]
       | t' => c :: t'
       end).
    now rewrite IH.
Qed.

Lemma trimStart_head (s : jstring) :
  trimStart s = [] \/ exists c t, trimStart s = c :: t /\ isWhiteSpace c = false.
Proof.
  induction s as [|c s IH]; [now left|].
  cbn [trimStart]. destruct (isWhiteSpace c) eqn:Ec; [exact IH|].
  right. now exists c, s.
Qed.

Lemma trimEnd_cons (c : cu) (t : jstring) :
  isWhiteSpace c = false -> exists u, trimEnd (c :: t) = c :: u.
Proof.
  intro Hc. cbn [trimEnd]. destruct (trimEnd t) as [|d u].
  - rewrite Hc. now exists [].
  - now exists (d :: u).
Qed.

Lemma trim_idem (s : jstring) : trim (trim s) = trim s.
Proof.
  unfold trim. destruct (trimStart_head s) as [->|(c & t & -> & Hc)]; [reflexivity|].
  destruct (trimEnd_cons c t Hc) as [u Eu]. rewrite Eu.
  cbn [trimStart]. rewrite Hc. rewrite <- Eu. apply trimEnd_idem.
Qed.

Lemma trimEnd_prefix (s : jstring) :
  exists tail, s = trimEnd s ++ tail /\ allWs tail.
Proof.
  induction s as [|c s (tail & E & Ht)].
  - exists []. split; [reflexivity|constructor].
  - cbn [trimEnd]. destruct (trimEnd s) as [|d t] eqn:Es.
    + cbn [app] in E. subst tail. destruct (isWhiteSpace c) eqn:Ec.
      * exists (c :: s). split; [reflexivity|now constructor].
      * exists s. split; [reflexivity|exact Ht].
    + exists tail. split; [|exact Ht]. cbn [app]. f_equal. exact E.
Qed.

Lemma trimStart_suffix (s : jstring) :
  exists lead, s = lead ++ trimStart s /\ allWs lead.
Proof.
  induction s as [|c s (lead & E & Hl)].
  - exists []. split; [reflexivity|constructor].
  - cbn [trimStart]. destruct (isWhiteSpace c) eqn:Ec.
    + exists (c :: lead). split; [cbn [app]; f_equal; exact E|now constructor].
    + exists []. split; [reflexivity|constructor].
Qed.

Lemma trim_fixed (s : jstring) :
  trim s = s <->
  (match s with [] => True | c :: _ => isWhiteSpace c = false end
   /\ match rev s with [] => True | c :: _ => isWhiteSpace c = false end).
Proof.
  split.
  - intro E. split.
    + rewrite <- E. unfold trim.
      destruct (trimStart_head s) as [->|(c & t & -> & Hc)]; [exact I|].
      destruct (trimEnd_cons c t Hc) as [u ->]. exact Hc.
    + rewrite <- E. unfold trim. generalize (trimStart s). clear. intro s.
      induction s as [|c s IH]; [exact I|].
      cbn [trimEnd]. destruct (trimEnd s) as [|d t] eqn:Es.
      * destruct (isWhiteSpace c) eqn:Ec; [exact I|]. cbn. exact Ec.
      * change (rev (c :: d :: t)) with (rev (d :: t) ++ [c]).
        destruct (rev (d :: t)) as [|x xs] eqn:Er; [|exact IH].
        apply (f_equal (@length cu)) in Er. rewrite length_rev in Er. discriminate.
  - intros [Hh Hl]. unfold trim.
    assert (Es : trimStart s = s).
    { destruct s as [|c s]; [reflexivity|]. cbn [trimStart]. now rewrite Hh. }
    rewrite Es. clear Hh Es. induction s as [|c s IH]; [reflexivity|].
    cbn [trimEnd]. destruct s as [|d s].
    + cbn [trimEnd]. cbn in Hl. now rewrite Hl.
    + rewrite IH.
      * reflexivity.
      * change (rev (c :: d :: s)) with (rev (d :: s) ++ [c]) in Hl.
        destruct (rev (d :: s)) as [|x xs] eqn:Er; [|exact Hl].
        apply (f_equal (@length cu)) in Er. rewrite length_rev in Er. discriminate.
Qed.

(** *** The shape of collapsed text *)

Lemma collapseRuns_true_head (t : jstring) :
  match collapseRuns true t with
  | [] => True
  | d :: _ => isWhiteSpace d = false
  end.
Proof.
  induction t as [|c t IH]; [exact I|].
  cbn [collapseRuns]. destruct (isWhiteSpace c) eqn:Ec; [exact IH|exact Ec].
Qed.

Lemma singleSpaced_collapseRuns (s : jstring) :
  forall b, singleSpaced (collapseRuns b s) = true.
Proof.
  induction s as [|c s IH]; intro b; [reflexivity|].
  cbn [collapseRuns]. destruct (isWhiteSpace c) eqn:Ec.
  - destruct b; [apply IH|].
    cbn [singleSpaced]. rewrite IH.
    change (isWhiteSpace space) with true. cbv iota.
    change (cu_eqb space space) with true.
    pose proof (collapseRuns_true_head s) as Hh.
    destruct (collapseRuns true s); [reflexivity|]. now rewrite Hh.
  - cbn [singleSpaced]. now rewrite Ec, IH.
Qed.

Lemma singleSpaced_tail (c : cu) (t : jstring) :
  singleSpaced (c :: t) = true -> singleSpaced t = true.
Proof. cbn [singleSpaced]. intro H. now apply andb_true_iff in H as [_ H]. Qed.

Lemma singleSpaced_prefix (a b : jstring) :
  singleSpaced (a ++ b) = true -> singleSpaced a = true.
Proof.
  induction a as [|c a IH]; [reflexivity|].
  cbn [app singleSpaced]. intro H. apply andb_true_iff in H as [H1 H2].
  rewrite (IH H2), andb_true_r.
  destruct (isWhiteSpace c); [|reflexivity].
  apply andb_true_iff in H1 as [H1 H3]. rewrite H1.
  destruct a; [reflexivity|exact H3].
Qed.

Lemma singleSpaced_suffix (a b : jstring) :
  singleSpaced (a ++ b) = true -> singleSpaced b = true.
Proof.
  induction a as [|c a IH]; [auto|].
  cbn [app]. intro H. apply IH. now apply singleSpaced_tail in H.
Qed.

Lemma singleSpaced_trim (s : jstring) :
  singleSpaced s = true -> singleSpaced (trim s) = true.
Proof.
  intro H. unfold trim.
  destruct (trimStart_suffix s) as (lead & E & _).
  rewrite E in H. apply singleSpaced_suffix in H.
  destruct (trimEnd_prefix (trimStart s)) as (tail & E' & _).
  rewrite E' in H. now apply singleSpaced_prefix in H.
Qed.

Lemma singleSpaced_fixed (s : jstring) :
  singleSpaced s = true ->
  collapseRuns false s = s
  /\ (match s with [] => True | c :: _ => isWhiteSpace c = false end ->
      collapseRuns true s = s).
Proof.
  induction s as [|c s IH]; intro H; [now split|].
  pose proof (singleSpaced_tail _ _ H) as Ht. destruct (IH Ht) as [IH1 IH2].
  cbn [singleSpaced] in H. apply andb_true_iff in H as [H _].
  cbn [collapseRuns]. destruct (isWhiteSpace c) eqn:Ec.
  - apply andb_true_iff in H as [Hc Hn]. apply cu_eqb_eq in Hc. subst c.
    split; [|discriminate]. f_equal. apply IH2.
    destruct s as [|d s]; [exact I|]. now apply negb_true_iff in Hn.
  - rewrite IH1. now split.
Qed.

(** *** The visible code units *)

Lemma visible_collapseRuns (s : jstring) :
  forall b, visible (collapseRuns b s) = visible s.
Proof.
  unfold visible. induction s as [|c s IH]; intro b; [reflexivity|].
  cbn [collapseRuns filter]. destruct (isWhiteSpace c) eqn:Ec; cbn [negb].
  - destruct b; [apply IH|]. cbn [filter].
    change (isWhiteSpace space) with true. cbn [negb]. apply IH.
  - cbn [filter]. rewrite Ec. cbn [negb]. f_equal. apply IH.
Qed.

Lemma visible_app (a b : jstring) : visible (a ++ b) = visible a ++ visible b.
Proof. apply filter_app. Qed.

Lemma visible_allWs (s : jstring) : allWs s -> visible s = [].
Proof.
  unfold visible. induction 1 as [|c s Hc Hs IH]; [reflexivity|].
  cbn [filter]. now rewrite Hc.
Qed.

Lemma visible_nil (s : jstring) : visible s = [] -> allWs s.
Proof.
  unfold visible. induction s as [|c s IH]; intro H; [constructor|].
  cbn [filter] in H. destruct (isWhiteSpace c) eqn:Ec; cbn [negb] in H; [|discriminate].
  constructor; [exact Ec|now apply IH].
Qed.

Lemma visible_trim (s : jstring) : visible (trim s) = visible s.
Proof.
  unfold trim.
  destruct (trimStart_suffix s) as (lead & E & Hl).
  destruct (trimEnd_prefix (trimStart s)) as (tail & E' & Ht).
  rewrite E at 2. rewrite E' at 2.
  rewrite !visible_app, (visible_allWs _ Hl), (visible_allWs _ Ht).
  cbn [app]. now rewrite app_nil_r.
Qed.

Lemma trim_allWs (s : jstring) : allWs s -> trim s = [].
Proof.
  unfold trim. induction 1 as [|c s Hc Hs IH]; [reflexivity|].
  cbn [trimStart]. now rewrite Hc.
Qed.

Lemma allWs_collapseRuns (s : jstring) :
  allWs s -> forall b, allWs (collapseRuns b s).
Proof.
  induction 1 as [|c s Hc Hs IH]; intro b; [constructor|].
  cbn [collapseRuns]. rewrite Hc. destruct b; [apply IH|].
  constructor; [reflexivity|apply IH].
Qed.

(** *** The normalizer *)

Lemma normalizeText_spaced (s : jstring) : singleSpaced (normalizeText s) = true.
Proof.
  rewrite normalizeText_collapse. apply singleSpaced_trim, singleSpaced_collapseRuns.
Qed.

Lemma normalizeText_trimmed (s : jstring) : trim (normalizeText s) = normalizeText s.
Proof. rewrite normalizeText_collapse. apply trim_idem. Qed.

Lemma normalizeText_fixed (s : jstring) :
  singleSpaced s = true -> trim s = s -> normalizeText s = s.
Proof.
  intros H1 H2. rewrite normalizeText_collapse.
  now rewrite (proj1 (singleSpaced_fixed s H1)).
Qed.

Lemma normalizeText_idem (s : jstring) :
  normalizeText (normalizeText s) = normalizeText s.
Proof.
  apply normalizeText_fixed; [apply normalizeText_spaced|apply normalizeText_trimmed].
Qed.

Lemma normalizeText_visible (s : jstring) : visible (normalizeText s) = visible s.
Proof. rewrite normalizeText_collapse, visible_trim. apply visible_collapseRuns. Qed.

Lemma stripHtml_is_normalized (html : jstring) :
  exists t, stripHtml html = normalizeText t.
Proof. unfold stripHtml, normalizeText. eexists. reflexivity. Qed.

End NormalFacts.

Import NormalFacts.

(* ===================================================================== *)
(** ** Facts about captures *)
(* ===================================================================== *)

Module LanguageFacts.

Section Captures.
Variable ic : bool.
Variable Q : nat -> jstring -> Prop.

Lemma rmatch_lang (r : re) :
  forall (k : kont) pos rest cp res,
    rmatch ic r k pos rest cp = Some res ->
    exists w rest' cp',
      rest = w ++ rest'
      /\ lang ic r w
      /\ (groupsIn ic Q r -> capsIn Q cp -> capsIn Q cp')
      /\ k (pos + length w) rest' cp' = Some res.
Proof.
  induction r as [ | c | a IHa b IHb | a IHa b IHb | g c | i a IHa | | | a IHa];
    intros k pos rest cp res H.
  - exists [], rest, cp. cbn [app length lang]. rewrite Nat.add_0_r. auto.
  - simpl in H. destruct rest as [|x xs]; [discriminate|].
    destruct (cmatch ic c x) eqn:Ex; [|discriminate].
    exists [x], xs, cp. cbn [app length lang]. rewrite Nat.add_1_r.
    repeat split; auto. now exists x.
  - simpl in H.
    apply IHa in H as (w1 & r1 & c1 & E1 & L1 & G1 & H).
    apply IHb in H as (w2 & r2 & c2 & E2 & L2 & G2 & H).
    exists (w1 ++ w2), r2, c2. repeat split.
    + subst. now rewrite <- app_assoc.
    + cbn [lang]. now exists w1, w2.
    + cbn [groupsIn]. intros [Ga Gb] Hc. auto.
    + rewrite length_app, Nat.add_assoc. exact H.
  - simpl in H. destruct (rmatch ic a k pos rest cp) eqn:Ea.
    + rewrite H in Ea. apply IHa in Ea as (w1 & r1 & c1 & E1 & L1 & G1 & Hk).
      exists w1, r1, c1. repeat split; auto.
      * cbn [lang]. now left.
      * cbn [groupsIn]. intros [Ga _]. auto.
    + apply IHb in H as (w1 & r1 & c1 & E1 & L1 & G1 & Hk).
      exists w1, r1, c1. repeat split; auto.
      * cbn [lang]. now right.
      * cbn [groupsIn]. intros [_ Gb]. auto.
  - apply star_sound in H as (w & rest' & E & Hw & Hk).
    exists w, rest', cp. repeat split; auto.
  - simpl in H.
    apply IHa in H as (w1 & r1 & c1 & E1 & L1 & G1 & Hk).
    assert (Ew : firstn (pos + length w1 - pos) rest = w1).
    { subst. apply firstn_exact. }
    rewrite Ew in Hk.
    exists w1, r1, (setcap i w1 c1). repeat split; auto.
    cbn [groupsIn]. intros [Hq Ga] Hc j s E. simpl in E.
    destruct (Nat.eqb j i) eqn:Eji.
    + apply Nat.eqb_eq in Eji. subst j. inversion E; subst s. now apply Hq.
    + now apply (G1 Ga Hc j s).
  - simpl in H. destruct (Nat.eqb pos 0); [|discriminate].
    exists [], rest, cp. cbn [app length lang]. rewrite Nat.add_0_r. auto.
  - simpl in H. destruct rest; [|discriminate].
    exists [], [], cp. cbn [app length lang]. rewrite Nat.add_0_r. auto.
  - simpl in H. destruct (rmatch ic a kdone pos rest cp) as [[[p1 r1] c1]|] eqn:Ea;
      [|discriminate].
    apply IHa in Ea as (w1 & r2 & c2 & E1 & L1 & G1 & Hk).
    unfold kdone in Hk. inversion Hk; subst p1 r2 c2.
    exists [], rest, c1. cbn [app length lang groupsIn]. rewrite Nat.add_0_r. auto.
Qed.

Lemma capsIn_nil : capsIn Q [].
Proof. intros i s H. discriminate. Qed.

(** The text of a match is a text of the pattern and its captures are
    texts of their groups. *)
Lemma search_lang (r : re) :
  forall rest pos m,
    search ic r pos rest = Some m ->
    lang ic r (m_text m) /\ (groupsIn ic Q r -> capsIn Q (m_caps m)).
Proof.
  assert (Hhere : forall rest pos e after cp,
             rmatch ic r kdone pos rest [] = Some (e, after, cp) ->
             lang ic r (firstn (e - pos) rest) /\ (groupsIn ic Q r -> capsIn Q cp)).
  { intros rest pos e after cp E.
    apply rmatch_lang in E as (w & r1 & c1 & E1 & L1 & G1 & Hk).
    unfold kdone in Hk. inversion Hk; subst e r1 c1. subst rest.
    rewrite firstn_exact. split; [exact L1|].
    intro G. apply G1; [exact G|apply capsIn_nil]. }
  induction rest as [|x xs IH]; intros pos m H; rewrite NormalFacts.search_eq in H;
    destruct (rmatch ic r kdone pos _ []) as [[[e after] cp]|] eqn:E;
    try discriminate; try (now apply IH in H).
  all: inversion H; subst m; clear H; cbn [m_text m_caps]; now apply Hhere in E.
Qed.

Lemma execLoop_lang (r : re) :
  forall fuel pos rest ms,
    execLoop ic fuel r pos rest = Some ms ->
    Forall (fun m => lang ic r (m_text m)
                     /\ (groupsIn ic Q r -> capsIn Q (m_caps m))) ms.
Proof.
  induction fuel as [|fuel IH]; intros pos rest ms H; [discriminate|].
  simpl in H. destruct (search ic r pos rest) as [m|] eqn:E.
  - destruct (Nat.eqb (m_end m) (m_index m)); [discriminate|].
    destruct (execLoop ic fuel r (m_end m) (m_after m)) as [ms'|] eqn:E';
      [|discriminate].
    inversion H; subst ms. constructor; [now apply search_lang in E|].
    now apply IH in E'.
  - inversion H. constructor.
Qed.

End Captures.

End LanguageFacts.

Import LanguageFacts.

(* ===================================================================== *)
(** ** Provisions are well formed *)
(* ===================================================================== *)

Module WellFormedFacts.

Lemma normalized_normalizeText (s : jstring) : normalized (normalizeText s).
Proof. apply normalizeText_idem. Qed.

Lemma normalized_nil : normalized [].
Proof. reflexivity. Qed.

Lemma trimEnd_nonWs (s : jstring) : nonWs s -> trimEnd s = s.
Proof.
  induction 1 as [|c s Hc Hs IH]; [reflexivity|].
  cbn [trimEnd]. rewrite IH. destruct s; [now rewrite Hc|reflexivity].
Qed.

Lemma trim_nonWs (s : jstring) : nonWs s -> trim s = s.
Proof.
  intro H. unfold trim.
  assert (E : trimStart s = s).
  { destruct H as [|c s Hc Hs]; [reflexivity|]. cbn [trimStart]. now rewrite Hc. }
  rewrite E. now apply trimEnd_nonWs.
Qed.

Lemma isLabel_nonWs (s : jstring) : isLabel s -> nonWs s.
Proof.
  intros (D & L & -> & _ & HD & HL). apply Forall_app. split.
  - eapply Forall_impl; [|exact HD]. intros d Hd. now apply digit_facts in Hd.
  - destruct HL as [->|(l & -> & Hl)]; [constructor|].
    constructor; [|constructor]. now apply Claims.letter_not_space.
Qed.

Lemma label_lang (ic : bool) (cls : cset) (w : jstring) :
  (forall c, cmatch ic cls c = true -> isLetter c = true) ->
  lang ic (Seq (Plus digit) (Opt (Chr cls))) w -> isLabel w.
Proof.
  intros Hcls (u & v & -> & (u1 & u2 & -> & (x & -> & Hx) & Hu2) & Hv).
  exists ([x] ++ u2), v. split; [reflexivity|]. repeat split.
  - discriminate.
  - constructor; [now rewrite cmatch_digit in Hx|].
    eapply Forall_impl; [|exact Hu2]. intros a Ha. cbv beta in Ha.
    now rewrite cmatch_digit in Ha.
  - destruct Hv as [(y & -> & Hy)| ->]; [right|now left].
    exists y. split; [reflexivity|]. now apply Hcls.
Qed.

Lemma upper_class_ci (c : cu) :
  cmatch true (OneOf [range "A" "Z"]) c = true -> isLetter c = true.
Proof.
  unfold range, isLetter. cbn [cmatch existsb imatch andb]. rewrite orb_false_r.
  change (inRange (N_of_ascii "A") (N_of_ascii "Z")) with isUpper.
  unfold toggled. destruct (isLower c) eqn:El; [intros _; apply orb_true_r|].
  destruct (isUpper c) eqn:Eu; [reflexivity|]. rewrite Eu. discriminate.
Qed.

Lemma lower_class (c : cu) :
  cmatch false (OneOf [range "a" "z"]) c = true -> isLetter c = true.
Proof.
  unfold range, isLetter. cbn [cmatch existsb imatch andb]. rewrite !orb_false_r.
  change (inRange (N_of_ascii "a") (N_of_ascii "z")) with isLower.
  intros ->. apply orb_true_r.
Qed.

Lemma letter_class (c : cu) :
  cmatch false (OneOf [range "A" "Z"; range "a" "z"]) c = true -> isLetter c = true.
Proof. intro H. now rewrite <- cmatch_letter. Qed.

Ltac label_groups :=
  cbn [groupsIn cat Opt]; unfold labelGroup; repeat split;
  try (intros w _ E; discriminate E).

Lemma sectionPattern_label : groupsIn true labelGroup sectionPattern.
Proof.
  unfold sectionPattern. label_groups.
  intros w Hw _. exact (label_lang true _ w upper_class_ci Hw).
Qed.

Lemma sectionAlonePattern_label : groupsIn false labelGroup sectionAlonePattern.
Proof.
  unfold sectionAlonePattern. label_groups.
  intros w Hw _. exact (label_lang false _ w letter_class Hw).
Qed.

Lemma sectionInlinePattern_label : groupsIn false labelGroup sectionInlinePattern.
Proof.
  unfold sectionInlinePattern. label_groups.
  intros w Hw _. exact (label_lang false _ w letter_class Hw).
Qed.

Lemma basicSectionPattern_label : groupsIn false labelGroup basicSectionPattern.
Proof.
  unfold basicSectionPattern. label_groups.
  intros w Hw _. exact (label_lang false _ w lower_class Hw).
Qed.

Lemma matchOnce_label (ic : bool) (r : re) (s : jstring) (m : mresult) (g : jstring) :
  groupsIn ic labelGroup r ->
  matchOnce ic r s = Some m -> group 1 m = Some g -> isLabel g.
Proof.
  intros Hg Hm Hc. apply (search_lang ic labelGroup) in Hm as [_ Hm].
  exact (Hm Hg 1 g Hc eq_refl).
Qed.

Lemma mapM_Forall {A B : Type} (f : A -> option B) (P : B -> Prop) (Q : A -> Prop) :
  (forall x y, Q x -> f x = Some y -> P y) ->
  forall l ys, Forall Q l -> mapM f l = Some ys -> Forall P ys.
Proof.
  intros Hf. induction l as [|x l IH]; intros ys Hl H; cbn [mapM] in H.
  - inversion H. constructor.
  - inversion Hl; subst.
    destruct (f x) as [y|] eqn:Ey; [|discriminate]. cbn [bind] in H.
    destruct (mapM f l) as [zs|] eqn:Ez; [|discriminate]. cbn [bind] in H.
    inversion H; subst. constructor; eauto.
Qed.

(** *** The HTML strategies *)

Lemma collectSections_good (body : jstring) (secs : list SectionMatch) :
  collectSections sectionPattern body = Some secs ->
  Forall (fun sec => isLabel (sm_num sec) /\ normalized (sm_title sec)) secs.
Proof.
  unfold collectSections, execAll.
  destruct (execLoop true (S (length body)) sectionPattern 0 body) as [ms|] eqn:E;
    [|discriminate].
  cbn [bind]. intro H.
  apply (execLoop_lang true labelGroup) in E.
  revert H. apply mapM_Forall with
    (Q := fun m => lang true sectionPattern (m_text m)
                   /\ (groupsIn true labelGroup sectionPattern ->
                       capsIn labelGroup (m_caps m))); [|exact E].
  intros m sec [_ Hm] Hsec.
  destruct (group 1 m) as [g1|] eqn:E1; [|discriminate]. cbn [bind] in Hsec.
  destruct (group 2 m) as [g2|] eqn:E2; [|discriminate]. cbn [bind] in Hsec.
  inversion Hsec; subst sec. cbn [sm_num sm_title].
  pose proof (Hm sectionPattern_label 1 g1 E1 eq_refl) as Hl.
  rewrite (trim_nonWs g1 (isLabel_nonWs g1 Hl)).
  split; [exact Hl|apply normalized_normalizeText].
Qed.

Lemma collectChapters_normalized (pattern : re) (body : jstring) (chs : list ChapterPos) :
  collectChapters pattern body = Some chs ->
  Forall (fun h => normalized (name h)) chs.
Proof.
  unfold collectChapters.
  destruct (execAll true pattern body) as [ms|]; [|discriminate].
  cbn [bind]. apply mapM_Forall with (Q := fun _ => True).
  - intros m h _ Hh. destruct (group 1 m) as [g|]; [|discriminate].
    cbn [bind] in Hh. inversion Hh; subst h. apply normalized_normalizeText.
  - apply Forall_forall. auto.
Qed.

Lemma chapterAt_normalized (chapters : list ChapterPos) (p : nat) :
  Forall (fun h => normalized (name h)) chapters ->
  forall cur, normalized cur -> normalized (chapterAt chapters p cur).
Proof.
  unfold chapterAt. induction 1 as [|c cs Hc Hcs IH]; intros cur Hcur; [exact Hcur|].
  cbn [fold_left]. apply IH. now destruct (pos c <? p).
Qed.

Lemma orUndefined_some (s n : jstring) :
  orUndefined s = Some n -> n = s /\ n <> [].
Proof. destruct s; [discriminate|]. intro H. inversion H. split; [reflexivity|discriminate]. Qed.

Lemma singleLine_content (t : jstring) (n : nat) :
  singleLine (substring 0 n (normalizeText t)).
Proof.
  rewrite substring_0. split.
  - apply singleSpaced_prefix with (b := skipn n (normalizeText t)).
    rewrite firstn_skipn. apply normalizeText_spaced.
  - pose proof (proj1 (trim_fixed _) (normalizeText_trimmed t)) as [Hh _].
    destruct (normalizeText t) as [|c s]; [now destruct n|].
    destruct n; [exact I|exact Hh].
Qed.

Lemma good_html (sec : SectionMatch) (cur t : jstring) (n : nat) :
  isLabel (sm_num sec) -> normalized (sm_title sec) -> normalized cur ->
  good {| provision_ref := str "sec" ++ sm_num sec;
          chapter := orUndefined cur;
          section := sm_num sec;
          p_title := sm_title sec;
          content := substring 0 n (normalizeText t) |}.
Proof.
  intros Hl Ht Hc. repeat split; cbn; auto.
  - now apply orUndefined_some in H.
  - apply orUndefined_some in H as [-> _]. exact Hc.
  - apply singleLine_content.
  - apply singleLine_content.
Qed.

Lemma privacySections_good (body : jstring) (chapters : list ChapterPos) :
  Forall (fun h => normalized (name h)) chapters ->
  forall secs cur provs defs r,
    Forall (fun sec => isLabel (sm_num sec) /\ normalized (sm_title sec)) secs ->
    normalized cur -> Forall good provs ->
    privacySections body chapters secs cur provs defs = Some r ->
    Forall good (fst r).
Proof.
  intros Hch. induction secs as [|sec secs IH]; intros cur provs defs r Hs Hc Hp H.
  - cbn [privacySections] in H. now inversion H.
  - inversion Hs as [|? ? [Hl Ht] Hs']; subst.
    rewrite privacySections_cons in H. cbv zeta in H.
    pose proof (chapterAt_normalized chapters (sm_pos sec) Hch cur Hc) as Hc'.
    destruct (10 <? length _).
    + destruct (isPrivacyDefinitionSection (sm_num sec)).
      * destruct (extractDefinitionsFromContent _ _ defs) as [defs'|]; [|discriminate].
        cbn [bind] in H. apply IH in H; auto.
        apply Forall_app. split; [exact Hp|]. constructor; [|constructor].
        now apply good_html.
      * cbn [bind] in H. apply IH in H; auto.
        apply Forall_app. split; [exact Hp|]. constructor; [|constructor].
        now apply good_html.
    + apply IH in H; auto.
Qed.

Lemma genericSections_good (html : jstring) (chapters : list ChapterPos) :
  Forall (fun h => normalized (name h)) chapters ->
  forall secs cur provs,
    Forall (fun sec => isLabel (sm_num sec) /\ normalized (sm_title sec)) secs ->
    normalized cur -> Forall good provs ->
    Forall good (genericSections html chapters secs cur provs).
Proof.
  intros Hch. induction secs as [|sec secs IH]; intros cur provs Hs Hc Hp.
  - exact Hp.
  - inversion Hs as [|? ? [Hl Ht] Hs']; subst.
    rewrite genericSections_cons. cbv zeta.
    pose proof (chapterAt_normalized chapters (sm_pos sec) Hch cur Hc) as Hc'.
    destruct (10 <? length _).
    + apply IH; auto.
      apply Forall_app. split; [exact Hp|]. constructor; [|constructor].
      now apply good_html.
    + apply IH; auto.
Qed.

Lemma privacy_good (html : jstring) (act : ActIndexEntry) (pa : ParsedAct) :
  parsePrivacyLawHtml html act = Some pa -> Forall good (provisions pa).
Proof.
  unfold parsePrivacyLawHtml. intro H.
  destruct (collectChapters chapterPattern _) as [chs|] eqn:Ec; [|discriminate].
  destruct (collectChapters articlePattern _) as [arts|] eqn:Ea; [|discriminate].
  destruct (collectSections sectionPattern _) as [secs|] eqn:Es; [|discriminate].
  cbn [bind] in H.
  destruct (privacySections _ _ secs [] [] []) as [r|] eqn:E; [|discriminate].
  cbn [bind] in H. inversion H; subst pa. cbn [provisions mkParsedAct].
  apply collectChapters_normalized in Ec, Ea. apply collectSections_good in Es.
  revert E. apply privacySections_good; auto.
  - apply Forall_forall. intros h Hh. apply (proj1 (Claims.sortChapters_In _ _)) in Hh.
    apply in_app_or in Hh. rewrite Forall_forall in Ec, Ea.
    destruct Hh; auto.
  - apply normalized_nil.
Qed.

Lemma israeli_good (html : jstring) (act : ActIndexEntry) (pa : ParsedAct) :
  parseIsraeliLawHtml html act = Some pa -> Forall good (provisions pa).
Proof.
  unfold parseIsraeliLawHtml. intro H.
  destruct (JS.eqb (id act) privacyLawId); [now apply privacy_good in H|].
  destruct (collectChapters chapterPattern _) as [chs|] eqn:Ec; [|discriminate].
  destruct (collectSections sectionPattern _) as [secs|] eqn:Es; [|discriminate].
  cbn [bind] in H. inversion H; subst pa. cbn [provisions mkParsedAct].
  apply collectChapters_normalized in Ec. apply collectSections_good in Es.
  apply genericSections_good; auto. apply normalized_nil.
Qed.
(** *** The plain-text strategies *)

Lemma pushCurrent_good (st : TextState) :
  goodState st -> Forall goodAcc (pushCurrent st).
Proof.
  intros (_ & Hs & Hc). unfold pushCurrent.
  destruct (currentSection st); [|exact Hs].
  apply Forall_app. split; [exact Hs|]. now constructor.
Qed.

Lemma computerLine_good (st st' : TextState) (raw : jstring) :
  goodState st -> computerLine st raw = Some st' -> goodState st'.
Proof.
  intros Hst. pose proof Hst as (Hch & Hs & Hc). unfold computerLine.
  destruct (test true chapterLinePattern (trim raw)).
  { intro H. inversion H; subst st'. repeat split; cbn; auto.
    apply normalized_normalizeText. }
  destruct (matchOnce false sectionAlonePattern (trim raw)) as [m1|] eqn:E1.
  { destruct (group 1 m1) as [g1|] eqn:Eg; [|discriminate]. cbn [bind].
    intro H. inversion H; subst st'. repeat split; cbn; auto.
    - now apply pushCurrent_good.
    - exact (matchOnce_label _ _ _ _ _ sectionAlonePattern_label E1 Eg).
    - apply normalized_normalizeText. }
  destruct (matchOnce false sectionInlinePattern (trim raw)) as [m2|] eqn:E2.
  { destruct (group 2 m2) as [g2|]; [|discriminate]. cbn [bind].
    destruct (test true rePublishedIn g2); [intro H; now inversion H; subst|].
    destruct (group 1 m2) as [g1|] eqn:Eg; [|discriminate]. cbn [bind].
    intro H. inversion H; subst st'. repeat split; cbn; auto.
    - now apply pushCurrent_good.
    - exact (matchOnce_label _ _ _ _ _ sectionInlinePattern_label E2 Eg).
    - apply normalized_normalizeText. }
  destruct (currentSection st) as [cur|] eqn:Ecur.
  - destruct Hc as (H1 & H2 & H3).
    destruct (0 <? length (trim raw)); [|intro H; now inversion H; subst].
    destruct (test false reDigits (trim raw) && (length (trim raw) <=? 3));
      [intro H; now inversion H; subst|].
    destruct (test true reComputersLaw1995 (trim raw));
      [intro H; now inversion H; subst|].
    intro H. inversion H; subst st'. repeat split; cbn; auto.
  - destruct (0 <? length (trim raw)); [|intro H; now inversion H; subst].
    match goal with |- (if ?b then _ else _) = _ -> _ => destruct b end.
    + intro H. inversion H; subst st'. repeat split; cbn; auto.
    + match goal with |- (if ?b then _ else _) = _ -> _ => destruct b end;
        intro H; inversion H; subst; auto.
      repeat split; cbn; auto.
Qed.

Lemma foldM_invariant {A B : Type} (f : A -> B -> option A) (I : A -> Prop) :
  (forall a x a', I a -> f a x = Some a' -> I a') ->
  forall l a a', I a -> foldM f l a = Some a' -> I a'.
Proof.
  intros Hf. induction l as [|x l IH]; intros a a' Ha H; cbn [foldM] in H.
  - now inversion H; subst.
  - destruct (f a x) as [a1|] eqn:E; [|discriminate]. cbn [bind] in H.
    eapply IH; [|exact H]. eapply Hf; eauto.
Qed.

Lemma computerSections_good (lawText : jstring) (secs : list SectionAcc) :
  computerSections lawText = Some secs -> Forall goodAcc secs.
Proof.
  unfold computerSections.
  destruct (foldM computerLine (splitLines lawText) initialTextState) as [st|] eqn:E;
    [|discriminate].
  cbn [bind]. intro H. inversion H; subst secs. apply pushCurrent_good.
  revert E. apply foldM_invariant.
  - intros a x a'. apply computerLine_good.
  - repeat split; cbn; auto; apply normalized_nil.
Qed.

Lemma good_text (lab title ch t : jstring) (n : nat) :
  isLabel lab -> normalized title -> normalized ch ->
  good {| provision_ref := str "sec" ++ lab;
          chapter := orUndefined ch;
          section := lab;
          p_title := title;
          content := substring 0 n (normalizeText t) |}.
Proof.
  intros Hl Ht Hc. repeat split; cbn; auto.
  - now apply orUndefined_some in H.
  - apply orUndefined_some in H as [-> _]. exact Hc.
  - apply singleLine_content.
  - apply singleLine_content.
Qed.

Lemma computerEmit_good (secs : list SectionAcc) :
  Forall goodAcc secs ->
  forall provs defs r,
    Forall good provs ->
    foldM computerEmit secs (provs, defs) = Some r -> Forall good (fst r).
Proof.
  induction 1 as [|sec secs (Hl & Ht & Hc) Hs IH]; intros provs defs r Hp H;
    cbn [foldM] in H.
  - now inversion H; subst.
  - unfold computerEmit at 1 in H.
    destruct (10 <? length (normalizeText (s_content sec))).
    + assert (Hp' : Forall good
                      (provs ++
                       [{| provision_ref := str "sec" ++ num sec;
                           chapter := orUndefined (s_chapter sec);
                           section := num sec;
                           p_title := s_title sec;
                           content := substring 0 maxContentLength
                                                (normalizeText (s_content sec)) |}])).
      { apply Forall_app. split; [exact Hp|]. constructor; [|constructor].
        now apply good_text. }
      destruct (JS.eqb (num sec) (str "1")).
      * destruct (extractDefinitionsFromPlainText _ _ defs) as [defs'|]; [|discriminate].
        cbn [bind] in H. now apply IH in H.
      * cbn [bind] in H. now apply IH in H.
    + cbn [bind] in H. now apply IH in H.
Qed.

Lemma computer_good (text : jstring) (act : ActIndexEntry) (pa : ParsedAct) :
  parseComputerLawText text act = Some pa -> Forall good (provisions pa).
Proof.
  unfold parseComputerLawText. intro H.
  destruct (computerSections (lawTextOf text)) as [secs|] eqn:Es; [|discriminate].
  cbn [bind] in H.
  destruct (foldM computerEmit secs ([], [])) as [r|] eqn:E; [|discriminate].
  cbn [bind] in H. inversion H; subst pa. cbn [provisions mkParsedAct].
  apply computerSections_good in Es. revert E. apply computerEmit_good; auto.
Qed.

Lemma pushBasic_good (st : BasicState) :
  goodBasicState st -> Forall goodBasic (pushBasic st).
Proof.
  intros (Hs & Hc). unfold pushBasic.
  destruct (snd st); [|exact Hs].
  apply Forall_app. split; [exact Hs|]. now constructor.
Qed.

Lemma basicLine_good (lines : list jstring) (st st' : BasicState) (i : nat) :
  goodBasicState st -> basicLine lines st i = Some st' -> goodBasicState st'.
Proof.
  intros Hst. pose proof Hst as (Hs & Hc). unfold basicLine.
  destruct (nth_error lines i) as [raw|]; [|discriminate]. cbn [bind].
  destruct (matchOnce false basicSectionPattern (trim raw)) as [m|] eqn:Em.
  - destruct (lookBack lines (Nat.min i 4) (i - 1) []) as [title|]; [|discriminate].
    cbn [bind].
    destruct (group 1 m) as [g1|] eqn:Eg; [|discriminate]. cbn [bind].
    destruct (group 2 m) as [g2|]; [|discriminate]. cbn [bind].
    intro H. inversion H; subst st'. split; cbn [fst snd].
    + now apply pushBasic_good.
    + split; cbn.
      * exact (matchOnce_label _ _ _ _ _ basicSectionPattern_label Em Eg).
      * apply normalized_normalizeText.
  - destruct (snd st) as [cur|] eqn:Ecur; [|intro H; now inversion H; subst].
    destruct Hc as [H1 H2].
    repeat match goal with
           | |- (if ?b then _ else _) = _ -> _ => destruct b
           end; intro H; inversion H; subst; auto.
    split; cbn [fst snd]; [exact Hs|]. now split.
Qed.

Lemma basicSections_good (text : jstring) (secs : list BasicSection) :
  basicSections text = Some secs -> Forall goodBasic secs.
Proof.
  unfold basicSections. cbv zeta.
  destruct (foldM _ _ _) as [st|] eqn:E; [|discriminate].
  cbn [bind]. intro H. inversion H; subst secs. apply pushBasic_good.
  revert E. apply foldM_invariant.
  - intros a x a'. apply basicLine_good.
  - split; cbn; auto.
Qed.

Lemma basicEmit_good (secs : list BasicSection) :
  Forall goodBasic secs ->
  forall provs, Forall good provs -> Forall good (fold_left basicEmit secs provs).
Proof.
  induction 1 as [|sec secs (Hl & Ht) Hs IH]; intros provs Hp; [exact Hp|].
  cbn [fold_left]. apply IH. unfold basicEmit.
  destruct (10 <? length _); [|exact Hp].
  apply Forall_app. split; [exact Hp|]. constructor; [|constructor].
  repeat split; cbn; auto; try discriminate; apply singleLine_content.
Qed.

Lemma basic_good (text : jstring) (act : ActIndexEntry) (pa : ParsedAct) :
  parseBasicLawText text act = Some pa -> Forall good (provisions pa).
Proof.
  unfold parseBasicLawText. intro H.
  destruct (basicSections text) as [secs|] eqn:Es; [|discriminate].
  cbn [bind] in H. inversion H; subst pa. cbn [provisions mkParsedAct].
  apply basicSections_good in Es. now apply basicEmit_good.
Qed.

Lemma run_total (s : Strategy) (text : jstring) (act : ActIndexEntry) :
  exists pa, run s text act = Some pa.
Proof.
  destruct s; cbn [run].
  - apply parsePrivacyLawHtml_total.
  - apply parseIsraeliLawHtml_total.
  - apply parseComputerLawText_total.
  - apply parseBasicLawText_total.
Qed.

Lemma run_good (s : Strategy) (text : jstring) (act : ActIndexEntry) (pa : ParsedAct) :
  run s text act = Some pa -> Forall good (provisions pa).
Proof.
  destruct s; cbn [run].
  - apply privacy_good.
  - apply israeli_good.
  - apply computer_good.
  - apply basic_good.
Qed.

End WellFormedFacts.

Import WellFormedFacts.

(* ===================================================================== *)
(** ** Definitions are well formed *)
(* ===================================================================== *)

Module DefinitionFacts.

Lemma Forall_collapseRuns (P : cu -> Prop) (s : jstring) :
  P space -> Forall P s -> forall b, Forall P (collapseRuns b s).
Proof.
  intros Hs. induction 1 as [|c s Hc H IH]; intro b; cbn [collapseRuns]; [constructor|].
  destruct (isWhiteSpace c); [destruct b|]; auto.
Qed.

Lemma Forall_normalizeText (P : cu -> Prop) (s : jstring) :
  P space -> Forall P s -> Forall P (normalizeText s).
Proof.
  intros Hs H. rewrite normalizeText_collapse.
  apply Claims.Forall_trim. now apply Forall_collapseRuns.
Qed.

Lemma collapseRuns_snoc (u : jstring) (c : cu) :
  isWhiteSpace c = false ->
  forall b, collapseRuns b (u ++ [c]) = collapseRuns b u ++ [c].
Proof.
  intros Hc. induction u as [|x u IH]; intro b; cbn [app collapseRuns].
  - now rewrite Hc.
  - destruct (isWhiteSpace x); [destruct b|]; cbn [app]; now rewrite IH.
Qed.

Lemma trimStart_snoc (u : jstring) (c : cu) :
  isWhiteSpace c = false -> trimStart (u ++ [c]) = trimStart u ++ [c].
Proof.
  intros Hc. induction u as [|x u IH]; cbn [app trimStart].
  - now rewrite Hc.
  - destruct (isWhiteSpace x); [exact IH|reflexivity].
Qed.

Lemma trimEnd_snoc (u : jstring) (c : cu) :
  isWhiteSpace c = false -> trimEnd (u ++ [c]) = u ++ [c].
Proof.
  intros Hc. induction u as [|x u IH]; cbn [app trimEnd].
  - now rewrite Hc.
  - rewrite IH. destruct u; reflexivity.
Qed.

Lemma normalizeText_snoc (u : jstring) (c : cu) :
  isWhiteSpace c = false ->
  normalizeText (u ++ [c]) = trimStart (collapseRuns false u) ++ [c].
Proof.
  intro Hc. rewrite normalizeText_collapse, collapseRuns_snoc by exact Hc.
  unfold trim. rewrite trimStart_snoc by exact Hc. now apply trimEnd_snoc.
Qed.

Lemma firstc_semi (c : cu) : firstc false semiRe c = cu_eqb semicolon c.
Proof.
  unfold semiRe. cbn [cat lit firstc nullable andb]. rewrite cmatch_char.
  apply orb_false_r.
Qed.

Lemma noSemi_firstc (s : jstring) :
  Forall (fun c => c <> semicolon) s ->
  Forall (fun c => firstc false semiRe c = false) s.
Proof.
  intro H. eapply Forall_impl; [|exact H]. intros c Hc. cbv beta.
  rewrite firstc_semi. unfold cu_eqb. apply N.eqb_neq. congruence.
Qed.

Lemma dropFinalSemicolon_none (s : jstring) :
  Forall (fun c => c <> semicolon) s -> dropFinalSemicolon s = s.
Proof.
  intro H. unfold dropFinalSemicolon, matchOnce.
  change (cat [lit ";"; Eol]) with semiRe.
  now rewrite (search_none false semiRe eq_refl s 0 (noSemi_firstc s H)).
Qed.

Lemma dropFinalSemicolon_last (X : jstring) :
  Forall (fun c => c <> semicolon) X -> dropFinalSemicolon (X ++ [semicolon]) = X.
Proof.
  intro H. unfold dropFinalSemicolon, matchOnce.
  change (cat [lit ";"; Eol]) with semiRe.
  rewrite (search_skip false semiRe
             (MResult (length X) (S (length X)) [semicolon] [] []) eq_refl
             X [semicolon] 0 (noSemi_firstc X H)).
  - cbn [m_index m_after]. rewrite firstn_app, Nat.sub_diag, firstn_all.
    cbn [firstn]. now rewrite !app_nil_r.
  - cbn [Nat.add]. rewrite search_eq.
    assert (E : rmatch false semiRe kdone (length X) [semicolon] []
                = Some (S (length X), [], [])) by reflexivity.
    rewrite E. replace (S (length X) - length X) with 1 by lia. reflexivity.
Qed.

(** The definition text built from the second capture. *)
Lemma definition_text (w : jstring) :
  closedText w ->
  let d := trim (dropFinalSemicolon (normalizeText w)) in
  normalized d /\ Forall (fun c => c <> semicolon) d.
Proof.
  intros (u & v & -> & Hu & Hv). cbv zeta.
  assert (Hsp : space <> semicolon) by discriminate.
  assert (Hshape : forall X, singleSpaced X = true ->
                     Forall (fun c => c <> semicolon) X ->
                     normalized (trim X) /\ Forall (fun c => c <> semicolon) (trim X)).
  { intros X H1 H2. split.
    - apply normalizeText_fixed; [now apply singleSpaced_trim|apply trim_idem].
    - now apply Claims.Forall_trim. }
  destruct Hv as [-> | ->].
  - rewrite app_nil_r.
    rewrite dropFinalSemicolon_none by (now apply Forall_normalizeText).
    apply Hshape; [apply normalizeText_spaced|now apply Forall_normalizeText].
  - rewrite normalizeText_snoc by reflexivity.
    assert (HX : Forall (fun c => c <> semicolon) (trimStart (collapseRuns false u))).
    { apply Claims.Forall_trimStart. now apply Forall_collapseRuns. }
    rewrite dropFinalSemicolon_last by exact HX.
    apply Hshape; [|exact HX].
    destruct (trimStart_suffix (collapseRuns false u)) as (lead & E & _).
    apply singleSpaced_suffix with (a := lead). rewrite <- E.
    apply singleSpaced_collapseRuns.
Qed.

Lemma term_text (w : jstring) :
  Forall (fun c => c <> dquote) w ->
  normalized (normalizeText w) /\ Forall (fun c => c <> dquote) (normalizeText w).
Proof.
  intro H. split; [apply normalized_normalizeText|].
  apply Forall_normalizeText; [discriminate|exact H].
Qed.

(** The groups of the three patterns. *)
Lemma noneOf_not (ic : bool) (a : cu) (l : list citem) (x : cu) :
  cmatch ic (NoneOf (CChar a :: l)) x = true -> x <> a.
Proof.
  cbn [cmatch existsb imatch]. intros H ->.
  unfold cu_eqb in H. rewrite N.eqb_refl in H. discriminate.
Qed.

Lemma plus_noneOf (a : cu) (l : list citem) (w : jstring) :
  lang false (Plus (NoneOf (CChar a :: l))) w -> Forall (fun c => c <> a) w.
Proof.
  intros (u1 & u2 & -> & (x & -> & Hx) & Hu2). constructor.
  - exact (noneOf_not false a l x Hx).
  - eapply Forall_impl; [|exact Hu2]. intros c Hc. exact (noneOf_not false a l c Hc).
Qed.

Lemma closed_lang (tail : re) (w : jstring) :
  (forall v, lang false tail v -> v = [] \/ v = [semicolon]) ->
  lang false (Seq (Plus (not1 ";")) tail) w -> closedText w.
Proof.
  intros Ht (u & v & -> & Hu & Hv). exists u, v. repeat split; auto.
  exact (plus_noneOf semicolon [] u Hu).
Qed.

Lemma lit_semi_lang (v : jstring) : lang false (lit ";") v -> v = [] \/ v = [semicolon].
Proof.
  intros (x & -> & Hx). right. rewrite cmatch_char in Hx.
  apply cu_eqb_eq in Hx. now subst x.
Qed.

Ltac def_groups tail_lemma :=
  cbn [groupsIn cat]; unfold defGroups; repeat split; intro;
  try match goal with H : S _ = S _ |- _ => discriminate H end;
  match goal with
  | H : lang _ _ ?w |- Forall _ ?w => exact (plus_noneOf dquote _ w H)
  | H : lang _ _ ?w |- closedText ?w =>
      apply (closed_lang _ w) in H; [exact H|]; tail_lemma
  end.

Lemma defPattern_groups : groupsIn false defGroups defPattern.
Proof.
  unfold defPattern.
  def_groups ltac:(intros v [Hv| ->]; [now apply lit_semi_lang|now left]).
Qed.

Lemma plainDefPattern1_groups : groupsIn false defGroups plainDefPattern1.
Proof. unfold plainDefPattern1. def_groups ltac:(apply lit_semi_lang). Qed.

Lemma plainDefPattern2_groups : groupsIn false defGroups plainDefPattern2.
Proof. unfold plainDefPattern2. def_groups ltac:(apply lit_semi_lang). Qed.

Lemma added_refl sp defs : added sp defs defs.
Proof. exists []. split; [now rewrite app_nil_r|constructor]. Qed.

Lemma added_trans sp a b c : added sp a b -> added sp b c -> added sp a c.
Proof.
  intros (l1 & -> & H1) (l2 & -> & H2). exists (l1 ++ l2).
  split; [now rewrite app_assoc|now apply Forall_app].
Qed.

Lemma new_definition (sp m1 m2 : jstring) :
  Forall (fun c => c <> dquote) m1 -> closedText m2 ->
  (1 <? length (normalizeText m1)) && (length (normalizeText m1) <? 80)
  && (5 <? length (trim (dropFinalSemicolon (normalizeText m2)))) = true ->
  source_provision
    {| term := normalizeText m1;
       definition := trim (dropFinalSemicolon (normalizeText m2));
       source_provision := Some sp |} = Some sp
  /\ wellFormedDefinition
       {| term := normalizeText m1;
          definition := trim (dropFinalSemicolon (normalizeText m2));
          source_provision := Some sp |}.
Proof.
  intros H1 H2 Hb. split; [reflexivity|].
  apply andb_true_iff in Hb as [Hb Hd]. apply andb_true_iff in Hb as [Ha Hb].
  apply Nat.ltb_lt in Ha, Hb, Hd.
  destruct (term_text m1 H1) as [T1 T2].
  destruct (definition_text m2 H2) as [D1 D2].
  unfold wellFormedDefinition. cbn [term definition]. repeat split; auto.
Qed.

Lemma contentDefStep_added (sp : jstring) (defs defs' : list ParsedDefinition)
      (m : mresult) :
  capsIn defGroups (m_caps m) ->
  contentDefStep sp defs m = Some defs' -> added sp defs defs'.
Proof.
  intros Hc. unfold contentDefStep.
  destruct (group 1 m) as [m1|] eqn:E1; [|discriminate]. cbn [bind].
  destruct (group 2 m) as [m2|] eqn:E2; [|discriminate]. cbn [bind].
  pose proof (proj1 (Hc 1 m1 E1) eq_refl) as H1.
  pose proof (proj2 (Hc 2 m2 E2) eq_refl) as H2.
  destruct (_ && _ && _) eqn:Eb; [|intro H; inversion H; apply added_refl].
  destruct (negb _); intro H; inversion H; [|apply added_refl].
  eexists. split; [reflexivity|]. constructor; [|constructor].
  now apply new_definition.
Qed.

Lemma plainDefStep_added (sp : jstring) (st st' : list jstring * list ParsedDefinition)
      (m : mresult) :
  capsIn defGroups (m_caps m) ->
  plainDefStep sp st m = Some st' -> added sp (snd st) (snd st').
Proof.
  intros Hc. destruct st as [seen defs]. unfold plainDefStep.
  destruct (group 1 m) as [m1|] eqn:E1; [|discriminate]. cbn [bind].
  destruct (group 2 m) as [m2|] eqn:E2; [|discriminate]. cbn [bind].
  pose proof (proj1 (Hc 1 m1 E1) eq_refl) as H1.
  pose proof (proj2 (Hc 2 m2 E2) eq_refl) as H2.
  destruct (_ && _ && _ && _) eqn:Eb; [|intro H; inversion H; apply added_refl].
  apply andb_true_iff in Eb as [Eb _].
  destruct (negb _); intro H; inversion H; cbn [snd]; [|apply added_refl].
  eexists. split; [reflexivity|]. constructor; [|constructor].
  now apply new_definition.
Qed.

Lemma foldM_added {A : Type} (proj : A -> list ParsedDefinition) (sp : jstring)
      (f : A -> mresult -> option A) :
  forall ms,
    Forall (fun m => forall a a', f a m = Some a' -> added sp (proj a) (proj a')) ms ->
    forall a a', foldM f ms a = Some a' -> added sp (proj a) (proj a').
Proof.
  induction 1 as [|m ms Hm _ IH]; intros a a' H; cbn [foldM] in H.
  - inversion H. apply added_refl.
  - destruct (f a m) as [a1|] eqn:E; [|discriminate]. cbn [bind] in H.
    eapply added_trans; [exact (Hm _ _ E)|now apply IH].
Qed.

Lemma execAll_defGroups (r : re) (content : jstring) (ms : list mresult) :
  groupsIn false defGroups r ->
  execAll false r content = Some ms ->
  Forall (fun m => capsIn defGroups (m_caps m)) ms.
Proof.
  intros Hg H. apply (execLoop_lang false defGroups) in H.
  eapply Forall_impl; [|exact H]. intros m [_ Hm]. now apply Hm.
Qed.

Lemma extractDefinitionsFromContent_added content sp defs defs' :
  extractDefinitionsFromContent content sp defs = Some defs' -> added sp defs defs'.
Proof.
  unfold extractDefinitionsFromContent.
  destruct (execAll false defPattern content) as [ms|] eqn:E; [|discriminate].
  cbn [bind]. apply (foldM_added (fun d => d)).
  eapply Forall_impl; [|exact (execAll_defGroups _ _ _ defPattern_groups E)].
  intros m Hm a a'. now apply contentDefStep_added.
Qed.

Lemma extractDefinitionsFromPlainText_added content sp defs defs' :
  extractDefinitionsFromPlainText content sp defs = Some defs' -> added sp defs defs'.
Proof.
  unfold extractDefinitionsFromPlainText, plainDefPatterns. cbn [foldM].
  destruct (execAll false plainDefPattern1 content) as [ms1|] eqn:E1; [|discriminate].
  cbn [bind].
  destruct (foldM (plainDefStep sp) ms1 ([], defs)) as [st1|] eqn:F1; [|discriminate].
  cbn [bind].
  destruct (execAll false plainDefPattern2 content) as [ms2|] eqn:E2; [|discriminate].
  cbn [bind].
  destruct (foldM (plainDefStep sp) ms2 st1) as [st2|] eqn:F2; [|discriminate].
  cbn [bind]. intro H. inversion H; subst defs'.
  apply (foldM_added snd sp) in F1, F2.
  - exact (added_trans _ _ _ _ F1 F2).
  - eapply Forall_impl; [|exact (execAll_defGroups _ _ _ plainDefPattern2_groups E2)].
    intros m Hm a a'. now apply plainDefStep_added.
  - eapply Forall_impl; [|exact (execAll_defGroups _ _ _ plainDefPattern1_groups E1)].
    intros m Hm a a'. now apply plainDefStep_added.
Qed.

Lemma sound_mono ok provs l d : sound ok provs d -> sound ok (provs ++ l) d.
Proof.
  intros [(p & Hin & H1 & H2) Hw]. split; [|exact Hw].
  exists p. repeat split; auto. apply in_or_app. now left.
Qed.

Lemma sound_added ok provs (p : ParsedProvision) defs defs' :
  ok (section p) = true ->
  added (provision_ref p) defs defs' ->
  Forall (sound ok provs) defs ->
  Forall (sound ok (provs ++ [p])) defs'.
Proof.
  intros Hok (l & -> & Hl) Hd. apply Forall_app. split.
  - eapply Forall_impl; [|exact Hd]. intros d. apply sound_mono.
  - eapply Forall_impl; [|exact Hl]. intros d [H1 H2]. split; [|exact H2].
    exists p. repeat split; auto. apply in_or_app. right. now left.
Qed.

Lemma privacySections_sound (body : jstring) (chapters : list ChapterPos) :
  forall secs cur provs defs r,
    Forall (sound isPrivacyDefinitionSection provs) defs ->
    privacySections body chapters secs cur provs defs = Some r ->
    Forall (sound isPrivacyDefinitionSection (fst r)) (snd r).
Proof.
  induction secs as [|sec secs IH]; intros cur provs defs r Hd H.
  - cbn [privacySections] in H. now inversion H; subst.
  - rewrite privacySections_cons in H. cbv zeta in H.
    destruct (10 <? length _); [|now apply IH in H].
    destruct (isPrivacyDefinitionSection (sm_num sec)) eqn:Eok.
    + destruct (extractDefinitionsFromContent _ _ defs) as [defs'|] eqn:Ex;
        [|discriminate].
      cbn [bind] in H. apply IH in H; [exact H|].
      apply extractDefinitionsFromContent_added in Ex.
      match goal with
      | |- Forall (sound _ (provs ++ [?p])) _ =>
          apply (sound_added _ provs p defs defs'); auto
      end.
    + cbn [bind] in H. apply IH in H; [exact H|].
      eapply Forall_impl; [|exact Hd]. intros d. apply sound_mono.
Qed.

Lemma computerEmit_sound (secs : list SectionAcc) :
  forall provs defs r,
    Forall (sound (fun lab => JS.eqb lab (str "1")) provs) defs ->
    foldM computerEmit secs (provs, defs) = Some r ->
    Forall (sound (fun lab => JS.eqb lab (str "1")) (fst r)) (snd r).
Proof.
  induction secs as [|sec secs IH]; intros provs defs r Hd H; cbn [foldM] in H.
  - now inversion H; subst.
  - unfold computerEmit at 1 in H.
    destruct (10 <? length (normalizeText (s_content sec))); [|now apply IH in H].
    destruct (JS.eqb (num sec) (str "1")) eqn:Eok.
    + destruct (extractDefinitionsFromPlainText _ _ defs) as [defs'|] eqn:Ex;
        [|discriminate].
      cbn [bind] in H. apply IH in H; [exact H|].
      apply extractDefinitionsFromPlainText_added in Ex.
      match goal with
      | |- Forall (sound _ (provs ++ [?p])) _ =>
          apply (sound_added _ provs p defs defs'); auto
      end.
    + cbn [bind] in H. apply IH in H; [exact H|].
      eapply Forall_impl; [|exact Hd]. intros d. apply sound_mono.
Qed.

Lemma privacy_sound (html : jstring) (act : ActIndexEntry) (pa : ParsedAct) :
  parsePrivacyLawHtml html act = Some pa ->
  Forall (sound isPrivacyDefinitionSection (provisions pa)) (definitions pa).
Proof.
  unfold parsePrivacyLawHtml. intro H.
  destruct (collectChapters chapterPattern _) as [chs|]; [|discriminate].
  destruct (collectChapters articlePattern _) as [arts|]; [|discriminate].
  destruct (collectSections sectionPattern _) as [secs|]; [|discriminate].
  cbn [bind] in H.
  destruct (privacySections _ _ secs [] [] []) as [r|] eqn:E; [|discriminate].
  cbn [bind] in H. inversion H; subst pa. cbn [provisions definitions mkParsedAct].
  revert E. apply privacySections_sound. constructor.
Qed.

Lemma run_sound (s : Strategy) (text : jstring) (act : ActIndexEntry) (pa : ParsedAct) :
  run s text act = Some pa ->
  Forall (sound (definitionSections s act) (provisions pa)) (definitions pa).
Proof.
  destruct s; cbn [run definitionSections].
  - apply privacy_sound.
  - unfold parseIsraeliLawHtml. destruct (JS.eqb (id act) privacyLawId) eqn:Eid.
    + intro H. apply privacy_sound in H. eapply Forall_impl; [|exact H].
      intros d [(p & H1 & H2 & H3) Hw]. split; [|exact Hw].
      exists p. repeat split; auto. unfold definitionSections. now rewrite Eid.
    + destruct (collectChapters chapterPattern _) as [chs|]; [|discriminate].
      destruct (collectSections sectionPattern _) as [secs|]; [|discriminate].
      cbn [bind]. intro H. inversion H; subst pa. constructor.
  - unfold parseComputerLawText.
    destruct (computerSections (lawTextOf text)) as [secs|]; [|discriminate].
    cbn [bind].
    destruct (foldM computerEmit secs ([], [])) as [r|] eqn:E; [|discriminate].
    cbn [bind]. intro H. inversion H; subst pa.
    cbn [provisions definitions mkParsedAct].
    revert E. apply computerEmit_sound. constructor.
  - unfold parseBasicLawText.
    destruct (basicSections text) as [secs|]; [|discriminate].
    cbn [bind]. intro H. inversion H; subst pa. constructor.
Qed.

End DefinitionFacts.

Import DefinitionFacts.

(* ===================================================================== *)
(** ** Facts about the lines of the statute convention *)
(* ===================================================================== *)

Module LineFacts.

Lemma lit_hit (ic : bool) (a : string) :
  forall (w R : jstring) (k : kont) (pos : nat) (cp : caps),
    spells ic a w ->
    rmatch ic (lit a) k pos (w ++ R) cp = k (pos + length w) R cp.
Proof.
  unfold spells. induction a as [|ch a IH]; intros w R k pos cp H.
  - inversion H; subst. cbn. now rewrite Nat.add_0_r.
  - cbn [list_ascii_of_string] in H. inversion H as [|? x ? w' Hx Hw]; subst.
    assert (Hc : cmatch ic (OneOf [CChar (N_of_ascii ch)]) x = true).
    { cbn [cmatch existsb imatch]. now rewrite Hx. }
    cbn [app length]. rewrite Nat.add_succ_r.
    destruct a as [|ch' a'].
    + cbn [list_ascii_of_string] in Hw. inversion Hw; subst.
      cbn [lit rmatch app length]. rewrite Hc. now rewrite Nat.add_0_r.
    + change (lit (String ch (String ch' a')))
        with (Seq (Chr (OneOf [CChar (N_of_ascii ch)])) (lit (String ch' a'))).
      rewrite rmatch_seq, rmatch_chr, Hc.
      rewrite (IH w' R k (S pos) cp Hw). reflexivity.
Qed.

Lemma spells_str (a : string) : spells false a (str a).
Proof.
  unfold spells, str. induction (list_ascii_of_string a) as [|ch l IH]; constructor.
  - cbn [canon andb]. apply cu_eqb_eq. reflexivity.
  - exact IH.
Qed.

Lemma canon_nonletter (ic : bool) (a x : cu) :
  isLetter a = false -> cu_eqb (canon ic a) (canon ic x) = true -> x = a.
Proof.
  unfold isLetter, canon, cu_eqb. intros Ha H.
  apply orb_false_iff in Ha as [Hu Hl]. rewrite Hl, andb_false_r in H.
  apply N.eqb_eq in H. subst a.
  destruct (ic && isLower x) eqn:E; [|reflexivity].
  apply andb_true_iff in E as [_ E]. exfalso.
  unfold isUpper, isLower in *.
  apply andb_true_iff in E as [E1 E2]. apply N.leb_le in E1, E2.
  apply andb_false_iff in Hu. rewrite !N.leb_gt in Hu. lia.
Qed.

Lemma needs_sound (ic : bool) (c : cu) (r : re) :
  needs c r = true -> forall w, lang ic r w -> In c w.
Proof.
  induction r as [ | cs | a IHa b IHb | a IHa b IHb | g cs | i a IHa | | | a IHa];
    cbn [needs lang]; intros H w Hw; try discriminate.
  - destruct cs as [| |l|l]; try discriminate.
    destruct l as [|[a| | | |] [|? ?]]; try discriminate.
    apply andb_true_iff in H as [H1 H2]. apply cu_eqb_eq in H1. subst a.
    apply negb_true_iff in H2.
    destruct Hw as (x & -> & Hx). cbn [cmatch existsb imatch] in Hx.
    rewrite orb_false_r in Hx. left. now apply (canon_nonletter ic c x).
  - destruct Hw as (u & v & -> & Hu & Hv). apply in_or_app.
    apply orb_true_iff in H as [H|H]; [left|right]; auto.
  - apply andb_true_iff in H as [H1 H2]. destruct Hw; auto.
  - auto.
Qed.

(** A pattern that needs a code unit does not match a text without it. *)
Lemma needs_absent (ic : bool) (c : cu) (r : re) (s : jstring) :
  needs c r = true -> ~ In c s -> matchOnce ic r s = None.
Proof.
  intros Hn Hs. destruct (matchOnce ic r s) as [m|] eqn:E; [|reflexivity].
  pose proof (search_sound ic anyHead r s 0 m E) as (sk & w & E1 & _ & _ & E4 & _).
  apply (search_lang ic (fun _ _ => True)) in E as [Hl _].
  apply (needs_sound ic c r Hn) in Hl. rewrite E4 in Hl.
  exfalso. apply Hs. rewrite E1. apply in_or_app. right. apply in_or_app. now left.
Qed.

Lemma digits_no (c : cu) (D : jstring) :
  isDigit c = false -> Forall (fun d => isDigit d = true) D -> ~ In c D.
Proof.
  intros Hc HD Hin. rewrite Forall_forall in HD. apply HD in Hin. congruence.
Qed.

Lemma digit_canon (d : cu) : isDigit d = true -> canon true d = d.
Proof.
  intro Hd. unfold canon. apply digit_facts in Hd as (_ & _ & _ & -> & _). reflexivity.
Qed.

(** A line that starts with a digit matches none of the anchored
    literals. *)
Lemma literal_digit (ic : bool) (a : ascii) (t : string) (d : cu) :
  isDigit d = true -> isDigit (canon ic (N_of_ascii a)) = false ->
  nullable (lit (String a t)) = false /\ firstc ic (lit (String a t)) d = false.
Proof.
  intros Hd Ha.
  assert (Hf : cmatch ic (OneOf [CChar (N_of_ascii a)]) d = false).
  { cbn [cmatch existsb imatch]. rewrite orb_false_r.
    unfold cu_eqb. apply N.eqb_neq. intro E.
    assert (Hcd : canon ic d = d).
    { destruct ic; [now apply digit_canon|reflexivity]. }
    rewrite Hcd in E. congruence. }
  destruct t; cbn [lit firstc nullable andb]; rewrite ?Hf; auto.
Qed.

Lemma anchored_literal_digit (ic : bool) (a : ascii) (t : string) (tail : re)
      (d : cu) (xs : jstring) :
  isDigit d = true -> isDigit (canon ic (N_of_ascii a)) = false ->
  test ic (Seq Bol (Seq (lit (String a t)) tail)) (d :: xs) = false.
Proof.
  intros Hd Ha. destruct (literal_digit ic a t d Hd Ha) as [Hn Hf].
  unfold test. rewrite anchored_first_fails; [reflexivity| |].
  - cbn [nullable]. now rewrite Hn.
  - cbn [firstc]. now rewrite Hf, Hn.
Qed.

Lemma anchored_literal_only_digit (ic : bool) (a : ascii) (t : string)
      (d : cu) (xs : jstring) :
  isDigit d = true -> isDigit (canon ic (N_of_ascii a)) = false ->
  test ic (Seq Bol (lit (String a t))) (d :: xs) = false.
Proof.
  intros Hd Ha. destruct (literal_digit ic a t d Hd Ha) as [Hn Hf].
  unfold test. now rewrite anchored_first_fails.
Qed.

Lemma reDigits_hit (D : jstring) :
  D <> [] -> Forall (fun d => isDigit d = true) D -> test false reDigits D = true.
Proof.
  intros Hne HD. unfold test, reDigits. cbn [cat].
  rewrite matchOnce_anchored, rmatch_seq.
  rewrite <- (app_nil_r D) at 1.
  rewrite (plus_hit false digit _ [] (0 + length D, [], []) D []); auto.
  - eapply Forall_impl; [|exact HD]. intros a Ha. now rewrite cmatch_digit.
  - intros x R' E. discriminate.
Qed.

Lemma normalizeText_nonWs (s : jstring) : nonWs s -> normalizeText s = s.
Proof.
  intro H. rewrite normalizeText_collapse, collapse_nonWs by exact H.
  now apply trim_nonWs.
Qed.

Lemma digits_nonWs (D : jstring) : Forall (fun d => isDigit d = true) D -> nonWs D.
Proof.
  intro H. eapply Forall_impl; [|exact H]. intros d Hd. now apply digit_facts in Hd.
Qed.

(** *** Chapter headings *)

Lemma alt_right (ic : bool) (a b : re) (k : kont) pos rest cp :
  (exists res, rmatch ic b k pos rest cp = Some res) ->
  exists res, rmatch ic (Alt a b) k pos rest cp = Some res.
Proof.
  intros [res H]. cbn [rmatch].
  destruct (rmatch ic a k pos rest cp) as [m|]; eauto.
Qed.

Lemma cmatch_word (ic : bool) (x : cu) : cmatch ic word x = isWordChar x.
Proof. unfold word. cbn [cmatch existsb imatch]. apply orb_false_r. Qed.

Lemma word_not_space (c : cu) : isWordChar c = true -> isWhiteSpace c = false.
Proof.
  unfold isWordChar, isDigit, isUpper, isLower, isWhiteSpace. intro H.
  repeat rewrite orb_true_iff in H. repeat rewrite andb_true_iff in H.
  repeat rewrite N.leb_le in H. rewrite N.eqb_eq in H.
  repeat rewrite orb_false_iff. repeat rewrite andb_false_iff.
  repeat rewrite N.leb_gt. repeat rewrite N.eqb_neq.
  repeat split; lia.
Qed.

Lemma space_not_terminator (c : cu) : isWhiteSpace c = false -> isLineTerminator c = false.
Proof.
  unfold isWhiteSpace, isLineTerminator. intro H.
  repeat rewrite orb_false_iff in H. repeat rewrite andb_false_iff in H.
  repeat rewrite N.leb_gt in H. repeat rewrite N.eqb_neq in H.
  repeat rewrite orb_false_iff. repeat rewrite N.eqb_neq.
  repeat split; lia.
Qed.

(** The rest of a line from a code unit that is no white space on: the
    dot under a plus takes some of it. *)
Lemma dots_hit (ic : bool) (i : nat) (t : cu) (T : jstring) (pos : nat) (cp : caps) :
  isWhiteSpace t = false ->
  exists res, rmatch ic (Group i (Plus Dot)) kdone pos (t :: T) cp = Some res.
Proof.
  intro Ht. destruct (span_exists ic Dot T) as (w & R & -> & Hw & HR).
  rewrite rmatch_group. eexists.
  change (t :: w ++ R) with ((t :: w) ++ R).
  apply plus_hit; [discriminate| |exact HR|reflexivity].
  constructor; [|exact Hw]. cbn [cmatch].
  now rewrite (space_not_terminator t Ht).
Qed.

Lemma chapterLinePattern_eq :
  chapterLinePattern
  = Seq Bol (Seq (lit "Chapter") (Seq (Plus ws) (Seq (Group 1 chapterNames) chapterTail))).
Proof. reflexivity. Qed.

Lemma chapterTail_hit (S2 T : jstring) (t : cu) (pos : nat) (cp : caps) :
  allWs S2 -> isWhiteSpace t = false ->
  exists res, rmatch true chapterTail kdone pos (colon :: S2 ++ t :: T) cp = Some res.
Proof.
  intros HS Ht. unfold chapterTail.
  destruct (dots_hit true 2 t T (S pos + length S2) cp Ht) as [res Hres].
  exists res. rewrite rmatch_seq. cbn [lit]. rewrite rmatch_chr.
  change (cmatch true (OneOf [CChar (N_of_ascii ":")]) colon) with true. cbv iota.
  rewrite rmatch_seq. apply star_hit; [now apply allWs_cmatch| |exact Hres].
  intros x R' E. inversion E; subst. now rewrite cmatch_ws.
Qed.

Lemma chapter_hit (C S1 W S2 T : jstring) (t : cu) :
  spells true "Chapter" C ->
  S1 <> [] -> allWs S1 ->
  W <> [] -> Forall (fun c => isWordChar c = true) W ->
  allWs S2 -> isWhiteSpace t = false ->
  test true chapterLinePattern (C ++ S1 ++ W ++ colon :: S2 ++ t :: T) = true.
Proof.
  intros HC Hne1 HS1 HneW HW HS2 Ht.
  assert (H : exists res,
             rmatch true (Seq (lit "Chapter")
                              (Seq (Plus ws) (Seq (Group 1 chapterNames) chapterTail)))
                    kdone 0 (C ++ S1 ++ W ++ colon :: S2 ++ t :: T) [] = Some res).
  { rewrite rmatch_seq, (lit_hit true "Chapter" C _ _ 0 [] HC).
    rewrite rmatch_seq.
    assert (Hw1 : exists w1 W', W = w1 :: W') by (destruct W; [congruence|eauto]).
    destruct Hw1 as (w1 & W' & EW).
    assert (Hstop : stopsAt true ws (W ++ colon :: S2 ++ t :: T)).
    { intros x R' E. subst W. inversion E; subst. rewrite cmatch_ws.
      apply word_not_space. now inversion HW. }
    assert (Hin : exists res,
               rmatch true (Seq (Group 1 chapterNames) chapterTail) kdone
                      (0 + length C + length S1) (W ++ colon :: S2 ++ t :: T) []
               = Some res).
    { rewrite rmatch_seq, rmatch_group. unfold chapterNames.
      do 10 apply alt_right.
      destruct (chapterTail_hit S2 T t (0 + length C + length S1 + length W)
                  (setcap 1 (firstn (0 + length C + length S1 + length W
                                     - (0 + length C + length S1))
                                    (W ++ colon :: S2 ++ t :: T)) []) HS2 Ht)
        as [res Hres].
      exists res. apply plus_hit; auto.
      - eapply Forall_impl; [|exact HW]. intros a Ha. now rewrite cmatch_word.
      - intros x R' E. inversion E; subst. reflexivity. }
    destruct Hin as [res Hres]. exists res.
    apply plus_hit; auto. now apply allWs_cmatch. }
  destruct H as [[[e after] cp] H].
  unfold test. rewrite chapterLinePattern_eq, matchOnce_anchored, H. reflexivity.
Qed.

End LineFacts.

Import LineFacts.

(* ===================================================================== *)
(** ** Facts about line endings *)
(* ===================================================================== *)

Module LineEndingFacts.

Lemma fromMarker_spec (needle : jstring) :
  forall s k,
    match fromMarker needle s with
    | Some suf => exists pre, s = pre ++ suf
                              /\ indexOfFrom needle s k = Z.of_nat (k + length pre)
    | None => indexOfFrom needle s k = (-1)%Z
    end.
Proof.
  induction s as [|c s IH]; intro k; cbn [fromMarker indexOfFrom].
  - destruct (startsWith needle []); [|reflexivity].
    exists []. split; [reflexivity|]. cbn. f_equal. lia.
  - destruct (startsWith needle (c :: s)).
    + exists []. split; [reflexivity|]. cbn. f_equal. lia.
    + specialize (IH (S k)). destruct (fromMarker needle s) as [suf|]; [|exact IH].
      destruct IH as (pre & -> & IH). exists (c :: pre). split; [reflexivity|].
      rewrite IH. f_equal. cbn. lia.
Qed.

Lemma lawTextOf_fromMarker (text : jstring) :
  lawTextOf text = match fromMarker lawTextMarker text with
                   | Some suf => suf
                   | None => text
                   end.
Proof.
  unfold lawTextOf, indexOf. pose proof (fromMarker_spec lawTextMarker text 0) as H.
  destruct (fromMarker lawTextMarker text) as [suf|].
  - destruct H as (pre & -> & ->). cbn [Nat.add].
    replace (0 <=? Z.of_nat (length pre))%Z with true
      by (symmetry; apply Z.leb_le; lia).
    rewrite Nat2Z.id, substringFrom_skipn by (rewrite length_app; lia).
    now rewrite skipn_app, skipn_all, Nat.sub_diag.
  - now rewrite H.
Qed.

Lemma startsWith_crlf (m : jstring) :
  Forall (fun c => c <> cr /\ c <> lf) m ->
  forall t, startsWith m (crlf t) = startsWith m t.
Proof.
  induction 1 as [|x m [Hx1 Hx2] Hm IH]; intro t; [reflexivity|].
  destruct t as [|c t]; [reflexivity|].
  cbn [crlf flat_map]. destruct (c =? 10)%N eqn:Ec.
  - apply N.eqb_eq in Ec. subst c. cbn [app startsWith].
    replace (cu_eqb x cr) with false by (symmetry; now apply N.eqb_neq).
    replace (cu_eqb x 10%N) with false by (symmetry; now apply N.eqb_neq).
    reflexivity.
  - cbn [app startsWith]. f_equal. apply IH.
Qed.

Lemma fromMarker_hit (m s : jstring) :
  startsWith m s = true -> fromMarker m s = Some s.
Proof. intro H. destruct s; cbn [fromMarker]; now rewrite H. Qed.

Lemma fromMarker_crlf (m : jstring) :
  m <> [] -> Forall (fun c => c <> cr /\ c <> lf) m ->
  forall t, fromMarker m (crlf t) = option_map crlf (fromMarker m t).
Proof.
  intros Hne Hm. induction t as [|c t IH]; cbn [fromMarker].
  - change (crlf []) with (@nil cu). cbn [fromMarker].
    destruct (startsWith m []); reflexivity.
  - pose proof (startsWith_crlf m Hm (c :: t)) as Hs.
    destruct (startsWith m (c :: t)) eqn:E.
    + now rewrite (fromMarker_hit _ _ Hs).
    + cbn [crlf flat_map] in *. destruct (c =? 10)%N.
      * cbn [app] in *. cbn [fromMarker]. rewrite Hs.
        destruct m as [|x m']; [congruence|]. inversion Hm as [|? ? [_ Hx] _]; subst.
        cbn [startsWith].
        replace (cu_eqb x lf) with false by (symmetry; now apply N.eqb_neq).
        cbn [andb]. exact IH.
      * cbn [app] in *. cbn [fromMarker]. rewrite Hs. exact IH.
Qed.

Lemma lawTextOf_crlf (text : jstring) : lawTextOf (crlf text) = crlf (lawTextOf text).
Proof.
  rewrite !lawTextOf_fromMarker, fromMarker_crlf.
  - now destruct (fromMarker lawTextMarker text).
  - discriminate.
  - apply (Claims.Forall_check _ (fun c => negb (N.eqb c cr) && negb (N.eqb c lf))).
    + intros c H. apply andb_true_iff in H as [H1 H2].
      apply negb_true_iff in H1, H2. split; now apply N.eqb_neq.
    + vm_compute. reflexivity.
Qed.

Lemma splitLines_cons (t : jstring) : exists l ls, splitLines t = l :: ls.
Proof.
  induction t as [|c t (l & ls & E)]; cbn [splitLines]; [eauto|].
  destruct (c =? 10)%N; [eauto|]. rewrite E. eauto.
Qed.

Lemma splitLines_crlf (t : jstring) :
  Forall2 sameLine (splitLines (crlf t)) (splitLines t).
Proof.
  induction t as [|c t IH].
  - repeat constructor.
  - cbn [crlf flat_map]. destruct (c =? 10)%N eqn:Ec.
    + cbn [app]. change (splitLines (cr :: lf :: flat_map _ t))
        with (match splitLines (lf :: crlf t) with
              | l :: ls => (cr :: l) :: ls
              | [] => [[cr]]
              end).
      cbn [splitLines]. change (lf =? 10)%N with true. cbv iota. rewrite Ec.
      constructor; [now right|exact IH].
    + cbn [app splitLines]. rewrite Ec.
      fold (crlf t).
      destruct (splitLines_cons (crlf t)) as (l & ls & E1).
      destruct (splitLines_cons t) as (l' & ls' & E2).
      rewrite E1, E2 in *. inversion IH as [|? ? ? ? Hl Hls]; subst.
      constructor; [|exact Hls].
      destruct Hl as [->| ->]; [now left|now right].
Qed.

Lemma trimEnd_ws (b : jstring) (c : cu) :
  isWhiteSpace c = true -> trimEnd (b ++ [c]) = trimEnd b.
Proof.
  intro Hc. induction b as [|x b IH]; cbn [app trimEnd].
  - now rewrite Hc.
  - now rewrite IH.
Qed.

Lemma trim_ws (b : jstring) (c : cu) :
  isWhiteSpace c = true -> trim (b ++ [c]) = trim b.
Proof.
  intro Hc. unfold trim. induction b as [|x b IH]; cbn [app trimStart].
  - now rewrite Hc.
  - destruct (isWhiteSpace x); [exact IH|].
    change (x :: b ++ [c]) with ((x :: b) ++ [c]). now apply trimEnd_ws.
Qed.

Lemma sameLine_trim (a b : jstring) : sameLine a b -> trim a = trim b.
Proof. intros [->| ->]; [reflexivity|]. now apply trim_ws. Qed.

Lemma computerLine_sameLine (st : TextState) (a b : jstring) :
  trim a = trim b -> computerLine st a = computerLine st b.
Proof. intro H. unfold computerLine. now rewrite H. Qed.

Lemma foldM_computerLine_sameLine (ls ls' : list jstring) :
  Forall2 sameLine ls ls' ->
  forall st, foldM computerLine ls st = foldM computerLine ls' st.
Proof.
  induction 1 as [|a b ls ls' Hab Hls IH]; intro st; [reflexivity|].
  cbn [foldM]. rewrite (computerLine_sameLine st a b (sameLine_trim a b Hab)).
  destruct (computerLine st b); [apply IH|reflexivity].
Qed.

Lemma nth_error_sameLine (ls ls' : list jstring) :
  Forall2 sameLine ls ls' ->
  forall i, option_map trim (nth_error ls i) = option_map trim (nth_error ls' i).
Proof.
  induction 1 as [|a b ls ls' Hab Hls IH]; intro i.
  - now destruct i.
  - destruct i; cbn; [|apply IH]. f_equal. now apply sameLine_trim.
Qed.

(** The look-back reads the lines through their trimmed text only. *)
Lemma lookBack_trim (ls ls' : list jstring) :
  forall n j title,
    (forall k, j - (n - 1) <= k <= j ->
               option_map trim (nth_error ls k) = option_map trim (nth_error ls' k)) ->
    lookBack ls n j title = lookBack ls' n j title.
Proof.
  induction n as [|n IH]; intros j title H; [reflexivity|].
  cbn [lookBack].
  pose proof (H j ltac:(lia)) as Hj.
  destruct (nth_error ls j) as [a|], (nth_error ls' j) as [b|]; try discriminate;
    [|reflexivity].
  cbn [option_map] in Hj. inversion Hj as [Eab]. cbn [bind]. rewrite Eab.
  assert (Hrec : forall t, lookBack ls n (j - 1) t = lookBack ls' n (j - 1) t).
  { intro t. destruct n; [reflexivity|]. apply IH. intros k Hk. apply H. lia. }
  rewrite !Hrec. reflexivity.
Qed.

Lemma basicLine_trim (ls ls' : list jstring) (st : BasicState) (i : nat) :
  (forall k, i - 4 <= k <= i ->
             option_map trim (nth_error ls k) = option_map trim (nth_error ls' k)) ->
  basicLine ls st i = basicLine ls' st i.
Proof.
  intro H. unfold basicLine.
  pose proof (H i ltac:(lia)) as Hi.
  destruct (nth_error ls i) as [a|], (nth_error ls' i) as [b|]; try discriminate;
    [|reflexivity].
  cbn [option_map] in Hi. inversion Hi as [Eab]. cbn [bind]. rewrite Eab.
  rewrite (lookBack_trim ls ls' (Nat.min i 4) (i - 1) []); [reflexivity|].
  intros k Hk. apply H. lia.
Qed.

Lemma basicSections_sameLine (t t' : jstring) :
  Forall2 sameLine (splitLines t) (splitLines t') ->
  basicSections t = basicSections t'.
Proof.
  intro H. unfold basicSections. cbv zeta.
  rewrite (Forall2_length H).
  assert (E : forall l st,
             foldM (basicLine (splitLines t)) l st
             = foldM (basicLine (splitLines t')) l st).
  { induction l as [|i l IH]; intro st; [reflexivity|]. cbn [foldM].
    rewrite (basicLine_trim (splitLines t) (splitLines t') st i).
    - destruct (basicLine _ st i); [apply IH|reflexivity].
    - intros k _. now apply nth_error_sameLine. }
  now rewrite E.
Qed.

End LineEndingFacts.

Import LineEndingFacts.

(* ===================================================================== *)
(** ** Facts about stripHtml *)
(* ===================================================================== *)

Module MarkupFacts.

Lemma replaceAll_none (ic : bool) (r : re) (rep s : jstring) :
  nullable r = false -> Forall (fun c => firstc ic r c = false) s ->
  replaceAll ic r rep s = s.
Proof.
  intros Hn Hs. unfold replaceAll. cbn [replaceLoop].
  now rewrite (search_none ic r Hn s 0 Hs).
Qed.

(** The tags *)

Lemma firstc_tag (c : cu) : firstc false tagPattern c = cu_eqb lessThan c.
Proof.
  unfold tagPattern. cbn [cat lit firstc nullable andb]. rewrite cmatch_char.
  apply orb_false_r.
Qed.

Lemma noLt_firstc (s : jstring) :
  Forall (fun c => c <> lessThan) s ->
  Forall (fun c => firstc false tagPattern c = false) s.
Proof.
  intro H. eapply Forall_impl; [|exact H]. intros c Hc. cbv beta.
  rewrite firstc_tag. unfold cu_eqb. apply N.eqb_neq. congruence.
Qed.

Lemma tag_hit (g rest : jstring) (pos : nat) :
  tagBody g ->
  rmatch false tagPattern kdone pos (lessThan :: g ++ greaterThan :: rest) []
  = Some (pos + 2 + length g, rest, []).
Proof.
  intros [Hne Hg]. unfold tagPattern. cbn [cat lit].
  rewrite rmatch_seq, rmatch_chr.
  change (cmatch false (OneOf [CChar (N_of_ascii "<")]) lessThan) with true. cbv iota.
  rewrite rmatch_seq.
  apply plus_hit; auto.
  - eapply Forall_impl; [|exact Hg]. intros c Hc. cbv beta.
    unfold not1. cbn [list_ascii_of_string map cmatch existsb imatch canon andb].
    rewrite orb_false_r. apply negb_true_iff. unfold cu_eqb. apply N.eqb_neq.
    intro E. apply Hc. now rewrite <- E.
  - intros x R' E. inversion E; subst. reflexivity.
  - rewrite rmatch_chr.
    change (cmatch false (OneOf [CChar (N_of_ascii ">")]) greaterThan) with true.
    cbv iota. unfold kdone.
    replace (pos + 2 + length g) with (S (S pos + length g)) by lia. reflexivity.
Qed.

Lemma markup_cons (t0 g t : jstring) (tl : list (jstring * jstring)) :
  markup t0 ((g, t) :: tl) = t0 ++ (lessThan :: g ++ greaterThan :: markup t tl).
Proof. reflexivity. Qed.

Lemma tags_replaced :
  forall l t0 pos fuel,
    Forall (fun c => c <> lessThan) t0 ->
    Forall (fun gt => tagBody (fst gt) /\ Forall (fun c => c <> lessThan) (snd gt)) l ->
    length (markup t0 l) < fuel ->
    replaceLoop false fuel tagPattern (str " ") pos (markup t0 l) = tagsAsSpaces t0 l.
Proof.
  induction l as [|[g t] tl IH]; intros t0 pos fuel H0 Hl Hf;
    (destruct fuel as [|fuel]; [lia|]); cbn [replaceLoop].
  - cbn [markup tagsAsSpaces].
    now rewrite (search_none false tagPattern eq_refl t0 pos (noLt_firstc t0 H0)).
  - inversion Hl as [|? ? [Hg Ht] Hl']; subst. cbn [fst snd] in *.
    rewrite markup_cons.
    rewrite (search_skip false tagPattern
               (MResult (pos + length t0) (pos + length t0 + 2 + length g)
                        (lessThan :: g ++ [greaterThan]) [] (markup t tl))
               eq_refl t0 _ pos (noLt_firstc t0 H0)).
    + cbn [m_index m_end m_after].
      replace (pos + length t0 - pos) with (length t0) by lia.
      rewrite firstn_app, Nat.sub_diag, firstn_all. cbn [firstn]. rewrite app_nil_r.
      replace (Nat.eqb (pos + length t0 + 2 + length g) (pos + length t0)) with false
        by (symmetry; apply Nat.eqb_neq; lia).
      rewrite IH; auto.
      rewrite markup_cons, !length_app in Hf. cbn [length] in Hf.
      rewrite length_app in Hf. cbn [length] in Hf. lia.
    + rewrite search_eq, tag_hit by exact Hg. do 2 f_equal.
      replace (pos + length t0 + 2 + length g - (pos + length t0))
        with (length (lessThan :: g ++ [greaterThan]))
        by (cbn [length]; rewrite length_app; cbn [length]; lia).
      change (lessThan :: g ++ greaterThan :: markup t tl)
        with ((lessThan :: g) ++ greaterThan :: markup t tl).
      replace ((lessThan :: g) ++ greaterThan :: markup t tl)
        with ((lessThan :: g ++ [greaterThan]) ++ markup t tl)
        by (cbn [app]; now rewrite <- app_assoc).
      rewrite firstn_app, Nat.sub_diag, firstn_all. cbn [firstn]. now rewrite app_nil_r.
Qed.

(** The character references *)

Lemma noAmp_firstc (a : string) (s : jstring) :
  noAmp s ->
  Forall (fun c => firstc false (lit (String "&" a)) c = false) s.
Proof.
  intro H. eapply Forall_impl; [|exact H]. intros c Hc. cbv beta.
  assert (Hf : cmatch false (OneOf [CChar (N_of_ascii "&")]) c = false).
  { rewrite cmatch_char. unfold cu_eqb. apply N.eqb_neq. intro E. apply Hc.
    now rewrite <- E. }
  destruct a; cbn [lit firstc nullable andb]; rewrite Hf; reflexivity.
Qed.

Lemma lit_nullable (c : ascii) (a : string) : nullable (lit (String c a)) = false.
Proof. destruct a; reflexivity. Qed.

(** No reference at all. *)
Lemma reference_absent (a : string) (rep s : jstring) :
  noAmp s -> replaceAll false (lit (String "&" a)) rep s = s.
Proof.
  intro H. apply replaceAll_none; [apply lit_nullable|now apply noAmp_firstc].
Qed.

(** One ampersand, at which the reference is. *)
Lemma reference_decoded (a : string) (rep pre post : jstring) :
  noAmp pre -> noAmp (str a) -> noAmp post ->
  replaceAll false (lit (String "&" a)) rep (pre ++ ampersand :: str a ++ post)
  = pre ++ rep ++ post.
Proof.
  intros Hpre Ha Hpost. unfold replaceAll. cbn [replaceLoop].
  change (ampersand :: str a ++ post) with (str (String "&" a) ++ post).
  set (e := str (String "&" a)).
  assert (Hm : rmatch false (lit (String "&" a)) kdone (0 + length pre) (e ++ post) []
               = Some (0 + length pre + length e, post, [])).
  { unfold e. rewrite (lit_hit false _ _ post kdone _ [] (spells_str _)). reflexivity. }
  rewrite (search_skip false (lit (String "&" a))
             (MResult (0 + length pre) (0 + length pre + length e) e [] post)
             (lit_nullable _ _) pre _ 0 (noAmp_firstc a pre Hpre)).
  - cbn [m_index m_end m_after Nat.add]. rewrite Nat.sub_0_r.
    rewrite firstn_app, Nat.sub_diag, firstn_all. cbn [firstn]. rewrite app_nil_r.
    assert (He : 0 < length e) by (unfold e, str; cbn; lia).
    replace (Nat.eqb (length pre + length e) (length pre)) with false
      by (symmetry; apply Nat.eqb_neq; lia).
    destruct (length (pre ++ e ++ post)) as [|n] eqn:En.
    + rewrite !length_app in En. lia.
    + rewrite (replaceLoop_fuel false anyHead _ rep (S n) (S (length post)));
        [|rewrite !length_app in En; lia|lia].
      cbn [replaceLoop].
      now rewrite (search_none false _ (lit_nullable _ _) post _ (noAmp_firstc a post Hpost)).
  - rewrite search_eq, Hm. do 2 f_equal. now rewrite firstn_exact.
Qed.

(** One ampersand, at which the reference is not. *)
Lemma reference_elsewhere (a : string) (rep pre rest : jstring) :
  noAmp pre -> noAmp rest ->
  (forall pos, rmatch false (lit (String "&" a)) kdone pos (ampersand :: rest) [] = None) ->
  replaceAll false (lit (String "&" a)) rep (pre ++ ampersand :: rest)
  = pre ++ ampersand :: rest.
Proof.
  intros Hpre Hrest Hm. unfold replaceAll. cbn [replaceLoop].
  assert (Hs : forall pos, search false (lit (String "&" a)) pos (pre ++ ampersand :: rest)
                           = None).
  { intro pos. destruct (search false _ pos _) as [m|] eqn:E; [|reflexivity].
    exfalso. revert pos E. induction pre as [|c pre IH]; intros pos E.
    - cbn [app] in E. rewrite search_eq, Hm in E.
      now rewrite (search_none false _ (lit_nullable _ _) rest _ (noAmp_firstc a rest Hrest))
        in E.
    - inversion Hpre; subst. cbn [app] in E. rewrite search_eq in E.
      rewrite (rmatch_first_fails false _ c _ pos (lit_nullable _ _)) in E.
      + now apply IH in E.
      + pose proof (noAmp_firstc a [c]) as Hc. 
        assert (Hn : noAmp [c]) by (constructor; [assumption|constructor]).
        specialize (Hc Hn). now inversion Hc. }
  now rewrite Hs.
Qed.

Lemma plainText_noAmp (t : jstring) : plainText t -> noAmp t.
Proof. intro H. eapply Forall_impl; [|exact H]. now intros c [_ Hc]. Qed.

Lemma plainText_noLt (t : jstring) : plainText t -> Forall (fun c => c <> lessThan) t.
Proof. intro H. eapply Forall_impl; [|exact H]. now intros c [Hc _]. Qed.

Lemma tagsAsSpaces_noAmp (l : list (jstring * jstring)) :
  forall t0,
    plainText t0 ->
    Forall (fun gt => tagBody (fst gt) /\ plainText (snd gt)) l ->
    noAmp (tagsAsSpaces t0 l).
Proof.
  induction l as [|[g t] tl IH]; intros t0 H0 Hl; cbn [tagsAsSpaces].
  - now apply plainText_noAmp.
  - inversion Hl as [|? ? [_ Ht] Hl']; subst. cbn [snd] in Ht.
    apply Forall_app. split; [now apply plainText_noAmp|].
    cbn [app]. constructor; [discriminate|]. now apply IH.
Qed.

(** The six passes over a text without ampersand. *)
Lemma references_absent (s : jstring) :
  noAmp s ->
  replaceAll false (lit "&#39;") (str "'")
    (replaceAll false (lit "&quot;") [dquote]
    (replaceAll false (lit "&gt;") (str ">")
    (replaceAll false (lit "&lt;") (str "<")
    (replaceAll false (lit "&amp;") (str "&")
    (replaceAll false (lit "&nbsp;") (str " ") s))))) = s.
Proof.
  intro H.
  rewrite (reference_absent "nbsp;" _ s H), (reference_absent "amp;" _ s H),
    (reference_absent "lt;" _ s H), (reference_absent "gt;" _ s H),
    (reference_absent "quot;" _ s H). now apply reference_absent.
Qed.

(** A text with one ampersand and no tag. *)
Lemma tags_absent (pre rest : jstring) :
  plainText pre -> Forall (fun c => c <> lessThan) rest ->
  replaceAll false tagPattern (str " ") (pre ++ ampersand :: rest)
  = pre ++ ampersand :: rest.
Proof.
  intros Hp Hr. apply replaceAll_none; [reflexivity|]. apply noLt_firstc.
  apply Forall_app. split; [now apply plainText_noLt|].
  constructor; [discriminate|exact Hr].
Qed.

Lemma noAmp_app (a b : jstring) : noAmp a -> noAmp b -> noAmp (a ++ b).
Proof. intros Ha Hb. apply Forall_app. now split. Qed.

Lemma noLt_app (a b : jstring) :
  Forall (fun c => c <> lessThan) a -> Forall (fun c => c <> lessThan) b ->
  Forall (fun c => c <> lessThan) (a ++ b).
Proof. intros Ha Hb. apply Forall_app. now split. Qed.

Lemma differs_check (a : cu) (s : jstring) :
  forallb (fun c => negb (cu_eqb c a)) s = true -> Forall (fun c => c <> a) s.
Proof.
  intro H. apply Forall_forall. intros c Hc.
  rewrite forallb_forall in H. specialize (H c Hc).
  apply negb_true_iff in H. unfold cu_eqb in H. now apply N.eqb_neq.
Qed.

Ltac closed_forall := apply differs_check; vm_compute; reflexivity.

(** One pass over a text with one ampersand: the reference is decoded,
    or the pattern fails at the ampersand, or there is no ampersand
    left. *)
Ltac pass Hpre Hpost :=
  first
    [ rewrite reference_decoded;
      [|exact Hpre|closed_forall|exact Hpost]
    | rewrite reference_elsewhere;
      [|exact Hpre|apply noAmp_app; [closed_forall|exact Hpost]
       |intro; reflexivity]
    | match goal with
      | |- context [replaceAll false (lit (String "&" ?a)) ?rep (?p ++ ?q)] =>
          rewrite (reference_absent a rep (p ++ q));
          [|apply noAmp_app; [exact Hpre|apply noAmp_app; [closed_forall|exact Hpost]]]
      end ].

Lemma reference_single (name : string) (r pre post : jstring) :
  In (name, r) references -> plainText pre -> plainText post ->
  stripHtml (pre ++ ampersand :: str name ++ post) = normalizeText (pre ++ r ++ post).
Proof.
  intros Hin Hp Hq.
  pose proof (plainText_noAmp _ Hp) as Hpre. pose proof (plainText_noAmp _ Hq) as Hpost.
  pose proof (plainText_noLt _ Hq) as Hlt.
  unfold stripHtml, normalizeText.
  cbn [references laterReferences In] in Hin.
  repeat (destruct Hin as [Hin|Hin]; [inversion Hin; subst name r; clear Hin|]);
    [..|contradiction];
    (rewrite tags_absent; [|exact Hp|apply noLt_app; [closed_forall|exact Hlt]]);
    do 6 (pass Hpre Hpost); reflexivity.
Qed.

Lemma later_fails (a : ascii) (t : string) (post : jstring) (pos : nat) :
  match post with
  | [] => True
  | c :: _ => cu_eqb (N_of_ascii a) c = false
  end ->
  rmatch false (lit (String "&" (String a t))) kdone pos (ampersand :: post) [] = None.
Proof.
  intro H.
  change (lit (String "&" (String a t)))
    with (Seq (Chr (OneOf [CChar (N_of_ascii "&")])) (lit (String a t))).
  rewrite rmatch_seq, rmatch_chr.
  change (cmatch false (OneOf [CChar (N_of_ascii "&")]) ampersand) with true. cbv iota.
  destruct post as [|c post'].
  - destruct t; reflexivity.
  - destruct t as [|b t'].
    + cbn [lit]. now rewrite rmatch_chr, cmatch_char, H.
    + change (lit (String a (String b t')))
        with (Seq (Chr (OneOf [CChar (N_of_ascii a)])) (lit (String b t'))).
      now rewrite rmatch_seq, rmatch_chr, cmatch_char, H.
Qed.

Lemma reference_ampersand (pre post : jstring) :
  plainText pre -> plainText post ->
  match post with
  | [] => True
  | c :: _ => startsReference c = false
  end ->
  stripHtml (pre ++ str "&amp;" ++ post) = normalizeText (pre ++ ampersand :: post).
Proof.
  intros Hp Hq Hhead.
  pose proof (plainText_noAmp _ Hp) as Hpre. pose proof (plainText_noAmp _ Hq) as Hpost.
  pose proof (plainText_noLt _ Hq) as Hlt.
  assert (Hh : forall a : ascii,
             In a ["l"; "g"; "q"; "#"]%char ->
             match post with
             | [] => True
             | c :: _ => cu_eqb (N_of_ascii a) c = false
             end).
  { intros a Ha. destruct post as [|c post']; [exact I|].
    unfold startsReference in Hhead. repeat rewrite orb_false_iff in Hhead.
    destruct Hhead as (((H1 & H2) & H3) & H4).
    cbn [In] in Ha. repeat (destruct Ha as [<-|Ha]; [assumption|]). contradiction. }
  unfold stripHtml, normalizeText.
  change (str "&amp;" ++ post) with (ampersand :: str "amp;" ++ post).
  rewrite tags_absent; [|exact Hp|apply noLt_app; [closed_forall|exact Hlt]].
  rewrite reference_elsewhere;
    [|exact Hpre|apply noAmp_app; [closed_forall|exact Hpost]|intro; reflexivity].
  rewrite reference_decoded; [|exact Hpre|closed_forall|exact Hpost].
  change (pre ++ str "&" ++ post) with (pre ++ ampersand :: post).
  rewrite (reference_elsewhere "lt;"); [|exact Hpre|exact Hpost|].
  rewrite (reference_elsewhere "gt;"); [|exact Hpre|exact Hpost|].
  rewrite (reference_elsewhere "quot;"); [|exact Hpre|exact Hpost|].
  rewrite (reference_elsewhere "#39;"); [|exact Hpre|exact Hpost|].
  - reflexivity.
  - intro pos. apply later_fails. apply Hh. cbn. tauto.
  - intro pos. apply later_fails. apply Hh. cbn. tauto.
  - intro pos. apply later_fails. apply Hh. cbn. tauto.
  - intro pos. apply later_fails. apply Hh. cbn. tauto.
Qed.

(** Checking that a text is plain by evaluation. *)
Lemma plainText_check (t : jstring) :
  forallb (fun c => negb (cu_eqb c lessThan) && negb (cu_eqb c ampersand)) t = true ->
  plainText t.
Proof.
  intro H. apply Forall_forall. intros c Hc.
  rewrite forallb_forall in H. specialize (H c Hc).
  apply andb_true_iff in H as [H1 H2]. apply negb_true_iff in H1, H2.
  unfold cu_eqb in H1, H2. split; now apply N.eqb_neq.
Qed.

End MarkupFacts.

Import MarkupFacts.

(* ===================================================================== *)
(** ** Facts about the ingestion pipeline *)
(* ===================================================================== *)

Module IngestFacts.

Lemma takeDigits_spec (s : jstring) :
  Forall (fun d => isDigit d = true) (takeDigits s)
  /\ s = takeDigits s ++ skipn (length (takeDigits s)) s.
Proof.
  induction s as [|c s [IH1 IH2]]; cbn [takeDigits]; [split; [constructor|reflexivity]|].
  destruct (isDigit c) eqn:Ec; cbn [length skipn app].
  - split; [now constructor|]. f_equal. exact IH2.
  - split; [constructor|reflexivity].
Qed.

Lemma isLabelb_sound (s : jstring) : isLabelb s = true -> isLabel s.
Proof.
  unfold isLabelb. destruct (takeDigits_spec s) as [HD E].
  destruct (takeDigits s) as [|d D] eqn:ED; [discriminate|].
  destruct (skipn (length (d :: D)) s) as [|l [|l' L]] eqn:EL; intro H;
    try discriminate.
  - exists (d :: D), []. split; [exact E|]. split; [discriminate|]. split; [exact HD|now left].
  - exists (d :: D), [l]. split; [exact E|]. split; [discriminate|].
    split; [exact HD|right; eauto].
Qed.

Lemma normalizedb_sound (s : jstring) : normalizedb s = true -> normalized s.
Proof. unfold normalizedb, normalized. apply eqb_eq. Qed.

Lemma distinctb_sound (l : list jstring) : distinctb l = true -> NoDup l.
Proof.
  induction l as [|x l IH]; cbn [distinctb]; intro H; constructor.
  - apply andb_true_iff in H as [H _]. apply negb_true_iff in H.
    intro Hin. assert (Ht : existsb (JS.eqb x) l = true).
    { apply existsb_exists. exists x. split; [exact Hin|apply eqb_refl]. }
    congruence.
  - apply andb_true_iff in H as [_ H]. now apply IH.
Qed.

Lemma forallb_neq (a : cu) (s : jstring) :
  forallb (fun c => negb (cu_eqb c a)) s = true -> Forall (fun c => c <> a) s.
Proof.
  intro H. apply Forall_forall. intros c Hc.
  rewrite forallb_forall in H. specialize (H c Hc).
  apply negb_true_iff in H. unfold cu_eqb in H. now apply N.eqb_neq.
Qed.

Lemma checkProvision_sound (p : ParsedProvision) :
  checkProvision p = true -> metadataProvision p.
Proof.
  unfold checkProvision, metadataProvision. intro H.
  repeat (apply andb_true_iff in H as [H ?]).
  repeat split.
  - apply orb_true_iff in H as [H|H]; [left|right]; now apply eqb_eq.
  - now apply isLabelb_sound.
  - now apply normalizedb_sound.
  - destruct (chapter p); [discriminate|reflexivity].
  - now apply normalizedb_sound.
  - now apply Nat.ltb_lt.
  - now apply Nat.leb_le.
Qed.

Lemma checkDefinition_sound (ps : list ParsedProvision) (d : ParsedDefinition) :
  checkDefinition ps d = true -> metadataDefinition ps d.
Proof.
  unfold checkDefinition, metadataDefinition, wellFormedDefinition. intro H.
  repeat (apply andb_true_iff in H as [H ?]).
  repeat split.
  - now apply Nat.ltb_lt.
  - now apply Nat.ltb_lt.
  - now apply Nat.ltb_lt.
  - now apply normalizedb_sound.
  - now apply normalizedb_sound.
  - now apply forallb_neq.
  - now apply forallb_neq.
  - destruct (source_provision d) as [sp|]; [|discriminate].
    match goal with
    | E : existsb _ ps = true |- _ =>
        apply existsb_exists in E as (p & Hin & Hp)
    end.
    apply eqb_eq in Hp. exists p. split; [exact Hin|now rewrite Hp].
Qed.

Lemma checkRecord_sound (ps : list ParsedProvision) (ds : list ParsedDefinition) :
  checkRecord ps ds = true -> metadataRecord ps ds.
Proof.
  unfold checkRecord, metadataRecord. intro H.
  repeat (apply andb_true_iff in H as [H ?]).
  repeat split.
  - apply Forall_forall. intros p Hp. apply checkProvision_sound.
    rewrite forallb_forall in H. now apply H.
  - now apply distinctb_sound.
  - apply Forall_forall. intros d Hd. apply checkDefinition_sound.
    match goal with
    | E : forallb (checkDefinition ps) ds = true |- _ =>
        rewrite forallb_forall in E; now apply E
    end.
  - now apply distinctb_sound.
Qed.

Lemma ownProperty_In (key : jstring) (table : list (jstring * MetadataEntry))
      (meta : MetadataEntry) :
  ownProperty key table = Some meta -> In (key, meta) table.
Proof.
  induction table as [|[k v] tl IH]; cbn [ownProperty]; [discriminate|].
  destruct (JS.eqb key k) eqn:E.
  - intro H. inversion H; subst. apply eqb_eq in E. subst. now left.
  - intro H. right. now apply IH.
Qed.

Lemma ownProperty_absent (key : jstring) (table : list (jstring * MetadataEntry)) :
  ~ In key (map fst table) -> ownProperty key table = None.
Proof.
  induction table as [|[k v] tl IH]; cbn [ownProperty map fst]; [reflexivity|].
  intro H. destruct (JS.eqb key k) eqn:E.
  - apply eqb_eq in E. exfalso. apply H. now left.
  - apply IH. intro Hin. apply H. now right.
Qed.

Lemma not_inherited (key : jstring) :
  ~ In key objectPrototypeMembers ->
  existsb (JS.eqb key) objectPrototypeMembers = false.
Proof.
  intro H. destruct (existsb _ _) eqn:E; [|reflexivity].
  apply existsb_exists in E as (x & Hin & Hx). apply eqb_eq in Hx. now subst.
Qed.

Lemma member_undefined (key : jstring) :
  ~ In key (map fst metadataActs) -> ~ In key objectPrototypeMembers ->
  member key = Undefined.
Proof.
  intros H1 H2. unfold member.
  now rewrite (ownProperty_absent _ _ H1), (not_inherited _ H2).
Qed.

Lemma metadataActs_checked :
  forallb (fun kv => checkRecord (me_provisions (snd kv)) (me_definitions (snd kv)))
          metadataActs = true.
Proof. vm_compute. reflexivity. Qed.

Lemma metadata_record (act : ActIndexEntry) :
  match mo_provisions (createMetadataOnlyAct act),
        mo_definitions (createMetadataOnlyAct act) with
  | Some ps, Some ds => metadataRecord ps ds
  | _, _ => In (id act) objectPrototypeMembers
  end.
Proof.
  unfold createMetadataOnlyAct, member.
  destruct (ownProperty (id act) metadataActs) as [meta|] eqn:E.
  - cbn [mo_provisions mo_definitions]. apply ownProperty_In in E.
    pose proof metadataActs_checked as H. rewrite forallb_forall in H.
    apply checkRecord_sound. exact (H _ E).
  - destruct (existsb (JS.eqb (id act)) objectPrototypeMembers) eqn:Ei;
      cbn [mo_provisions mo_definitions].
    + apply existsb_exists in Ei as (x & Hin & Hx). apply eqb_eq in Hx. now subst.
    + repeat split; constructor.
Qed.

(** *** The command line *)

Lemma digitsValue_decimal (d : Decimal.uint) :
  forall acc : nat,
    digitsValue (Z.of_nat acc) (str (DecimalString.NilEmpty.string_of_uint d))
    = Z.of_nat (Nat.of_uint_acc d acc).
Proof.
  induction d as [|d IH|d IH|d IH|d IH|d IH|d IH|d IH|d IH|d IH|d IH]; intro acc;
    [reflexivity|..];
    cbn [DecimalString.NilEmpty.string_of_uint Nat.of_uint_acc];
    rewrite <- IH, Nat.tail_mul_spec;
    unfold str; cbn [list_ascii_of_string map digitsValue];
    fold (str (DecimalString.NilEmpty.string_of_uint d));
    match goal with
    | |- (if isDigit ?c then _ else _) = _ =>
        change (isDigit c) with true; cbv iota
    end;
    f_equal; unfold digitValue;
    match goal with
    | |- context [Z.of_N ?e] =>
        let v := eval vm_compute in (Z.of_N e) in change (Z.of_N e) with v
    end;
    lia.
Qed.

Lemma to_uint_head (n : nat) :
  exists c t, decimal n = c :: t /\ isDigit c = true.
Proof.
  unfold decimal.
  assert (H : Nat.to_uint n <> Decimal.Nil).
  { rewrite <- (DecimalNat.Unsigned.of_to n) at 1.
    rewrite DecimalNat.Unsigned.to_of. unfold Decimal.unorm.
    destruct (Decimal.nzhead (Nat.to_uint n)); discriminate. }
  destruct (Nat.to_uint n); [congruence|..]; eexists; eexists; split; reflexivity.
Qed.

Lemma parseInt10_decimal (n : nat) : parseInt10 (decimal n) = toNumber false (Z.of_nat n).
Proof.
  destruct (to_uint_head n) as (c & t & E & Hc).
  pose proof (digitsValue_decimal (Nat.to_uint n) 0) as Hv.
  fold (decimal n) in Hv. change (Nat.of_uint_acc (Nat.to_uint n) 0)
    with (Nat.of_uint (Nat.to_uint n)) in Hv.
  rewrite DecimalNat.Unsigned.of_to in Hv. cbn [Z.of_nat] in Hv.
  unfold parseInt10. rewrite E in *. cbn [trimStart].
  pose proof (digit_facts c Hc) as (_ & _ & Hws & _). rewrite Hws.
  assert (H45 : cu_eqb c 45%N = false).
  { unfold cu_eqb, isDigit in *. apply andb_true_iff in Hc as [H1 H2].
    apply N.leb_le in H1. apply N.eqb_neq. lia. }
  assert (H43 : cu_eqb c 43%N = false).
  { unfold cu_eqb, isDigit in *. apply andb_true_iff in Hc as [H1 H2].
    apply N.leb_le in H1. apply N.eqb_neq. lia. }
  rewrite H45, H43, Hc, Hv. reflexivity.
Qed.

Lemma decimal_nonempty (n : nat) : decimal n <> [].
Proof. destruct (to_uint_head n) as (c & t & -> & _). discriminate. Qed.

Lemma sliceTo_firstn {A : Type} (n : nat) (a : list A) :
  sliceTo (Z.of_nat n) a = firstn n a.
Proof.
  unfold sliceTo. replace (Z.of_nat n <? 0)%Z with false by (symmetry; apply Z.ltb_ge; lia).
  destruct (Nat.le_ge_cases n (length a)) as [H|H].
  - rewrite Z.min_l by lia. now rewrite Nat2Z.id.
  - rewrite Z.min_r by lia. rewrite Nat2Z.id, firstn_all.
    symmetry. now apply firstn_all2.
Qed.

Lemma limit_decimal (n : nat) :
  parseArgs (commandLine [str "--limit"; decimal n])
  = (Some (toNumber false (Z.of_nat n)), false).
Proof.
  unfold parseArgs, commandLine. cbn [skipn parseArgsLoop].
  change (JS.eqb (str "--limit") (str "--limit")) with true. cbv iota.
  pose proof (decimal_nonempty n) as Hne.
  destruct (decimal n) as [|c t] eqn:E; [congruence|].
  rewrite <- E, parseInt10_decimal. reflexivity.
Qed.

Lemma acts_for_limit (n : nat) :
  actsToProcess (fst (parseArgs (commandLine [str "--limit"; decimal n])))
  = if Nat.eqb n 0 then KEY_ISRAELI_ACTS else firstn n KEY_ISRAELI_ACTS.
Proof.
  rewrite limit_decimal. cbn [fst]. unfold toNumber.
  destruct n as [|n]; [reflexivity|].
  replace (Z.of_nat (S n) =? 0)%Z with false by (symmetry; apply Z.eqb_neq; lia).
  cbn [Nat.eqb].
  destruct (Z.of_nat (S n) <? twoTo53)%Z eqn:E; cbn [actsToProcess].
  - replace (Z.of_nat (S n) =? 0)%Z with false by (symmetry; apply Z.eqb_neq; lia).
    apply sliceTo_firstn.
  - cbn [sliceHuge]. symmetry. apply firstn_all2.
    apply Z.ltb_ge in E. unfold twoTo53 in E.
    change (length KEY_ISRAELI_ACTS) with 10. lia.
Qed.

Lemma flags_either_order (v : jstring) :
  v <> [] ->
  parseArgs (commandLine [str "--limit"; v; str "--skip-fetch"])
  = (Some (parseInt10 v), true)
  /\ parseArgs (commandLine [str "--skip-fetch"; str "--limit"; v])
     = (Some (parseInt10 v), true).
Proof.
  intro Hv. destruct v as [|c t]; [congruence|].
  unfold parseArgs, commandLine. cbn [skipn parseArgsLoop].
  change (JS.eqb (str "--limit") (str "--limit")) with true.
  change (JS.eqb (str "--skip-fetch") (str "--limit")) with false.
  change (JS.eqb (str "--skip-fetch") (str "--skip-fetch")) with true.
  cbv iota. split; reflexivity.
Qed.

(** Without the flag [--limit] nothing is consumed as its value. *)
Lemma no_limit_flag (args : list jstring) :
  ~ In (str "--limit") args ->
  forall limit skipFetch,
    parseArgsLoop args limit skipFetch
    = (limit, skipFetch || existsb (JS.eqb (str "--skip-fetch")) args).
Proof.
  induction args as [|a args IH]; intros Hn limit skipFetch; cbn [parseArgsLoop existsb].
  - now rewrite orb_false_r.
  - assert (Ea : JS.eqb a (str "--limit") = false).
    { destruct (JS.eqb a (str "--limit")) eqn:E; [|reflexivity].
      apply eqb_eq in E. exfalso. apply Hn. now left. }
    rewrite Ea.
    assert (Hn' : ~ In (str "--limit") args) by (intro H; apply Hn; now right).
    destruct (JS.eqb a (str "--skip-fetch")) eqn:Es.
    + rewrite (IH Hn'). apply eqb_eq in Es. subst a.
      change (JS.eqb (str "--skip-fetch") (str "--skip-fetch")) with true.
      cbn [orb]. now rewrite orb_true_r.
    + rewrite (IH Hn').
      assert (Es' : JS.eqb (str "--skip-fetch") a = false).
      { destruct (JS.eqb (str "--skip-fetch") a) eqn:E; [|reflexivity].
        apply eqb_eq in E. subst a. now rewrite eqb_refl in Es. }
      now rewrite Es'.
Qed.

(** The acts to process are a prefix of the index, whatever the
    command line. *)
Lemma acts_prefix (limit : Limit) :
  exists n, actsToProcess limit = firstn n KEY_ISRAELI_ACTS.
Proof.
  destruct limit as [[|neg|z|neg]|]; cbn [actsToProcess];
    try (exists (length KEY_ISRAELI_ACTS); now rewrite firstn_all).
  - destruct (z =? 0)%Z; [exists (length KEY_ISRAELI_ACTS); now rewrite firstn_all|].
    unfold sliceTo. eexists. reflexivity.
  - destruct neg; cbn [sliceHuge]; [now exists 0|].
    exists (length KEY_ISRAELI_ACTS). now rewrite firstn_all.
Qed.

(** The index against the table. *)
Lemma distinctb_NoDup (l : list jstring) : distinctb l = true -> NoDup l.
Proof.
  induction l as [|x l IH]; intro H; [constructor|].
  cbn [distinctb] in H. apply andb_true_iff in H as [H1 H2].
  constructor; [|now apply IH].
  intro Hin. apply negb_true_iff in H1.
  assert (Ht : existsb (JS.eqb x) l = true).
  { apply existsb_exists. exists x. split; [exact Hin|apply JSFacts.eqb_refl]. }
  congruence.
Qed.

Lemma In_check (key : jstring) (l : list jstring) :
  In key l <-> existsb (JS.eqb key) l = true.
Proof.
  rewrite existsb_exists. split.
  - intro H. exists key. split; [exact H|apply JSFacts.eqb_refl].
  - intros [x [Hx E]]. apply JSFacts.eqb_eq in E. now subst.
Qed.

Lemma coveredb_sound (act : ActIndexEntry) :
  coveredb act = true ->
  exists pa,
    asParsedAct (createMetadataOnlyAct act) = Some pa
    /\ (provisions pa = [] <-> In (id act) parsedFromSource).
Proof.
  unfold coveredb. destruct (asParsedAct (createMetadataOnlyAct act)) as [pa|];
    [|discriminate].
  intro H. exists pa. split; [reflexivity|].
  apply Bool.eqb_prop in H. rewrite In_check, <- H.
  destruct (provisions pa); split; intro; congruence.
Qed.

End IngestFacts.

Import IngestFacts.

(* ===================================================================== *)
(** ** The normalizers *)
(* ===================================================================== *)

Module TextNormalization.

Import NormalFacts MarkupFacts.

(** X1: the text normalizer returns text in normal form.  The only white
    space left in [normalizeText s] is the space U+0020, no two spaces
    follow each other, and the text neither starts nor ends with white
    space (trimming it changes nothing). *)
Theorem normalizeText_normal_form (s : jstring) :
  singleSpaced (normalizeText s) = true
  /\ trim (normalizeText s) = normalizeText s.
Proof. split; [apply normalizeText_spaced|apply normalizeText_trimmed]. Qed.

(** X2: the texts the normalizer leaves as they are, are exactly the
    texts in normal form; so normalizing twice is normalizing once. *)
Theorem normalizeText_fixed_points (s : jstring) :
  (normalizeText s = s <-> singleSpaced s = true /\ trim s = s)
  /\ normalizeText (normalizeText s) = normalizeText s.
Proof.
  split; [split|apply normalizeText_idem].
  - intro E. rewrite <- E. split; [apply normalizeText_spaced|apply normalizeText_trimmed].
  - intros [H1 H2]. now apply normalizeText_fixed.
Qed.

(** X3: the normalizer touches white space only.  The code units that
    are no white space come out unchanged and in the same order, and the
    result is empty exactly when the input is white space throughout. *)
Theorem normalizeText_keeps_visible (s : jstring) :
  visible (normalizeText s) = visible s
  /\ (normalizeText s = [] <-> allWs s).
Proof.
  pose proof (normalizeText_visible s) as Hv.
  split; [exact Hv|split].
  - intro E. rewrite E in Hv. apply visible_nil. now rewrite <- Hv.
  - intro H. rewrite normalizeText_collapse. apply trim_allWs.
    now apply allWs_collapseRuns.
Qed.

(** X4: what stripHtml returns is already normalized: normalizing it
    again, as every caller does with normalizeText(stripHtml(x)), changes
    nothing. *)
Theorem stripHtml_normalized (html : jstring) :
  normalizeText (stripHtml html) = stripHtml html
  /\ singleSpaced (stripHtml html) = true
  /\ trim (stripHtml html) = stripHtml html.
Proof.
  destruct (stripHtml_is_normalized html) as [t ->].
  split; [apply normalizeText_idem|].
  split; [apply normalizeText_spaced|apply normalizeText_trimmed].
Qed.

(** X5: on text with tags, stripHtml puts a space for every tag and
    normalizes.  The text is a sequence of pieces without less-than sign
    or ampersand, separated by tags whose body is not empty and has no
    greater-than sign (it may hold ampersands and less-than signs).  With
    no tag at all, stripHtml is normalizeText. *)
Theorem stripHtml_tags (t0 : jstring) (l : list (jstring * jstring)) :
  plainText t0 ->
  Forall (fun gt => tagBody (fst gt) /\ plainText (snd gt)) l ->
  stripHtml (markup t0 l) = normalizeText (tagsAsSpaces t0 l).
Proof.
  intros H0 Hl. unfold stripHtml, normalizeText.
  assert (Ht : replaceAll false tagPattern (str " ") (markup t0 l) = tagsAsSpaces t0 l).
  { unfold replaceAll. apply tags_replaced; [now apply plainText_noLt| |lia].
    eapply Forall_impl; [|exact Hl]. intros [g t] [Hg Hp]. split; [exact Hg|].
    now apply plainText_noLt. }
  rewrite Ht, references_absent; [reflexivity|].
  now apply tagsAsSpaces_noAmp.
Qed.

Lemma stripHtml_tags_witness :
  stripHtml (markup [] [(str "B", str "1. Title"); (str "/B", str "text")])
  = normalizeText (tagsAsSpaces [] [(str "B", str "1. Title"); (str "/B", str "text")]).
Proof.
  apply stripHtml_tags.
  - constructor.
  - repeat constructor; try discriminate;
      try (apply plainText_check; vm_compute; reflexivity);
      try (apply differs_check; vm_compute; reflexivity).
Defined.

(** X6: the character references.  In text without tags, a reference
    &nbsp; &lt; &gt; &quot; or &#39; is decoded to the character it stands
    for, and &amp; to an ampersand when what follows the reference does
    not start with l, g, q or the number sign. *)
Theorem stripHtml_references (pre post : jstring) :
  plainText pre -> plainText post ->
  (forall name r,
      In (name, r) references ->
      stripHtml (pre ++ ampersand :: str name ++ post) = normalizeText (pre ++ r ++ post))
  /\ (match post with
      | [] => True
      | c :: _ => startsReference c = false
      end ->
      stripHtml (pre ++ str "&amp;" ++ post) = normalizeText (pre ++ ampersand :: post)).
Proof.
  intros Hp Hq. split.
  - intros name r Hin. now apply reference_single.
  - now apply reference_ampersand.
Qed.

Lemma stripHtml_references_witness :
  stripHtml (str "a" ++ ampersand :: str "lt;" ++ str "b")
  = normalizeText (str "a" ++ str "<" ++ str "b")
  /\ stripHtml (str "a" ++ str "&amp;" ++ str "b")
     = normalizeText (str "a" ++ ampersand :: str "b").
Proof.
  destruct (stripHtml_references (str "a") (str "b")) as [H1 H2].
  - apply plainText_check. vm_compute. reflexivity.
  - apply plainText_check. vm_compute. reflexivity.
  - split.
    + apply (H1 "lt;"%string). vm_compute. tauto.
    + apply H2. vm_compute. reflexivity.
Defined.

(** X7: the references are decoded one kind after the other, &amp;
    before the others, so that an escaped ampersand followed by lt; gt;
    quot; or #39; is decoded twice: &amp;lt; comes out as the less-than
    sign, not as the text &lt;. *)
Theorem stripHtml_decodes_twice (name : string) (r pre post : jstring) :
  In (name, r) laterReferences -> plainText pre -> plainText post ->
  stripHtml (pre ++ str "&amp;" ++ str name ++ post) = normalizeText (pre ++ r ++ post).
Proof.
  intros Hin Hp Hq.
  pose proof (plainText_noAmp _ Hp) as Hpre. pose proof (plainText_noAmp _ Hq) as Hpost.
  pose proof (plainText_noLt _ Hq) as Hlt.
  unfold stripHtml, normalizeText.
  change (str "&amp;" ++ str name ++ post)
    with (ampersand :: str "amp;" ++ str name ++ post).
  cbn [laterReferences In] in Hin.
  repeat (destruct Hin as [Hin|Hin]; [inversion Hin; subst name r; clear Hin|]);
    [..|contradiction];
    (rewrite tags_absent;
     [|exact Hp|apply noLt_app; [closed_forall|apply noLt_app; [closed_forall|exact Hlt]]]);
    (rewrite reference_elsewhere;
     [|exact Hpre
      |apply noAmp_app; [closed_forall|apply noAmp_app; [closed_forall|exact Hpost]]
      |intro; reflexivity]);
    (rewrite reference_decoded;
     [|exact Hpre|closed_forall|apply noAmp_app; [closed_forall|exact Hpost]]);
    match goal with
    | |- context [pre ++ str "&" ++ str ?n ++ post] =>
        change (pre ++ str "&" ++ str n ++ post) with (pre ++ ampersand :: str n ++ post)
    end;
    do 4 (pass Hpre Hpost); reflexivity.
Qed.

Lemma stripHtml_decodes_twice_witness :
  stripHtml (str "a " ++ str "&amp;" ++ str "lt;" ++ str " b")
  = normalizeText (str "a " ++ str "<" ++ str " b").
Proof.
  apply (stripHtml_decodes_twice "lt;"%string).
  - vm_compute. tauto.
  - apply plainText_check. vm_compute. reflexivity.
  - apply plainText_check. vm_compute. reflexivity.
Defined.

End TextNormalization.

(* ===================================================================== *)
(** ** Invariants of the parsed acts *)
(* ===================================================================== *)

Module ParsedActInvariants.

Import WellFormedFacts DefinitionFacts.

(** X8: in every strategy, the reference of a provision is the text sec
    followed by its section label, and the label is a number followed by
    at most one ASCII letter: in particular it is not empty and holds no
    white space. *)
Theorem provisions_keyed (s : Strategy) (text : jstring) (act : ActIndexEntry) :
  exists pa, run s text act = Some pa /\ Forall keyed (provisions pa).
Proof.
  destruct (run_total s text act) as [pa H]. exists pa. split; [exact H|].
  apply run_good in H. eapply Forall_impl; [|exact H]. now intros p [Hk _].
Qed.

(** X9: in every strategy, the texts of a provision are on one line.
    The title is normalized; the chapter, when there is one, is
    normalized and not empty; the content has single spaces as its only
    white space and does not start with one (it may end with one where
    the cap on its length cut it). *)
Theorem provisions_tidy (s : Strategy) (text : jstring) (act : ActIndexEntry) :
  exists pa, run s text act = Some pa /\ Forall tidy (provisions pa).
Proof.
  destruct (run_total s text act) as [pa H]. exists pa. split; [exact H|].
  apply run_good in H. eapply Forall_impl; [|exact H]. now intros p [_ Ht].
Qed.

(** X10: every definition of a parsed act names, as its source, a
    provision emitted in the same act, one of a section the strategy scans
    for definitions: sections 3, 7 and 17C of the privacy law, section 1
    in the statute convention.  The basic-law convention yields no
    definition, and neither does the generic HTML fallback for an act other
    than the privacy law. *)
Theorem definitions_cite_provisions (s : Strategy) (text : jstring)
        (act : ActIndexEntry) :
  exists pa,
    run s text act = Some pa
    /\ Forall (cites (definitionSections s act) (provisions pa)) (definitions pa)
    /\ (s = BasicText -> definitions pa = [])
    /\ (s = GenericHtml -> JS.eqb (id act) privacyLawId = false ->
        definitions pa = []).
Proof.
  destruct (run_total s text act) as [pa H]. exists pa. split; [exact H|].
  apply run_sound in H. split; [|split].
  - eapply Forall_impl; [|exact H]. now intros d [Hc _].
  - intros ->. destruct (definitions pa) as [|d ds]; [reflexivity|].
    inversion H as [|? ? [(p & _ & _ & Hf) _] _]. discriminate Hf.
  - intros -> Hid. destruct (definitions pa) as [|d ds]; [reflexivity|].
    inversion H as [|? ? [(p & _ & _ & Hf) _] _].
    unfold definitionSections in Hf. rewrite Hid in Hf. discriminate Hf.
Qed.

(** X11: every definition of a parsed act is well formed.  Its term has
    2 to 79 characters, is normalized and holds no double quote; its
    definition text has more than 5 characters, is normalized and holds no
    semicolon (the text stops at the first semicolon of the source). *)
Theorem definitions_well_formed (s : Strategy) (text : jstring)
        (act : ActIndexEntry) :
  exists pa,
    run s text act = Some pa /\ Forall wellFormedDefinition (definitions pa).
Proof.
  destruct (run_total s text act) as [pa H]. exists pa. split; [exact H|].
  apply run_sound in H. eapply Forall_impl; [|exact H]. now intros d [_ Hw].
Qed.

End ParsedActInvariants.

(* ===================================================================== *)
(** ** The lines of the plain-text conventions *)
(* ===================================================================== *)

Module TextLines.

Import LineFacts LineEndingFacts.

(** X12: page numbers.  In the statute convention a line that holds
    digits only never starts a section and never becomes part of a title.
    Inside a section it is dropped as a page number when it has at most
    three digits, and appended to the content of the section when it has
    more; before the first section it is ignored. *)
Theorem page_number_lines (st : TextState) (rawLine D : jstring) :
  trim rawLine = D -> D <> [] -> Forall (fun d => isDigit d = true) D ->
  computerLine st rawLine =
  Some (match currentSection st with
        | Some cur => if length D <=? 3 then st else appendContent st cur D
        | None => st
        end).
Proof.
  intros Et Hne HD. unfold computerLine. rewrite Et.
  destruct D as [|d D']; [congruence|]. pose proof HD as HD0.
  inversion HD as [|? ? Hd HD']; subst.
  rewrite (chapter_no_digit d D' Hd).
  assert (Hper : ~ In period (d :: D')) by (now apply digits_no).
  rewrite (needs_absent false period sectionAlonePattern _ eq_refl Hper).
  rewrite (needs_absent false period sectionInlinePattern _ eq_refl Hper).
  rewrite (reDigits_hit (d :: D')) by assumption.
  assert (Hlen : (0 <? length (d :: D')) = true) by reflexivity.
  rewrite Hlen.
  destruct (currentSection st) as [cur|].
  - cbn [andb]. destruct (length (d :: D') <=? 3); [reflexivity|].
    unfold reComputersLaw1995. cbn [cat].
    rewrite (anchored_literal_only_digit true "C" "omputers Law, 1995" d D' Hd eq_refl).
    rewrite (normalizeText_nonWs _ (digits_nonWs _ HD0)). reflexivity.
  - unfold reGo, reSectionN, reComputersLaw. cbn [cat].
    rewrite (anchored_literal_digit true "G" "o" Eol d D' Hd eq_refl).
    rewrite (anchored_literal_digit false "S" "ection" _ d D' Hd eq_refl).
    rewrite (anchored_literal_only_digit true "C" "omputers Law" d D' Hd eq_refl).
    cbn [negb andb orb]. reflexivity.
Qed.

Lemma page_number_lines_witness :
  computerLine inSection (str " 12 ") = Some inSection
  /\ computerLine inSection (str "1995")
     = Some (appendContent inSection bodyInProgress (str "1995")).
Proof.
  split.
  - apply (page_number_lines inSection (str " 12 ") (str "12")).
    + vm_compute. reflexivity.
    + discriminate.
    + repeat constructor.
  - apply (page_number_lines inSection (str "1995") (str "1995")).
    + vm_compute. reflexivity.
    + discriminate.
    + repeat constructor.
Defined.

(** X13: chapter headings.  In the statute convention a line that
    reads Chapter (in any case), white space, a word, a colon and a name is
    a chapter heading wherever it stands: the chapter becomes the
    normalized line, the marginal notes gathered so far are dropped, and
    the sections and the section in progress are left as they are (the
    line is no content of any section). *)
Theorem chapter_heading_line (st : TextState) (rawLine C S1 W S2 T : jstring)
        (t : cu) :
  trim rawLine = C ++ S1 ++ W ++ colon :: S2 ++ t :: T ->
  spells true "Chapter" C ->
  S1 <> [] -> allWs S1 ->
  W <> [] -> Forall (fun c => isWordChar c = true) W ->
  allWs S2 -> isWhiteSpace t = false ->
  computerLine st rawLine = Some (enterChapter st (normalizeText (trim rawLine))).
Proof.
  intros E HC Hne1 HS1 HneW HW HS2 Ht. unfold computerLine.
  rewrite E at 1. now rewrite chapter_hit.
Qed.

Lemma chapter_heading_line_witness :
  computerLine inSection (str "CHAPTER Two:  Offences")
  = Some (enterChapter inSection (str "CHAPTER Two: Offences")).
Proof.
  apply (chapter_heading_line inSection (str "CHAPTER Two:  Offences")
           (str "CHAPTER") (str " ") (str "Two") (str "  ") (str "ffences") 79%N).
  - vm_compute. reflexivity.
  - repeat constructor.
  - discriminate.
  - repeat constructor.
  - discriminate.
  - repeat constructor.
  - repeat constructor.
  - reflexivity.
Defined.

(** X14: line endings.  Both plain-text parsers read every line through
    its trimmed text, so a text with a carriage return before every line
    feed (the line endings of Windows) is parsed as the text without
    them. *)
Theorem line_endings_ignored (text : jstring) (act : ActIndexEntry) :
  parseBasicLawText (crlf text) act = parseBasicLawText text act
  /\ parseComputerLawText (crlf text) act = parseComputerLawText text act.
Proof.
  split.
  - unfold parseBasicLawText.
    now rewrite (basicSections_sameLine _ _ (splitLines_crlf text)).
  - unfold parseComputerLawText, computerSections. rewrite lawTextOf_crlf.
    now rewrite (foldM_computerLine_sameLine _ _ (splitLines_crlf (lawTextOf text))).
Qed.

(** X15: the look-back of the basic-law convention.  What a line does
    to the state depends on its own trimmed text and on the trimmed text
    of the four lines before it only: the marginal title of a section is
    never taken from further up. *)
Theorem title_look_back_window (lines lines' : list jstring) (st : BasicState)
        (i : nat) :
  (forall k, i - 4 <= k <= i ->
             option_map trim (nth_error lines k) = option_map trim (nth_error lines' k)) ->
  basicLine lines st i = basicLine lines' st i.
Proof. apply basicLine_trim. Qed.

Lemma title_look_back_window_witness :
  basicLine [str "Far above"; str "Purpose"; []; []; []; str "1. The purpose"]
            ([], None) 5
  = basicLine [str "Something else"; str " Purpose "; []; []; []; str "1. The purpose"]
              ([], None) 5.
Proof.
  apply title_look_back_window. intros k Hk.
  assert (E : k = 1 \/ k = 2 \/ k = 3 \/ k = 4 \/ k = 5) by lia.
  destruct E as [->|[->|[->|[->| ->]]]]; vm_compute; reflexivity.
Defined.

End TextLines.

(* ===================================================================== *)
(** ** The ingestion pipeline (scripts/ingest.ts) *)
(* ===================================================================== *)

Module Ingestion.

Import IngestFacts.

(** X16: an act without metadata.  For an act whose id is no key of the
    table of createMetadataOnlyAct (and no name of a member that an object
    inherits), the record has no provision and no definition, and its
    description is the English title followed by the note that the record
    holds metadata only. *)
Theorem metadata_unknown_act (act : ActIndexEntry) :
  ~ In (id act) (map fst metadataActs) ->
  ~ In (id act) objectPrototypeMembers ->
  asParsedAct (createMetadataOnlyAct act)
  = Some {| pa_id := id act;
            pa_type := str "statute";
            pa_title := title act;
            title_en := titleEn act;
            short_name := abbreviation act;
            pa_status := status act;
            issued_date := issuedDate act;
            in_force_date := inForceDate act;
            pa_url := url act;
            description := Some (titleEn act ++ metadataOnlyNote);
            provisions := [];
            definitions := [] |}.
Proof.
  intros H1 H2. unfold createMetadataOnlyAct.
  now rewrite (member_undefined (id act) H1 H2).
Qed.

Lemma metadata_unknown_act_witness :
  option_map description (asParsedAct (createMetadataOnlyAct sampleAct))
  = Some (Some (str "Computers Law, 5755-1995 - metadata-only record. Full English text not available from accessible sources.")).
Proof.
  assert (Hn : forall (key : jstring) l, existsb (JS.eqb key) l = false -> ~ In key l).
  { intros key l H Hin.
    assert (Ht : existsb (JS.eqb key) l = true).
    { apply existsb_exists. exists key. split; [exact Hin|apply JSFacts.eqb_refl]. }
    congruence. }
  rewrite (metadata_unknown_act sampleAct).
  - vm_compute. reflexivity.
  - apply Hn. vm_compute. reflexivity.
  - apply Hn. vm_compute. reflexivity.
Defined.

(** X17: the records of createMetadataOnlyAct are well formed, whatever
    the act.  The references of the provisions are sec or reg followed by
    the section label and are distinct, the label is a number with at most
    one letter, titles and contents are normalized, the contents have 11
    to 8000 characters; every definition is well formed and names a
    provision of the same record, and the terms are distinct.  The only
    acts for which the record lacks its sequences are those whose id is
    the name of a member inherited from Object.prototype. *)
Theorem metadata_records_well_formed (act : ActIndexEntry) :
  match asParsedAct (createMetadataOnlyAct act) with
  | Some pa => metadataRecord (provisions pa) (definitions pa)
  | None => In (id act) objectPrototypeMembers
  end.
Proof.
  pose proof (metadata_record act) as H. unfold asParsedAct.
  destruct (mo_provisions (createMetadataOnlyAct act)) as [ps|];
    destruct (mo_definitions (createMetadataOnlyAct act)) as [ds|]; exact H.
Qed.

(** X18: the index and the metadata table agree.  The ids of
    KEY_ISRAELI_ACTS are distinct; every act of the index either is one of
    the three acts the pipeline routes to a parser of their own or has a
    metadata record with provisions; and every key of the metadata table is
    the id of an act of the index. *)
Theorem index_covered :
  NoDup (map id KEY_ISRAELI_ACTS)
  /\ Forall (fun act =>
               exists pa,
                 asParsedAct (createMetadataOnlyAct act) = Some pa
                 /\ (provisions pa = [] <-> In (id act) parsedFromSource))
            KEY_ISRAELI_ACTS
  /\ Forall (fun kv => In (fst kv) (map id KEY_ISRAELI_ACTS)) metadataActs.
Proof.
  split; [|split].
  - apply distinctb_NoDup. vm_compute. reflexivity.
  - apply Forall_forall. intros act Hin. apply coveredb_sound.
    assert (H : forallb coveredb KEY_ISRAELI_ACTS = true) by (vm_compute; reflexivity).
    rewrite forallb_forall in H. now apply H.
  - apply Forall_forall. intros kv Hin. apply In_check.
    assert (H : forallb (fun kv => existsb (JS.eqb (fst kv)) (map id KEY_ISRAELI_ACTS))
                        metadataActs = true) by (vm_compute; reflexivity).
    rewrite forallb_forall in H. now apply H.
Qed.

(** X19: the flag --limit.  With a decimal numeral n as its value the
    pipeline processes the first n acts of the index (all of them when n
    exceeds their number), except that --limit 0 processes them all.
    Whatever the command line, the acts processed are a prefix of the
    index. *)
Theorem limit_flag_selects_prefix :
  (forall n : nat,
      actsToProcess (fst (parseArgs (commandLine [str "--limit"; decimal n])))
      = if Nat.eqb n 0 then KEY_ISRAELI_ACTS else firstn n KEY_ISRAELI_ACTS)
  /\ (forall argv : list jstring,
         exists k, actsToProcess (fst (parseArgs argv)) = firstn k KEY_ISRAELI_ACTS).
Proof.
  split; [exact acts_for_limit|]. intro argv. apply acts_prefix.
Qed.

(** X20: the flags of the command line.  The two flags may come in
    either order, the limit being the Number parseInt returns for the
    argument after --limit (exact below 2^53 in magnitude, its sign alone
    from there on); without --limit the limit is null and skipFetch tells
    whether --skip-fetch occurs; and --limit takes whatever follows it as
    its value, so that --limit --skip-fetch sets a limit that is no number
    and leaves skipFetch unset. *)
Theorem flags_parsed (a : list jstring) (x : jstring) :
  (x <> [] ->
   parseArgs (commandLine [str "--limit"; x; str "--skip-fetch"])
   = (Some (parseInt10 x), true)
   /\ parseArgs (commandLine [str "--skip-fetch"; str "--limit"; x])
      = (Some (parseInt10 x), true))
  /\ (~ In (str "--limit") a ->
      parseArgs (commandLine a)
      = (None, existsb (JS.eqb (str "--skip-fetch")) a))
  /\ parseArgs (commandLine [str "--limit"; str "--skip-fetch"]) = (Some NaN, false).
Proof.
  split; [apply flags_either_order|split; [|reflexivity]].
  intro H. unfold parseArgs, commandLine. cbn [skipn].
  now rewrite (no_limit_flag a H).
Qed.

Lemma flags_parsed_witness :
  parseArgs (commandLine [str "--limit"; str "3"; str "--skip-fetch"])
  = (Some (Int 3), true)
  /\ parseArgs (commandLine [str "--verbose"; str "--skip-fetch"]) = (None, true).
Proof.
  destruct (flags_parsed [str "--verbose"; str "--skip-fetch"] (str "3"))
    as [H1 [H2 _]].
  split.
  - apply H1. discriminate.
  - apply H2. vm_compute. intros [H|[H|[]]]; discriminate H.
Defined.

(** The limit past the integers a double holds exactly: the numeral of
    2^53 + 1, and a numeral of 400 digits. *)
Lemma limit_beyond_exact_integers :
  parseArgs (commandLine [str "--limit"; str "9007199254740993"; str "--skip-fetch"])
  = (Some (Huge false), true)
  /\ parseArgs (commandLine [str "--limit"; str "-9007199254740993"])
     = (Some (Huge true), false)
  /\ parseArgs (commandLine [str "--limit"; repeat 57%N 400])
     = (Some (Huge false), false)
  /\ parseArgs (commandLine [str "--limit"; str "9007199254740991"])
     = (Some (Int 9007199254740991), false)
  /\ parseArgs (commandLine [str "--limit"; str "-0"]) = (Some (Zero true), false).
Proof. repeat split; vm_compute; reflexivity. Qed.

End Ingestion.
